(** * Airline survey knowledge graph: builder and query validator

    A shallow embedding of [Milestone_02/create_kg.py] and
    [Milestone_02/validate_queries.py].

    - Python values are an inductive type; floating-point numbers are
      represented by the rational they denote.
    - A dictionary with string keys is a [gmap string _]; a dictionary whose
      iteration order matters (an expected result row) is an association
      list.
    - The graph store is a list of nodes (identity = position) and a list of
      relationships; the Cypher statements sent by the programs are
      interpreted clause by clause over a table of bindings.
    - Printing, driver and session calls are events appended to a trace,
      threaded with the store through a state-and-exception monad. *)

From Stdlib Require Import Ascii String QArith Qabs Qminmax.
From stdpp Require Import gmap strings pretty list fin_maps.


(** ** Python strings *)

Module PyStr.

(** Code points below 256 for which [str.isspace] holds. *)
Definition is_space (c : ascii) : bool :=
  let n := nat_of_ascii c in
  (((9 <=? n) && (n <=? 13)) || ((28 <=? n) && (n <=? 32))
   || (n =? 133) || (n =? 160))%nat.

Definition is_eq_sign (c : ascii) : bool := bool_decide (c = "="%char).

(** ['=' in s] *)
Fixpoint contains_eq (s : string) : bool :=
  match s with
  | EmptyString => false
  | String c s' => is_eq_sign c || contains_eq s'
  end.

Fixpoint lstrip (s : string) : string :=
  match s with
  | EmptyString => EmptyString
  | String c s' => if is_space c then lstrip s' else s
  end.

Fixpoint rstrip (s : string) : string :=
  match s with
  | EmptyString => EmptyString
  | String c s' =>
      match rstrip s' with
      | EmptyString => if is_space c then EmptyString else String c EmptyString
      | r => String c r
      end
  end.

(** [s.strip()] *)
Definition strip (s : string) : string := rstrip (lstrip s).

(** [s.split('=', 1)]: one element when there is no ['='], otherwise the
    text before the first ['='] and the text after it. *)
Fixpoint split_eq1 (s : string) : list string :=
  match s with
  | EmptyString => [EmptyString]
  | String c s' =>
      if is_eq_sign c then [EmptyString; s']
      else match split_eq1 s' with
           | k :: rest => String c k :: rest
           | [] => []
           end
  end.

End PyStr.

(** ** Exceptions and the program monad *)

Inductive exn :=
  | KeyError (key : string)
  | ValueError.

Inductive res (A : Type) :=
  | Ok (a : A)
  | Raise (e : exn).
Arguments Ok {A} a.
Arguments Raise {A} e.

(** ** Configuration loader (identical in both programs) *)

Module Config.

(** The body of the [for line in file] loop. *)
Definition load_line (config : gmap string string) (line : string)
  : res (gmap string string) :=
  if PyStr.contains_eq line then
    match PyStr.split_eq1 (PyStr.strip line) with
    | [key; value] => Ok (<[key := value]> config)
    | _ => Raise ValueError
    end
  else Ok config.

Fixpoint load_lines (config : gmap string string) (lines : list string)
  : res (gmap string string) :=
  match lines with
  | [] => Ok config
  | line :: rest =>
      match load_line config line with
      | Ok config' => load_lines config' rest
      | Raise e => Raise e
      end
  end.

(** Truth value of [config] in [if config:]. *)
Definition truthy (config : option (gmap string string)) : bool :=
  match config with
  | None => false
  | Some m => negb (bool_decide (m = ∅))
  end.

End Config.

(** ** Result validator ([validate_queries.py]) *)

Module Validator.

(** Scalars that a result row or an expected row can hold.  A float is the
    rational it denotes (infinities and NaN do not occur in the expected
    tables and are not represented). *)
Inductive value :=
  | VNone
  | VBool (b : bool)
  | VInt (n : Z)
  | VFloat (x : Q)
  | VStr (s : string).

(** [isinstance(v, float)] *)
Definition is_float (v : value) : bool :=
  match v with VFloat _ => true | _ => false end.

(** [isinstance(v, (int, float))]; [bool] is a subclass of [int]. *)
Definition is_int_or_float (v : value) : bool :=
  match v with VBool _ | VInt _ | VFloat _ => true | _ => false end.

(** The number a numeric value stands for. *)
Definition number (v : value) : option Q :=
  match v with
  | VBool b => Some (if b then 1 else 0)%Q
  | VInt n => Some (inject_Z n)
  | VFloat x => Some x
  | _ => None
  end.

(** [a == b] on scalars: numbers compare by value across [bool], [int] and
    [float]; a string equals only the same string; [None] only [None]. *)
Definition py_eq (a b : value) : bool :=
  match number a, number b with
  | Some x, Some y => Qeq_bool x y
  | _, _ =>
      match a, b with
      | VNone, VNone => true
      | VStr s, VStr t => bool_decide (s = t)
      | _, _ => false
      end
  end.

(** [a != b] *)
Definition py_ne (a b : value) : bool := negb (py_eq a b).

Definition rel_tol : Q := 1 # 1000000000.

(** [math.isclose(a, b, rel_tol=rel_tol)] with the default [abs_tol = 0.0],
    in the order the library evaluates it: equal values are close; otherwise
    the distance is compared with the tolerance scaled by [b], then by [a],
    then with the absolute tolerance. *)
Definition isclose (a b rel_tol : Q) : bool :=
  if Qeq_bool a b then true
  else
    let diff := Qabs (b - a) in
    Qle_bool diff (Qabs (rel_tol * b))
    || Qle_bool diff (Qabs (rel_tol * a))
    || Qle_bool diff 0.

(** [math.isclose] on Python numbers ([None] when an argument is not one;
    the caller tests the types first). *)
Definition isclose_val (a b : value) : bool :=
  match number a, number b with
  | Some x, Some y => isclose x y rel_tol
  | _, _ => false
  end.

(** The two-branch test of one field: the value of [row_match] after it. *)
Definition field_match (exp_val act_val : value) (row_match : bool) : bool :=
  if is_float exp_val && is_int_or_float act_val then
    if negb (isclose_val act_val exp_val) then false else row_match
  else if py_ne act_val exp_val then false
  else row_match.

(** What [compare_results] prints. *)
Inductive line :=
  | Header (query_num : nat)
  | LengthMismatch (expected actual : nat)
  | Mismatch (row : nat) (key : string) (exp_val act_val : value)
  | PASS
  | FAIL.

(** [act_row.get(key)] *)
Definition get (act_row : gmap string value) (key : string) : value :=
  default VNone (act_row !! key).

(** The loop over [exp_row.items()] for row [i]; a mismatch prints, clears
    [all_match] and leaves the loop. *)
Fixpoint fields_loop (i : nat) (act_row : gmap string value)
    (items : list (string * value)) (row_match all_match : bool)
    (out : list line) : bool * list line :=
  match items with
  | [] => (all_match, out)
  | (key, exp_val) :: rest =>
      let act_val := get act_row key in
      let row_match := field_match exp_val act_val row_match in
      if negb row_match then
        (false, out ++ [Mismatch i key exp_val act_val])
      else fields_loop i act_row rest row_match all_match out
  end.

(** The loop over [enumerate(zip(actual, expected))]. *)
Fixpoint rows_loop (i : nat) (actual : list (gmap string value))
    (expected : list (list (string * value))) (all_match : bool)
    (out : list line) : bool * list line :=
  match actual, expected with
  | act_row :: actual', exp_row :: expected' =>
      let '(all_match, out) :=
        fields_loop i act_row exp_row true all_match out in
      rows_loop (S i) actual' expected' all_match out
  | _, _ => (all_match, out)
  end.

(** [compare_results]: the value returned ([Some false] for [False], [None]
    for falling off the end) and the lines printed. *)
Definition compare_results (query_num : nat)
    (actual : list (gmap string value))
    (expected : list (list (string * value)))
  : option bool * list line :=
  let out := [Header query_num] in
  if negb (length actual =? length expected)%nat then
    (Some false, out ++ [LengthMismatch (length expected) (length actual)])
  else
    let '(all_match, out) := rows_loop 0 actual expected true out in
    (None, out ++ [if all_match then PASS else FAIL]).

End Validator.

(** ** The tabular input ([pandas]) *)

Module Frame.

(** A parsed cell that is present.  A missing cell ([NaN]) is [None] at the
    type [option scalar]. *)
Inductive scalar :=
  | SInt (n : Z)
  | SFloat (x : Q)
  | SStr (s : string).

(** A data frame with cells of type [C]: the header and the rows, each row
    indexed by column name (it is read only at columns of the header). *)
Record DataFrame (C : Type) := mkDataFrame {
  columns : list string;
  rows : list (string → C)
}.
Arguments mkDataFrame {C} _ _.
Arguments columns {C} _.
Arguments rows {C} _.

(** [df.fillna(0, inplace=True)] *)
Definition fillna (df : DataFrame (option scalar)) : DataFrame scalar :=
  mkDataFrame (columns df)
    (map (λ row col, default (SInt 0) (row col)) (rows df)).

(** [len(df)] *)
Definition len {C} (df : DataFrame C) : nat := length (rows df).

End Frame.

(** ** The property graph held by the store *)

Module Graph.

(** Property values: the import statement writes integers and text. *)
Inductive pvalue :=
  | PInt (n : Z)
  | PStr (s : string).

#[global] Instance pvalue_eq_dec : EqDecision pvalue.
Proof. solve_decision. Defined.

Record node := Node {
  label : string;
  props : gmap string pvalue
}.

(** A relationship: source node, type, target node.  A node is identified by
    its position in [nodes]. *)
Definition rel : Type := nat * string * nat.

Record graph := Graph {
  nodes : list node;
  rels : list rel
}.

Definition empty : graph := Graph [] [].

(** Does node [n] carry label [lbl] and every property of [pat]? *)
Definition matches (lbl : string) (pat : list (string * pvalue)) (n : node)
  : bool :=
  bool_decide (label n = lbl)
  && forallb (λ kv, bool_decide (props n !! kv.1 = Some kv.2)) pat.

Fixpoint find_from (lbl : string) (pat : list (string * pvalue)) (i : nat)
    (ns : list node) : list nat :=
  match ns with
  | [] => []
  | n :: ns' =>
      if matches lbl pat n then i :: find_from lbl pat (S i) ns'
      else find_from lbl pat (S i) ns'
  end.

(** The nodes matching [(:lbl {pat})], in storage order. *)
Definition find_nodes (g : graph) (lbl : string)
    (pat : list (string * pvalue)) : list nat :=
  find_from lbl pat 0 (nodes g).

(** [MERGE (x:lbl {pat})]: every matching node, or else one new node. *)
Definition merge_node (g : graph) (lbl : string)
    (pat : list (string * pvalue)) : graph * list nat :=
  match find_nodes g lbl pat with
  | [] => (Graph (nodes g ++ [Node lbl (list_to_map pat)]) (rels g),
           [length (nodes g)])
  | ids => (g, ids)
  end.

(** [MERGE (a)-[:type]->(b)] with both ends bound: the number of matching
    relationships, or else one new relationship. *)
Definition merge_rel (g : graph) (a : nat) (type : string) (b : nat)
  : graph * nat :=
  let k := length (filter (λ e, e = (a, type, b)) (rels g)) in
  if (k =? 0)%nat then (Graph (nodes g) (rels g ++ [(a, type, b)]), 1%nat)
  else (g, k).

(** [SET n.key = v]; setting a property to null removes it. *)
Definition set_prop (key : string) (v : option pvalue)
    (m : gmap string pvalue) : gmap string pvalue :=
  match v with
  | Some x => <[key := x]> m
  | None => delete key m
  end.

Definition set_all (assign : list (string * option pvalue))
    (m : gmap string pvalue) : gmap string pvalue :=
  foldl (λ m kv, set_prop kv.1 kv.2 m) m assign.

Definition set_node (assign : list (string * option pvalue)) (n : node)
  : node :=
  Node (label n) (set_all assign (props n)).

Definition set_props (g : graph) (i : nat)
    (assign : list (string * option pvalue)) : graph :=
  Graph (alter (set_node assign) i (nodes g)) (rels g).

End Graph.

(** ** What the runtime contributes

    Three functions of the Python and Neo4j runtime enter the programs only
    through their results: the text [str] gives a float, the number the
    store reads in a string handed to [toInteger], and the rows a read-only
    catalog query returns on a given graph. *)
Record runtime := Runtime {
  float_str : Q → string;
  parse_number : string → option Q;
  run_read : Graph.graph → nat → list (gmap string Validator.value)
}.

(** ** Records and the import statement ([create_kg.py]) *)

Module Upsert.
Import Frame Graph.

(** The dictionary [row_data] built for one row. *)
Record row_data := RowData {
  origin_station_code : string;
  destination_station_code : string;
  flight_number : string;
  fleet_type_description : string;
  record_locator : string;
  loyalty_program_level : string;
  generation : string;
  feedback_ID : string;
  food_satisfaction_score : scalar;
  arrival_delay_minutes : scalar;
  actual_flown_miles : scalar;
  number_of_legs : scalar;
  passenger_class : string
}.

(** The integer part of a rational, toward zero. *)
Definition truncate (x : Q) : Z := Z.quot (Qnum x) (Zpos (Qden x)).

Section WithRuntime.
Context (rt : runtime).

(** [str(c)] *)
Definition str (c : scalar) : string :=
  match c with
  | SInt n => pretty n
  | SFloat x => float_str rt x
  | SStr s => s
  end.

(** The dictionary literal of the loop body. *)
Definition make_row_data (row : string → scalar) : row_data :=
  {| origin_station_code := str (row "origin_station_code");
     destination_station_code := str (row "destination_station_code");
     flight_number := str (row "flight_number");
     fleet_type_description := str (row "fleet_type_description");
     record_locator := str (row "record_locator");
     loyalty_program_level := str (row "loyalty_program_level");
     generation := str (row "generation");
     feedback_ID := str (row "feedback_ID");
     food_satisfaction_score := row "food_satisfaction_score";
     arrival_delay_minutes := row "arrival_delay_minutes";
     actual_flown_miles := row "actual_flown_miles";
     number_of_legs := row "number_of_legs";
     passenger_class := str (row "passenger_class") |}.

(** Cypher's [toInteger]: an integer is kept, a float loses its fraction, a
    string is read as a number and then loses its fraction, and is null when
    it is not a number.  Integers of the store are taken unbounded. *)
Definition toInteger (c : scalar) : option Z :=
  match c with
  | SInt n => Some n
  | SFloat x => Some (truncate x)
  | SStr s => truncate <$> parse_number rt s
  end.

(** The clauses that follow [UNWIND $batch AS row]. *)
Inductive clause :=
  | MergeNode (var lbl : string) (pat : row_data → list (string * pvalue))
  | MergeRel (src type dst : string)
  | SetProps (var : string)
      (assign : row_data → list (string * option pvalue)).

(** One record of the binding table: the unwound row and the nodes bound to
    the variables so far. *)
Definition env : Type := row_data * gmap string nat.

(** A clause on one record: the graph after it and the records it yields.
    [MergeRel] and [SetProps] on an unbound variable yield nothing; the
    import statement binds every variable before it uses it. *)
Definition exec_on (c : clause) (g : graph) (e : env) : graph * list env :=
  match c with
  | MergeNode x lbl pat =>
      let '(g', ids) := merge_node g lbl (pat e.1) in
      (g', map (λ i, (e.1, <[x := i]> e.2)) ids)
  | MergeRel s type d =>
      match e.2 !! s, e.2 !! d with
      | Some a, Some b =>
          let '(g', k) := merge_rel g a type b in (g', replicate k e)
      | _, _ => (g, [])
      end
  | SetProps x assign =>
      match e.2 !! x with
      | Some i => (set_props g i (assign e.1), [e])
      | None => (g, [])
      end
  end.

(** A clause on the next record of the table: the graph is updated and the
    records yielded are added to those yielded so far. *)
Definition clause_step (c : clause) (acc : graph * list env) (e : env)
  : graph * list env :=
  let '(g', es) := exec_on c acc.1 e in (g', acc.2 ++ es).

(** A clause on the whole table, record after record. *)
Definition exec_clause (c : clause) (st : graph * list env)
  : graph * list env :=
  foldl (clause_step c) (st.1, []) st.2.

(** [UNWIND $batch AS row] followed by the clauses, each on the table the
    previous one left. *)
Definition exec_query (q : list clause) (g : graph) (batch : list row_data)
  : graph :=
  (foldl (λ st c, exec_clause c st) (g, (λ r, (r, ∅)) <$> batch) q).1.

(** The property maps and assignments written in [import_query]. *)
Definition origin_pat (row : row_data) : list (string * pvalue) :=
  [("station_code", PStr (origin_station_code row))].

Definition dest_pat (row : row_data) : list (string * pvalue) :=
  [("station_code", PStr (destination_station_code row))].

Definition flight_pat (row : row_data) : list (string * pvalue) :=
  [("flight_number", PStr (flight_number row));
   ("fleet_type_description", PStr (fleet_type_description row))].

Definition passenger_pat (row : row_data) : list (string * pvalue) :=
  [("record_locator", PStr (record_locator row))].

Definition passenger_set (row : row_data) : list (string * option pvalue) :=
  [("loyalty_program_level", Some (PStr (loyalty_program_level row)));
   ("generation", Some (PStr (generation row)))].

Definition journey_pat (row : row_data) : list (string * pvalue) :=
  [("feedback_ID", PStr (feedback_ID row))].

Definition journey_set (row : row_data) : list (string * option pvalue) :=
  [("food_satisfaction_score",
      PInt <$> toInteger (food_satisfaction_score row));
   ("arrival_delay_minutes", PInt <$> toInteger (arrival_delay_minutes row));
   ("actual_flown_miles", PInt <$> toInteger (actual_flown_miles row));
   ("number_of_legs", PInt <$> toInteger (number_of_legs row));
   ("passenger_class", Some (PStr (passenger_class row)))].

(** [import_query] *)
Definition import_query : list clause := [
  MergeNode "origin" "Airport" origin_pat;
  MergeNode "dest" "Airport" dest_pat;
  MergeNode "f" "Flight" flight_pat;
  MergeRel "f" "DEPARTS_FROM" "origin";
  MergeRel "f" "ARRIVES_AT" "dest";
  MergeNode "p" "Passenger" passenger_pat;
  SetProps "p" passenger_set;
  MergeNode "j" "Journey" journey_pat;
  SetProps "j" journey_set;
  MergeRel "p" "TOOK" "j";
  MergeRel "j" "ON" "f"
].

End WithRuntime.
End Upsert.

(** ** The store behind the driver *)

Module Store.
Import Graph Upsert.

(** The statements the two programs send with [session.run]. *)
Inductive statement :=
  | DetachDeleteAll
  | CreateConstraint (name lbl prop : string)
  | CreateIndex (name lbl : string) (props : list string)
  | ImportBatch (batch : list row_data)
  | CatalogQuery (q_num : nat).

(** A declared constraint or index: label, properties, uniqueness. *)
Definition decl : Type := string * list string * bool.

Record store := mkStore {
  graph_of : graph;
  schema : gmap string decl
}.

(** [IF NOT EXISTS]: a name already declared is left as it is. *)
Definition declare (name : string) (d : decl) (s : gmap string decl)
  : gmap string decl :=
  match s !! name with
  | Some _ => s
  | None => <[name := d]> s
  end.

(** The store is taken to be reachable and to accept every statement; each
    [session.run] is one auto-commit transaction. *)
Definition run_statement (rt : runtime) (s : statement) (st : store)
  : store * list (gmap string Validator.value) :=
  match s with
  | DetachDeleteAll => (mkStore Graph.empty (schema st), [])
  | CreateConstraint name lbl prop =>
      (mkStore (graph_of st) (declare name (lbl, [prop], true) (schema st)),
       [])
  | CreateIndex name lbl props =>
      (mkStore (graph_of st) (declare name (lbl, props, false) (schema st)),
       [])
  | ImportBatch batch =>
      (mkStore (exec_query (import_query rt) (graph_of st) batch) (schema st),
       [])
  | CatalogQuery q_num => (st, run_read rt (graph_of st) q_num)
  end.

End Store.

(** ** Programs: a trace of events and the store, with exceptions *)

Module Prog.
Import Store.

(** The lines the programs print; [Say] is a fixed text, [Validation] a line
    of [compare_results]. *)
Inductive printed :=
  | Say (text : string)
  | ConfigNotFound (file_path : string)
  | CsvNotFound (csv_path : string)
  | Reading (csv_path : string)
  | MissingColumns (missing : list string)
  | AvailableColumns (cols : list string)
  | Found (total_rows : nat)
  | Processed (done total_rows : nat)
  | ErrorOccurred (e : exn)
  | Validation (l : Validator.line).

Inductive event :=
  | Print (l : printed)
  | OpenDriver (uri user password : string)
  | OpenSession
  | Run (s : statement)
  | CloseSession
  | CloseDriver.

Record world := World {
  the_store : store;
  trace : list event
}.

Definition M (A : Type) : Type := world → res A * world.

#[global] Instance M_ret : MRet M := λ A a w, (Ok a, w).

#[global] Instance M_bind : MBind M := λ A B f m w,
  match m w with
  | (Ok a, w') => f a w'
  | (Raise e, w') => (Raise e, w')
  end.

Definition raise {A} (e : exn) : M A := λ w, (Raise e, w).

Definition emit (ev : event) : M unit := λ w,
  (Ok (), World (the_store w) (trace w ++ [ev])).

Definition print (l : printed) : M unit := emit (Print l).

(** [try: body except Exception as e: handler(e)] *)
Definition try_except {A} (body : M A) (handler : exn → M A) : M A := λ w,
  match body w with
  | (Ok a, w') => (Ok a, w')
  | (Raise e, w') => handler e w'
  end.

(** [with driver.session() as session: body]; the session is closed on
    every way out. *)
Definition with_session {A} (body : M A) : M A := λ w,
  let '(r, w') := body (World (the_store w) (trace w ++ [OpenSession])) in
  (r, World (the_store w') (trace w' ++ [CloseSession])).

(** [session.run(s)] *)
Definition run (rt : runtime) (s : statement)
  : M (list (gmap string Validator.value)) := λ w,
  let '(st, result) := run_statement rt s (the_store w) in
  (Ok result, World st (trace w ++ [Run s])).

(** [config[key]] *)
Definition getitem (config : gmap string string) (key : string) : M string :=
  match config !! key with
  | Some v => mret v
  | None => raise (KeyError key)
  end.

(** The files the programs read: text files by lines, and the frame
    [pd.read_csv] makes of a file that exists. *)
Record files := Files {
  text_files : gmap string (list string);
  csv_files : gmap string (Frame.DataFrame (option Frame.scalar))
}.

(** [load_config(file_path)] *)
Definition load_config (fs : files) (file_path : string)
  : M (option (gmap string string)) :=
  match text_files fs !! file_path with
  | Some lines =>
      match Config.load_lines ∅ lines with
      | Ok config => mret (Some config)
      | Raise e => raise e
      end
  | None => print (ConfigNotFound file_path);; mret None
  end.

End Prog.

(** ** The build program ([create_kg.py]) *)

Module CreateKg.
Import Frame Upsert Store Prog.

Section WithRuntime.
Context (rt : runtime) (fs : files).

(** [AirlineGraphBuilder.__init__] *)
Definition AirlineGraphBuilder (uri user password : string) : M unit :=
  emit (OpenDriver uri user password).

Definition close : M unit := emit CloseDriver.

Definition clear_database : M unit :=
  print (Say "Clearing existing database...");;
  with_session (run rt DetachDeleteAll);;
  print (Say "Database cleared.").

Definition create_constraints : M unit :=
  print (Say "Creating constraints...");;
  with_session (
    run rt (CreateConstraint "passenger_id" "Passenger" "record_locator");;
    run rt (CreateConstraint "journey_id" "Journey" "feedback_ID");;
    run rt (CreateConstraint "airport_id" "Airport" "station_code");;
    run rt (CreateIndex "flight_idx" "Flight"
              ["flight_number"; "fleet_type_description"]);;
    mret ()).

Definition required_cols : list string := [
  "origin_station_code"; "destination_station_code"; "flight_number";
  "fleet_type_description"; "record_locator"; "loyalty_program_level";
  "generation"; "food_satisfaction_score"; "arrival_delay_minutes";
  "actual_flown_miles"; "number_of_legs"; "passenger_class"; "feedback_ID"
].

Definition batch_size : nat := 500.

(** The [for index, row in df.iterrows()] loop; its value is the batch left
    when the rows are exhausted. *)
Fixpoint import_loop (total_rows index : nat) (rows : list (string → scalar))
    (batch : list row_data) : M (list row_data) :=
  match rows with
  | [] => mret batch
  | row :: rest =>
      let row_data := make_row_data rt row in
      let batch := batch ++ [row_data] in
      if (batch_size <=? length batch)%nat then
        run rt (ImportBatch batch);;
        print (Processed (index + 1) total_rows);;
        import_loop total_rows (S index) rest []
      else import_loop total_rows (S index) rest batch
  end.

Definition load_csv_data (csv_path : string) : M unit :=
  match csv_files fs !! csv_path with
  | None => print (CsvNotFound csv_path)
  | Some df =>
      print (Reading csv_path);;
      let missing :=
        filter (λ col, col ∉ columns df) required_cols in
      if negb (bool_decide (missing = [])) then
        print (MissingColumns missing);;
        print (AvailableColumns (columns df))
      else
        let df := fillna df in
        let total_rows := len df in
        print (Found total_rows);;
        with_session (
          batch ← import_loop total_rows 0 (rows df) [];
          if negb (bool_decide (batch = [])) then
            run rt (ImportBatch batch);;
            print (Processed total_rows total_rows)
          else mret ())
  end.

(** The body under [if __name__ == "__main__"]. *)
Definition main : M unit :=
  config ← load_config fs "config.txt";
  if Config.truthy config then
    let config := default ∅ config in
    try_except (
      uri ← getitem config "URI";
      user ← getitem config "USERNAME";
      password ← getitem config "PASSWORD";
      AirlineGraphBuilder uri user password;;
      clear_database;;
      create_constraints;;
      load_csv_data "Airline_surveys_sample.csv";;
      close;;
      print (Say "Knowledge Graph created successfully!"))
      (λ e, print (ErrorOccurred e))
  else mret ().

End WithRuntime.
End CreateKg.

(** ** The verification program ([validate_queries.py]) *)

Module ValidateQueries.
Import Validator Store Prog.

(** [EXPECTED_RESULTS[q_num]]; a float literal is the decimal it is written
    as. *)
Definition EXPECTED_RESULTS (q_num : nat) : list (list (string * value)) :=
  match q_num with
  | 1 =>
    [
      [("origin", VStr "LAX"); ("destination", VStr "IAX"); ("flight_count", VInt 21)];
      [("origin", VStr "LAX"); ("destination", VStr "EWX"); ("flight_count", VInt 17)];
      [("origin", VStr "IAX"); ("destination", VStr "LAX"); ("flight_count", VInt 17)];
      [("origin", VStr "SAX"); ("destination", VStr "IAX"); ("flight_count", VInt 15)];
      [("origin", VStr "IAX"); ("destination", VStr "EWX"); ("flight_count", VInt 14)]
    ]
  | 2 =>
    [
      [("flight_id", VInt 42); ("feedback_count", VInt 14)];
      [("flight_id", VInt 19); ("feedback_count", VInt 13)];
      [("flight_id", VInt 86); ("feedback_count", VInt 12)];
      [("flight_id", VInt 27); ("feedback_count", VInt 12)];
      [("flight_id", VInt 966); ("feedback_count", VInt 12)];
      [("flight_id", VInt 57); ("feedback_count", VInt 11)];
      [("flight_id", VInt 1686); ("feedback_count", VInt 11)];
      [("flight_id", VInt 219); ("feedback_count", VInt 11)];
      [("flight_id", VInt 819); ("feedback_count", VInt 9)];
      [("flight_id", VInt 991); ("feedback_count", VInt 9)]
    ]
  | 3 =>
    [
      [("generation", VStr "Boomer"); ("multi_leg_count", VInt 498); ("avg_score", VFloat (27911646586345387 # 10000000000000000))];
      [("generation", VStr "Gen X"); ("multi_leg_count", VInt 285); ("avg_score", VFloat (2999999999999999 # 1000000000000000))];
      [("generation", VStr "Millennial"); ("multi_leg_count", VInt 130); ("avg_score", VFloat (2738461538461538 # 1000000000000000))];
      [("generation", VStr "Silent"); ("multi_leg_count", VInt 48); ("avg_score", VFloat (26874999999999996 # 10000000000000000))];
      [("generation", VStr "Gen Z"); ("multi_leg_count", VInt 18); ("avg_score", VFloat (32777777777777777 # 10000000000000000))]
    ]
  | 4 =>
    [
      [("flight_id", VInt 2442); ("avg_arrival_delay", VFloat ((-990) # 10))];
      [("flight_id", VInt 274); ("avg_arrival_delay", VFloat ((-600) # 10))];
      [("flight_id", VInt 425); ("avg_arrival_delay", VFloat ((-590) # 10))];
      [("flight_id", VInt 982); ("avg_arrival_delay", VFloat ((-460) # 10))];
      [("flight_id", VInt 120); ("avg_arrival_delay", VFloat ((-450) # 10))];
      [("flight_id", VInt 1237); ("avg_arrival_delay", VFloat ((-440) # 10))];
      [("flight_id", VInt 894); ("avg_arrival_delay", VFloat ((-425) # 10))];
      [("flight_id", VInt 3546); ("avg_arrival_delay", VFloat ((-420) # 10))];
      [("flight_id", VInt 942); ("avg_arrival_delay", VFloat ((-41333333333333336) # 1000000000000000))];
      [("flight_id", VInt 828); ("avg_arrival_delay", VFloat ((-410) # 10))]
    ]
  | 5 =>
    [
      [("loyalty_level", VStr "global services"); ("avg_actual_flown_miles", VFloat (2648083333333333 # 1000000000000))];
      [("loyalty_level", VStr "premier gold"); ("avg_actual_flown_miles", VFloat (2461018518518519 # 1000000000000))];
      [("loyalty_level", VStr "premier platinum"); ("avg_actual_flown_miles", VFloat (24205714285714294 # 10000000000000))];
      [("loyalty_level", VStr "non-elite"); ("avg_actual_flown_miles", VFloat (2254072 # 1000))];
      [("loyalty_level", VStr "premier silver"); ("avg_actual_flown_miles", VFloat (2068673529411763 # 1000000000000))];
      [("loyalty_level", VStr "NBK"); ("avg_actual_flown_miles", VFloat (19890 # 10))];
      [("loyalty_level", VStr "premier 1k"); ("avg_actual_flown_miles", VFloat (18976666666666672 # 10000000000000))]
    ]
  | _ => []
  end.

Section WithRuntime.
Context (rt : runtime) (fs : files).

Definition print_all (ls : list line) : M unit :=
  foldr (λ l k, print (Validation l);; k) (mret ()) ls.

(** The body of [for q_num in range(1, 6)]. *)
Definition validate_one (q_num : nat) : M unit :=
  actual_data ← run rt (CatalogQuery q_num);
  print_all (compare_results q_num actual_data (EXPECTED_RESULTS q_num)).2.

Definition run_validation : M unit :=
  config ← load_config fs "config.txt";
  if negb (Config.truthy config) then mret ()
  else
    let config := default ∅ config in
    uri ← getitem config "URI";
    user ← getitem config "USERNAME";
    password ← getitem config "PASSWORD";
    emit (OpenDriver uri user password);;
    with_session (
      foldr (λ q_num k, validate_one q_num;; k) (mret ()) (seq 1 5));;
    emit CloseDriver.

End WithRuntime.
End ValidateQueries.

(** * Reference notions used in the statements *)

Module ValidatorSpec.
Import Validator.

(** The Python type of a scalar. *)
Inductive pytype := TNone | TBool | TInt | TFloat | TStr.

Definition type_of (v : value) : pytype :=
  match v with
  | VNone => TNone
  | VBool _ => TBool
  | VInt _ => TInt
  | VFloat _ => TFloat
  | VStr _ => TStr
  end.

(** Equality of scalars as values: [None] with [None], a string with the
    same string, a number with a number of the same value. *)
Inductive same_value : value → value → Prop :=
  | same_none : same_value VNone VNone
  | same_str s : same_value (VStr s) (VStr s)
  | same_number e a x y :
      number e = Some x → number a = Some y → (x == y)%Q → same_value e a.

(** Does the field [kv] of an expected row agree with [act_row]? *)
Definition field_ok (act_row : gmap string value) (kv : string * value)
  : bool :=
  field_match kv.2 (get act_row kv.1) true.

(** The first field of [exp_row], in its order, that disagrees. *)
Definition first_mismatch (i : nat) (act_row : gmap string value)
    (exp_row : list (string * value)) : option line :=
  (λ kv, Mismatch i kv.1 kv.2 (get act_row kv.1))
    <$> List.find (λ kv, negb (field_ok act_row kv)) exp_row.

(** One line per row that disagrees somewhere, rows counted from [i]. *)
Fixpoint reported (i : nat) (actual : list (gmap string value))
    (expected : list (list (string * value))) : list line :=
  match actual, expected with
  | act_row :: actual', exp_row :: expected' =>
      option_list (first_mismatch i act_row exp_row)
      ++ reported (S i) actual' expected'
  | _, _ => []
  end.

(** Every row agrees on every expected field. *)
Definition all_fields_match (actual : list (gmap string value))
    (expected : list (list (string * value))) : Prop :=
  Forall2
    (λ act_row exp_row, Forall (λ kv, field_ok act_row kv = true) exp_row)
    actual expected.

End ValidatorSpec.

Module TraceSpec.
Import Upsert Store Prog.

(** The statements sent to the store, in order. *)
Definition statements (tr : list event) : list statement :=
  omap (λ ev, match ev with Run s => Some s | _ => None end) tr.

(** The store after the import transactions [bs], one after the other. *)
Definition import_batches (rt : runtime) (st : store)
    (bs : list (list row_data)) : store :=
  foldl (λ st b, (run_statement rt (ImportBatch b) st).1) st bs.


End TraceSpec.

Module BuildSpec.
Import Store Prog.

(** The schema after the four declarations of [create_constraints]. *)
Definition declared (s : gmap string decl) : gmap string decl :=
  declare "flight_idx"
    ("Flight", ["flight_number"; "fleet_type_description"], false)
    (declare "airport_id" ("Airport", ["station_code"], true)
       (declare "journey_id" ("Journey", ["feedback_ID"], true)
          (declare "passenger_id" ("Passenger", ["record_locator"], true)
             s))).

(** What the build program does between reading a usable configuration and
    calling the loader. *)
Definition prelude (uri user password : string) : list event := [
  OpenDriver uri user password;
  Print (Say "Clearing existing database...");
  OpenSession;
  Run DetachDeleteAll;
  CloseSession;
  Print (Say "Database cleared.");
  Print (Say "Creating constraints...");
  OpenSession;
  Run (CreateConstraint "passenger_id" "Passenger" "record_locator");
  Run (CreateConstraint "journey_id" "Journey" "feedback_ID");
  Run (CreateConstraint "airport_id" "Airport" "station_code");
  Run (CreateIndex "flight_idx" "Flight"
         ["flight_number"; "fleet_type_description"]);
  CloseSession
].

(** What it does after the loader returns. *)
Definition epilogue : list event := [
  CloseDriver;
  Print (Say "Knowledge Graph created successfully!")
].

(** A configuration file from which [load_config] reads the three keys the
    programs use. *)
Definition usable_config (fs : files) (uri user password : string) : Prop :=
  ∃ lines config,
    text_files fs !! "config.txt" = Some lines
    ∧ Config.load_lines ∅ lines = Ok config
    ∧ config !! "URI" = Some uri
    ∧ config !! "USERNAME" = Some user
    ∧ config !! "PASSWORD" = Some password.

(** Number of transactions needed for [n] records, [size] at a time. *)
Definition transactions_for (n size : nat) : nat := (n + size - 1) / size.

End BuildSpec.

Module Samples.
Import Frame Graph Store Prog.

Definition nl : string := String "010"%char "".

Definition sample_runtime : runtime :=
  Runtime (λ _, "0.0") (λ _, None) (λ _ _, []).

Definition sample_config : list string := [
  "URI=bolt://localhost:7687" +:+ nl;
  "USERNAME=neo4j" +:+ nl;
  "PASSWORD=a=b" +:+ nl
].

(** A header without [feedback_ID]. *)
Definition short_header : list string := [
  "origin_station_code"; "destination_station_code"; "flight_number";
  "fleet_type_description"; "record_locator"; "loyalty_program_level";
  "generation"; "food_satisfaction_score"; "arrival_delay_minutes";
  "actual_flown_miles"; "number_of_legs"; "passenger_class"
].

Definition sample_row (feedback : string) (score : option scalar)
  : string → option scalar :=
  λ col,
    if bool_decide (col = "feedback_ID") then Some (SStr feedback)
    else if bool_decide (col = "food_satisfaction_score") then score
    else if bool_decide (col = "flight_number") then Some (SInt 42)
    else if bool_decide (col = "number_of_legs") then Some (SInt 2)
    else if bool_decide (col = "arrival_delay_minutes") then None
    else if bool_decide (col = "actual_flown_miles") then Some (SInt 1200)
    else Some (SStr col).

Definition sample_frame : DataFrame (option scalar) :=
  mkDataFrame (short_header ++ ["feedback_ID"])
    [sample_row "F1" (Some (SFloat (37 # 10)));
     sample_row "F2" (Some (SInt 4));
     sample_row "F1" (Some (SFloat (-(37 # 10))))].

Definition short_frame : DataFrame (option scalar) :=
  mkDataFrame short_header [].


Definition files_without_csv : files :=
  Files {[ "config.txt" := sample_config ]} ∅.

Definition files_with_short_csv : files :=
  Files {[ "config.txt" := sample_config ]}
        {[ "Airline_surveys_sample.csv" := short_frame ]}.

Definition files_with_csv : files :=
  Files {[ "config.txt" := sample_config ]}
        {[ "Airline_surveys_sample.csv" := sample_frame ]}.

(** The same input with a configuration that asks for batches of one. *)
Definition files_asking_batches_of_one : files :=
  Files {[ "config.txt" := sample_config ++ ["BATCH_SIZE=1" +:+ nl] ]}
        {[ "Airline_surveys_sample.csv" := sample_frame ]}.

(** The records of [sample_frame], and the same in two batches. *)
Definition sample_records : list Upsert.row_data :=
  map (Upsert.make_row_data sample_runtime) (rows (fillna sample_frame)).

Definition sample_batches : list (list Upsert.row_data) :=
  [take 2 sample_records; drop 2 sample_records].

(** A store that already holds one airport. *)
Definition used_world : world :=
  World (mkStore (Graph [Node "Airport" {[ "station_code" := PStr "LAX" ]}] [])
                 ∅)
        [].

End Samples.

Module LoadSpec.
Import Graph Upsert.

(** The graph after the import statement has run on each batch in turn. *)
Definition import_graph (rt : runtime) (g : graph)
    (bs : list (list row_data)) : graph :=
  foldl (λ g b, exec_query (import_query rt) g b) g bs.

(** The properties by which the import statement merges nodes of a label. *)
Definition schema_keys (lbl : string) : list string :=
  if bool_decide (lbl = "Airport") then ["station_code"]
  else if bool_decide (lbl = "Flight") then
    ["flight_number"; "fleet_type_description"]
  else if bool_decide (lbl = "Passenger") then ["record_locator"]
  else if bool_decide (lbl = "Journey") then ["feedback_ID"]
  else [].

(** An identity key: a label and the values of its key properties. *)
Definition key : Type := string * list (option pvalue).

Definition node_key (n : node) : key :=
  (label n, (λ k, props n !! k) <$> schema_keys (label n)).

Definition keys (g : graph) : list key := node_key <$> nodes g.

(** The key a node must have to match [(:lbl {pat})]. *)
Definition pattern_key (lbl : string) (pat : list (string * pvalue)) : key :=
  (lbl, Some <$> pat.*2).

Definition origin_key (r : row_data) : key :=
  pattern_key "Airport" (origin_pat r).
Definition dest_key (r : row_data) : key :=
  pattern_key "Airport" (dest_pat r).
Definition flight_key (r : row_data) : key :=
  pattern_key "Flight" (flight_pat r).
Definition passenger_key (r : row_data) : key :=
  pattern_key "Passenger" (passenger_pat r).
Definition journey_key (r : row_data) : key :=
  pattern_key "Journey" (journey_pat r).

(** Position of the first occurrence of [K] ([length ks] when absent). *)
Fixpoint index_of (K : key) (ks : list key) : nat :=
  match ks with
  | [] => 0
  | k :: ks' => if decide (k = K) then 0 else S (index_of K ks')
  end.

(** The last record of [rows] whose key is that of node [n], if any. *)
Definition last_writer (K : row_data → key) (rows : list row_data) (n : node)
  : option row_data :=
  last (filter (λ r, K r = node_key n) rows).

(** Node [n] after the assignment of its last writer. *)
Definition apply_last (K : row_data → key)
    (assign : row_data → list (string * option pvalue))
    (rows : list row_data) (n : node) : node :=
  match last_writer K rows n with
  | Some r => set_node (assign r) n
  | None => n
  end.

(** Node [n] after the passenger and journey assignments of [rows]. *)
Definition overwrite (rt : runtime) (rows : list row_data) (n : node) : node :=
  apply_last journey_key (journey_set rt) rows
    (apply_last passenger_key passenger_set rows n).

(** An assignment of attributes: every record assigns the same properties,
    none of them a key property. *)
Definition attribute_set (a : row_data → list (string * option pvalue))
  : Prop :=
  (∀ r r', (a r).*1 = (a r').*1)
  ∧ (∀ r lbl k, k ∈ schema_keys lbl → k ∉ (a r).*1).

(** The nodes the import statement creates for record [r] when they are
    missing. *)
Definition row_nodes (r : row_data) : list node := [
  Node "Airport" (list_to_map (origin_pat r));
  Node "Airport" (list_to_map (dest_pat r));
  Node "Flight" (list_to_map (flight_pat r));
  Node "Passenger" (list_to_map (passenger_pat r));
  Node "Journey" (list_to_map (journey_pat r))
].

(** Every node carries the attributes of its last writer in [rows]. *)
Definition settled (rt : runtime) (g : graph) (rows : list row_data) : Prop :=
  Forall (λ n, overwrite rt rows n = n) (nodes g).

(** Node [n] carries the passenger attributes of record [r]. *)
Definition passenger_has (n : node) (r : row_data) : Prop :=
  props n !! "loyalty_program_level" = Some (PStr (loyalty_program_level r))
  ∧ props n !! "generation" = Some (PStr (generation r)).

(** Node [n] carries the journey attributes of record [r]: the four numbers
    through [toInteger] (absent where that is null), the class as text. *)
Definition journey_has (rt : runtime) (n : node) (r : row_data) : Prop :=
  props n !! "food_satisfaction_score"
    = PInt <$> toInteger rt (food_satisfaction_score r)
  ∧ props n !! "arrival_delay_minutes"
    = PInt <$> toInteger rt (arrival_delay_minutes r)
  ∧ props n !! "actual_flown_miles"
    = PInt <$> toInteger rt (actual_flown_miles r)
  ∧ props n !! "number_of_legs" = PInt <$> toInteger rt (number_of_legs r)
  ∧ props n !! "passenger_class" = Some (PStr (passenger_class r)).

(** The last record of [rows] whose field [f] is [k]. *)
Definition last_with (f : row_data → string) (k : string)
    (rows : list row_data) : option row_data :=
  last (filter (λ r, f r = k) rows).


(** The five nodes and four relationships of record [r] are in the graph. *)
Definition absorbed (g : graph) (r : row_data) : Prop :=
  origin_key r ∈ keys g ∧ dest_key r ∈ keys g ∧ flight_key r ∈ keys g
  ∧ passenger_key r ∈ keys g ∧ journey_key r ∈ keys g
  ∧ (index_of (flight_key r) (keys g), "DEPARTS_FROM",
     index_of (origin_key r) (keys g)) ∈ rels g
  ∧ (index_of (flight_key r) (keys g), "ARRIVES_AT",
     index_of (dest_key r) (keys g)) ∈ rels g
  ∧ (index_of (passenger_key r) (keys g), "TOOK",
     index_of (journey_key r) (keys g)) ∈ rels g
  ∧ (index_of (journey_key r) (keys g), "ON",
     index_of (flight_key r) (keys g)) ∈ rels g.

(** No two nodes share a key and no relationship is stored twice. *)
Definition well_keyed (g : graph) : Prop :=
  NoDup (keys g) ∧ NoDup (rels g).

End LoadSpec.

(** ** Further reference notions *)

Module ConfigSpec.




End ConfigSpec.

Module ProgSpec.
Import Validator Store Prog.

(** The keys both programs read from the configuration, in the order they
    read them. *)
Definition credentials : list string := ["URI"; "USERNAME"; "PASSWORD"].

(** The first of them that [config] does not hold. *)
Definition first_missing (config : gmap string string) : option string :=
  List.find (λ key, bool_decide (config !! key = None)) credentials.

(** What validating query [q_num] adds to the trace on graph [g]. *)
Definition validation_events (rt : runtime) (g : Graph.graph) (q_num : nat)
  : list event :=
  Run (CatalogQuery q_num)
  :: ((λ l, Print (Validation l))
      <$> (compare_results q_num (run_read rt g q_num)
             (ValidateQueries.EXPECTED_RESULTS q_num)).2).

(** The [i]-th run of [size] elements of [l]. *)
Definition chunk {A} (size i : nat) (l : list A) : list A :=
  take size (drop (size * i) l).

(** The import of each full batch of [records], each followed by its
    progress line; [base] rows were sent before. *)
Definition loop_events (total_rows base : nat)
    (records : list Upsert.row_data) : list event :=
  flat_map
    (λ i, [Run (ImportBatch (chunk CreateKg.batch_size i records));
           Print (Processed (base + CreateKg.batch_size * (i + 1)) total_rows)])
    (seq 0 (length records / CreateKg.batch_size)).

(** What the loader adds to the trace for an input with every required
    column: the full batches, then the records left over if there are any,
    all in one session. *)
Definition loader_events (csv_path : string)
    (records : list Upsert.row_data) : list event :=
  let n := length records in
  let left := drop (CreateKg.batch_size * (n / CreateKg.batch_size)) records in
  [Print (Reading csv_path); Print (Found n); OpenSession]
  ++ loop_events n 0 records
  ++ (if (n mod CreateKg.batch_size =? 0)%nat then []
      else [Run (ImportBatch left); Print (Processed n n)])
  ++ [CloseSession].

End ProgSpec.

Module Cases.
Import Frame Prog Samples.

(** A configuration file that assigns nothing. *)
Definition files_with_blank_config : files :=
  Files {[ "config.txt" := ["# credentials go here" +:+ nl; nl] ]} ∅.

(** A configuration file without the password. *)
Definition files_without_password : files :=
  Files {[ "config.txt" := ["URI=bolt://localhost:7687" +:+ nl;
                            "USERNAME=neo4j" +:+ nl] ]} ∅.



End Cases.

Module GraphSpec.
Import Graph Upsert LoadSpec.

(** The identity keys record [r] asks for. *)
Definition row_keys (r : row_data) : list key :=
  [origin_key r; dest_key r; flight_key r; passenger_key r; journey_key r].

(** The relationships record [r] asks for, between identity keys. *)
Definition row_links (r : row_data) : list (key * string * key) :=
  [(flight_key r, "DEPARTS_FROM", origin_key r);
   (flight_key r, "ARRIVES_AT", dest_key r);
   (passenger_key r, "TOOK", journey_key r);
   (journey_key r, "ON", flight_key r)].

(** The same relationships between the positions the keys have in [ks]. *)
Definition row_rels (ks : list key) (r : row_data) : list rel :=
  (λ l : key * string * key,
     (index_of l.1.1 ks, l.1.2, index_of l.2 ks)) <$> row_links r.

(** A relationship of [g] read through the keys of its two ends ([None] if
    an end is not a node of [g]). *)
Definition link_of (g : graph) (e : rel) : option (key * string * key) :=
  ka ← keys g !! e.1.1; kb ← keys g !! e.2; Some (ka, e.1.2, kb).

Definition links (g : graph) : list (option (key * string * key)) :=
  link_of g <$> rels g.

(** The properties the import statement assigns. *)
Definition assigned_props : list string := [
  "loyalty_program_level"; "generation"; "food_satisfaction_score";
  "arrival_delay_minutes"; "actual_flown_miles"; "number_of_legs";
  "passenger_class"
].

(** Node [n'] is node [n] with at most its assigned properties changed. *)
Definition same_identity (n n' : node) : Prop :=
  label n' = label n
  ∧ ∀ k, k ∉ assigned_props → props n' !! k = props n !! k.

(** Graph [g'] holds the nodes of [g] at their positions, changed at most
    in assigned properties, and the relationships of [g] at theirs. *)
Definition grows (g g' : graph) : Prop :=
  ∃ ns fresh new,
    nodes g' = ns ++ fresh ∧ Forall2 same_identity (nodes g) ns
    ∧ rels g' = rels g ++ new.

(** A clause that assigns nothing but assigned properties. *)
Definition assigns_attributes (c : clause) : Prop :=
  match c with
  | SetProps _ assign => ∀ r, (assign r).*1 ⊆ assigned_props
  | _ => True
  end.

(** Every node and relationship of [g] is one that a record of [R] asks
    for, and every node is the node made for its key with the attributes of
    its last writer in [R]. *)
Definition sourced (rt : runtime) (g : graph) (R : list row_data) : Prop :=
  (∀ K, K ∈ keys g → ∃ r, r ∈ R ∧ K ∈ row_keys r)
  ∧ (∀ x, x ∈ rels g → ∃ r, r ∈ R ∧ x ∈ row_rels (keys g) r)
  ∧ (∀ n, n ∈ nodes g →
          ∃ r n0, r ∈ R ∧ n0 ∈ row_nodes r ∧ n = overwrite rt R n0).

(** The nodes record [r] leaves when it is the last to write its passenger
    and its journey. *)
Definition row_final_nodes (rt : runtime) (r : row_data) : list node := [
  Node "Airport" (list_to_map (origin_pat r));
  Node "Airport" (list_to_map (dest_pat r));
  Node "Flight" (list_to_map (flight_pat r));
  Node "Passenger" (set_all (passenger_set r) (list_to_map (passenger_pat r)));
  Node "Journey" (set_all (journey_set rt r) (list_to_map (journey_pat r)))
].

(** Records with the same record locator agree on the passenger's
    attributes, and records with the same feedback ID on the journey's. *)
Definition consistent (rt : runtime) (rows : list row_data) : Prop :=
  ∀ r1 r2, r1 ∈ rows → r2 ∈ rows →
    (record_locator r1 = record_locator r2 →
     passenger_set r1 = passenger_set r2)
    ∧ (feedback_ID r1 = feedback_ID r2 →
       journey_set rt r1 = journey_set rt r2).

(** The uniqueness constraints [create_constraints] declares: label and
    property. *)
Definition unique_constraints : list (string * string) := [
  ("Passenger", "record_locator");
  ("Journey", "feedback_ID");
  ("Airport", "station_code")
].

End GraphSpec.

(** * Properties *)

(** ** The definitions on small inputs *)

Module Checks.
Import Validator Graph Upsert Store Prog.

Example strip_line : PyStr.strip ("  URI=x " +:+ Samples.nl) = "URI=x".
Proof. reflexivity. Qed.

Example split_first_only : PyStr.split_eq1 "PASSWORD=a=b" = ["PASSWORD"; "a=b"].
Proof. reflexivity. Qed.

Example split_without_eq : PyStr.split_eq1 "abc" = ["abc"].
Proof. reflexivity. Qed.

Example sample_config_loaded :
  ∃ config, Config.load_lines ∅ Samples.sample_config = Ok config
    ∧ config !! "URI" = Some "bolt://localhost:7687"
    ∧ config !! "PASSWORD" = Some "a=b"
    ∧ size config = 3%nat.
Proof. eexists. split; [reflexivity|]. by vm_compute. Qed.

Example expected_rows_pass :
  (compare_results 3 (list_to_map <$> ValidateQueries.EXPECTED_RESULTS 3)
     (ValidateQueries.EXPECTED_RESULTS 3)).2
  = [Header 3; PASS].
Proof. by vm_compute. Qed.

Example shorter_result_fails :
  compare_results 1 [] (ValidateQueries.EXPECTED_RESULTS 1)
  = (Some false, [Header 1; LengthMismatch 5 0]).
Proof. reflexivity. Qed.

Example integer_for_float_accepted :
  field_match (VFloat ((-990) # 10)) (VInt (-99)) true = true.
Proof. reflexivity. Qed.

Example truncate_examples :
  truncate (37 # 10) = 3%Z ∧ truncate (- (37 # 10)) = (-3)%Z
  ∧ truncate (5 # 2) = 2%Z ∧ truncate (- (1 # 2)) = 0%Z.
Proof. by repeat split. Qed.

(** The sample input: three rows, two of them with the same [feedback_ID];
    the store held an airport before. *)
Example sample_build :
  let w := (CreateKg.main Samples.sample_runtime Samples.files_with_csv
              Samples.used_world).2 in
  let g := graph_of (the_store w) in
  label <$> nodes g
  = ["Airport"; "Airport"; "Flight"; "Passenger"; "Journey"; "Journey"]
  ∧ rels g
    = [(2, "DEPARTS_FROM", 0); (2, "ARRIVES_AT", 1); (3, "TOOK", 4);
       (3, "TOOK", 5); (4, "ON", 2); (5, "ON", 2)]%nat
  ∧ (nodes g !! 4%nat ≫= λ n, props n !! "feedback_ID") = Some (PStr "F1")
  ∧ (nodes g !! 4%nat ≫= λ n, props n !! "food_satisfaction_score")
    = Some (PInt (-3))
  ∧ (nodes g !! 4%nat ≫= λ n, props n !! "arrival_delay_minutes")
    = Some (PInt 0).
Proof. by vm_compute. Qed.

End Checks.

(** ** Configuration lines *)

Module ConfigFacts.
Import PyStr Config.

Lemma space_not_eq_sign c : is_space c = true → is_eq_sign c = false.
Proof.
  intros Hs. unfold is_eq_sign. case_bool_decide as Hc; [|done].
  subst c. discriminate Hs.
Qed.

Lemma contains_eq_lstrip s : contains_eq (lstrip s) = contains_eq s.
Proof.
  induction s as [|c s IH]; simpl; [done|].
  destruct (is_space c) eqn:Hs; [|done].
  by rewrite IH, (space_not_eq_sign c Hs).
Qed.




Lemma split_eq1_none s : contains_eq s = false → split_eq1 s = [s].
Proof.
  induction s as [|c s IH]; simpl; [done|].
  intros [Hc Hs]%orb_false_iff. rewrite Hc, (IH Hs). done.
Qed.


Lemma load_line_other config line :
  contains_eq line = false → load_line config line = Ok config.
Proof. intros Hl. unfold load_line. by rewrite Hl. Qed.


End ConfigFacts.

(** ** The result validator *)

Module ValidatorFacts.
Import Validator ValidatorSpec.

Lemma scaled_le_max (r x y d : Q) :
  (0 <= r)%Q →
  (d <= r * Qmax x y)%Q ↔ (d <= r * y)%Q ∨ (d <= r * x)%Q.
Proof.
  intros Hr. destruct (Q.max_spec x y) as [[Hlt Hm]|[Hle Hm]]; rewrite Hm.
  - split; [by left|]. intros [H|H]; [done|].
    eapply Qle_trans; [exact H|].
    rewrite (Qmult_comm r x), (Qmult_comm r y).
    apply Qmult_le_compat_r; [by apply Qlt_le_weak|done].
  - split; [by right|]. intros [H|H]; [|done].
    eapply Qle_trans; [exact H|].
    rewrite (Qmult_comm r x), (Qmult_comm r y).
    by apply Qmult_le_compat_r.
Qed.

(** The library's three comparisons amount to one against the larger
    magnitude. *)
Lemma isclose_spec (a b r : Q) :
  (0 <= r)%Q →
  isclose a b r = true ↔ (Qabs (a - b) <= r * Qmax (Qabs a) (Qabs b))%Q.
Proof.
  intros Hr. unfold isclose.
  assert (Hmax : (0 <= r * Qmax (Qabs a) (Qabs b))%Q).
  { apply Qmult_le_0_compat; [done|].
    eapply Qle_trans; [apply (Qabs_nonneg a)|apply Q.le_max_l]. }
  destruct (Qeq_bool a b) eqn:Hab.
  - apply Qeq_bool_iff in Hab. split; [intros _|done].
    assert (Hz : (a - b == 0)%Q) by (rewrite Hab; ring).
    rewrite Hz. exact Hmax.
  - rewrite (Qabs_Qminus b a), !orb_true_iff, !Qle_bool_iff.
    rewrite !Qabs_Qmult, (Qabs_pos r Hr), (scaled_le_max r _ _ _ Hr).
    split.
    + intros [[H|H]|H]; [by left|by right|].
      left. eapply Qle_trans; [exact H|].
      apply Qmult_le_0_compat; [done|apply Qabs_nonneg].
    + intros [H|H]; [by left; left|by left; right].
Qed.

Lemma rel_tol_nonneg : (0 <= rel_tol)%Q.
Proof. by vm_compute. Qed.

Lemma number_is_int_or_float a :
  is_int_or_float a = true ↔ is_Some (number a).
Proof. destruct a; simpl; split; intros H; try done; by inversion H. Qed.

(** With a float expected and a number found, the field test is the
    tolerance test. *)
Lemma field_match_float e a x :
  number a = Some x →
  field_match (VFloat e) a true = isclose x e rel_tol.
Proof.
  intros Ha. unfold field_match. simpl.
  rewrite (proj2 (number_is_int_or_float a)) by (by rewrite Ha).
  unfold isclose_val. rewrite Ha. simpl. by destruct (isclose x e rel_tol).
Qed.


(** Without a float expected, the field test is [==]. *)
Lemma field_match_exact e a :
  is_float e = false → field_match e a true = py_eq a e.
Proof.
  intros He. unfold field_match, py_ne. rewrite He. simpl.
  by destruct (py_eq a e).
Qed.

Lemma py_eq_same_value e a : py_eq a e = true ↔ same_value e a.
Proof.
  unfold py_eq. split.
  - destruct (number a) as [y|] eqn:Ha, (number e) as [x|] eqn:He.
    + intros H%Qeq_bool_iff. by eapply same_number; [done..|symmetry].
    + by destruct a, e.
    + by destruct a, e.
    + destruct a, e; try done.
      * intros _. constructor.
      * intros ->%bool_decide_eq_true. constructor.
  - intros [|s|e' a' x y He Ha Hxy]; simpl.
    + done.
    + by rewrite bool_decide_eq_true_2.
    + rewrite Ha, He. apply Qeq_bool_iff. by symmetry.
Qed.

(** The inner loop stops at the first field that disagrees. *)
Lemma fields_loop_spec i act_row items all_match out :
  fields_loop i act_row items true all_match out
  = match first_mismatch i act_row items with
    | None => (all_match, out)
    | Some l => (false, out ++ [l])
    end.
Proof.
  unfold first_mismatch.
  induction items as [|[key exp_val] rest IH]; simpl; [done|].
  unfold field_ok at 1. simpl.
  destruct (field_match exp_val (get act_row key) true) eqn:Hm; simpl.
  - exact IH.
  - done.
Qed.

Lemma first_mismatch_none i act_row exp_row :
  first_mismatch i act_row exp_row = None
  ↔ Forall (λ kv, field_ok act_row kv = true) exp_row.
Proof.
  unfold first_mismatch.
  induction exp_row as [|kv rest IH]; simpl.
  - split; [constructor|done].
  - destruct (field_ok act_row kv) eqn:Hk; simpl.
    + rewrite IH. split; [by constructor|by inversion 1].
    + split; [done|]. inversion 1; congruence.
Qed.

Lemma rows_loop_spec actual : ∀ expected i all_match out,
  length actual = length expected →
  ∃ verdict,
    rows_loop i actual expected all_match out
    = (verdict, out ++ reported i actual expected)
    ∧ (verdict = true
       ↔ all_match = true ∧ all_fields_match actual expected).
Proof.
  induction actual as [|act_row actual IH];
    intros [|exp_row expected] i all_match out Hlen; simplify_eq/=.
  - exists all_match. rewrite app_nil_r. split; [done|].
    split; [intros ->; split; [done|constructor]|by intros [-> _]].
  - rewrite fields_loop_spec.
    destruct (first_mismatch i act_row exp_row) as [l|] eqn:Hf; simpl.
    + destruct (IH expected (S i) false (out ++ [l]) Hlen)
        as (v & -> & Hv).
      exists v. rewrite <- app_assoc. split; [done|].
      split; [intros Hv'; apply Hv in Hv'; by destruct Hv'|].
      intros [_ Hall]. inversion Hall as [|? ? ? ? Hrow _]; subst.
      apply first_mismatch_none with (i := i) in Hrow. congruence.
    + destruct (IH expected (S i) all_match out Hlen) as (v & -> & Hv).
      exists v. split; [done|]. rewrite Hv.
      apply first_mismatch_none in Hf.
      split; [intros [-> Hall]; split; [done|by constructor]|].
      intros [-> Hall]. by inversion Hall.
Qed.



(** C4 as stated fails: with one expected row of two fields that both
    disagree, the second disagreement is never printed. *)
Lemma later_fields_not_checked :
  ¬ (∀ (actual : list (gmap string value))
       (expected : list (list (string * value)))
       (i : nat) act_row exp_row key exp_val,
       length actual = length expected →
       actual !! i = Some act_row → expected !! i = Some exp_row →
       (key, exp_val) ∈ exp_row →
       field_match exp_val (get act_row key) true = false →
       Mismatch i key exp_val (get act_row key)
         ∈ (compare_results 2 actual expected).2).
Proof.
  intros H.
  specialize (H [ {[ "flight_id" := VInt 7; "feedback_count" := VInt 3 ]} ]
                [ [("flight_id", VInt 42); ("feedback_count", VInt 14)] ]
                0%nat _ _ "feedback_count" (VInt 14)
                eq_refl eq_refl eq_refl).
  assert (Hin : ("feedback_count", VInt 14)
                  ∈ [("flight_id", VInt 42); ("feedback_count", VInt 14)])
    by (right; left).
  specialize (H Hin eq_refl). vm_compute in H.
  repeat (apply elem_of_cons in H as [H|H]; [discriminate H|]).
  by apply elem_of_nil in H.
Qed.

(** C4, amended.  For result sequences of equal length the validator prints
    the header, then for each row that disagrees, in order, the first
    expected field of that row that disagrees (the rest of that row is
    skipped, the following rows are still examined), then PASS if every row
    agrees on every expected field and FAIL otherwise; it returns nothing. *)
Theorem compare_results_first_mismatch_per_row
    (query_num : nat) (actual : list (gmap string value))
    (expected : list (list (string * value))) :
  length actual = length expected →
  ∃ verdict,
    compare_results query_num actual expected
    = (None, Header query_num :: reported 0 actual expected ++ [verdict])
    ∧ (verdict = PASS ↔ all_fields_match actual expected)
    ∧ (verdict = FAIL ↔ ¬ all_fields_match actual expected).
Proof.
  intros Hlen. unfold compare_results.
  rewrite Hlen, Nat.eqb_refl. simpl.
  destruct (rows_loop_spec actual expected 0 true [Header query_num] Hlen)
    as (v & -> & Hv).
  exists (if v then PASS else FAIL). split; [done|].
  destruct v.
  - split; [split; [intros _; by apply Hv|done]|].
    split; [done|]. intros Hn. destruct Hn. by apply Hv.
  - split; [split; [done|]|].
    + intros Hall. assert (false = true) by (apply Hv; done). done.
    + split; [intros _ Hall|done].
      assert (false = true) by (apply Hv; done). done.
Qed.

Lemma compare_results_first_mismatch_per_row_witness :
  ∃ verdict,
    compare_results 2
      [ {[ "flight_id" := VInt 7; "feedback_count" := VInt 3 ]};
        {[ "flight_id" := VInt 19; "feedback_count" := VInt 13 ]} ]
      [ [("flight_id", VInt 42); ("feedback_count", VInt 14)];
        [("flight_id", VInt 19); ("feedback_count", VInt 13)] ]
    = (None,
       Header 2
       :: reported 0
            [ {[ "flight_id" := VInt 7; "feedback_count" := VInt 3 ]};
              {[ "flight_id" := VInt 19; "feedback_count" := VInt 13 ]} ]
            [ [("flight_id", VInt 42); ("feedback_count", VInt 14)];
              [("flight_id", VInt 19); ("feedback_count", VInt 13)] ]
          ++ [verdict])
    ∧ verdict = FAIL.
Proof.
  destruct (compare_results_first_mismatch_per_row 2
      [ {[ "flight_id" := VInt 7; "feedback_count" := VInt 3 ]};
        {[ "flight_id" := VInt 19; "feedback_count" := VInt 13 ]} ]
      [ [("flight_id", VInt 42); ("feedback_count", VInt 14)];
        [("flight_id", VInt 19); ("feedback_count", VInt 13)] ]
      eq_refl) as (v & Hc & _ & Hf).
  exists v. split; [exact Hc|].
  apply Hf. intros Hall. inversion Hall as [|? ? ? ? Hrow _]; subst.
  inversion Hrow as [|? ? Hk _]; subst. vm_compute in Hk. discriminate Hk.
Defined.

(** C5 as stated fails: expected integer 42 accepts the float 42.0, a value
    of another type. *)
Lemma int_expected_accepts_float :
  ¬ (∀ e a : value, is_float e = false → type_of a ≠ type_of e →
       field_match e a true = false).
Proof.
  intros H. specialize (H (VInt 42) (VFloat (42 # 1)) eq_refl).
  assert (Ht : type_of (VFloat (42 # 1)) ≠ type_of (VInt 42)) by done.
  specialize (H Ht). vm_compute in H. discriminate H.
Qed.

(** C5, amended.  When the expected value is not a float, a field is
    accepted exactly when the value found equals it as a value: [None] with
    [None], a string with the same string, a number with a number of the
    same value whatever the two numeric types.  So expected integer 42
    rejects the string "42", and a string or [None] never matches a value of
    another type. *)
Theorem exact_field_is_value_equality (e a : value) :
  is_float e = false →
  (field_match e a true = true ↔ same_value e a)
  ∧ (number e = None → type_of a ≠ type_of e → field_match e a true = false)
  ∧ (number a = None → type_of a ≠ type_of e → field_match e a true = false).
Proof.
  intros He. rewrite (field_match_exact e a He). split; [|split].
  - apply py_eq_same_value.
  - intros Hn Ht. apply not_true_is_false. rewrite py_eq_same_value.
    intros Hs. destruct Hs; simplify_eq/=.
  - intros Hn Ht. apply not_true_is_false. rewrite py_eq_same_value.
    intros Hs. destruct Hs; simplify_eq/=.
Qed.

Lemma exact_field_is_value_equality_witness :
  is_float (VInt 42) = false
  ∧ field_match (VInt 42) (VStr "42") true = false
  ∧ (field_match (VInt 42) (VFloat (42 # 1)) true = true
     ↔ same_value (VInt 42) (VFloat (42 # 1))).
Proof.
  split; [reflexivity|]. split.
  - apply (proj2 (proj2 (exact_field_is_value_equality (VInt 42) (VStr "42")
                           eq_refl))); [reflexivity|discriminate].
  - apply (proj1 (exact_field_is_value_equality (VInt 42) (VFloat (42 # 1))
                    eq_refl)).
Defined.

End ValidatorFacts.

(** ** The programs *)

Module ProgramFacts.
Import Frame Upsert Store Prog TraceSpec BuildSpec LoadSpec CreateKg.

Lemma world_eta w : World (the_store w) (trace w ++ []) = w.
Proof. destruct w. by rewrite app_nil_r. Qed.

Lemma batch_size_pos : (0 < batch_size)%nat.
Proof. unfold batch_size. lia. Qed.

Lemma statements_app tr1 tr2 :
  statements (tr1 ++ tr2) = statements tr1 ++ statements tr2.
Proof. apply omap_app. Qed.

Section WithRuntime.
Context (rt : runtime) (fs : files).

Local Opaque batch_size.

(** The loop sends one import per full batch, in input order, and hands
    back what is left. *)
Lemma import_loop_spec rows : ∀ total_rows index batch,
  (length batch < batch_size)%nat →
  ∃ bs rest evs,
    batch ++ map (make_row_data rt) rows = concat bs ++ rest
    ∧ Forall (λ b, length b = batch_size) bs
    ∧ (length rest < batch_size)%nat
    ∧ statements evs = map ImportBatch bs
    ∧ Forall (λ ev, ev ≠ OpenSession ∧ ev ≠ CloseSession) evs
    ∧ ∀ w, import_loop rt total_rows index rows batch w
           = (Ok rest,
              World (import_batches rt (the_store w) bs) (trace w ++ evs)).
Proof.
  induction rows as [|row rows IH]; intros total_rows index batch Hlen.
  - exists [], batch, []. simpl. rewrite app_nil_r.
    repeat split; try done. intros w. by rewrite world_eta.
  - simpl. destruct (batch_size <=? length (batch ++ [make_row_data rt row]))%nat
      eqn:Hfull.
    + apply Nat.leb_le in Hfull. rewrite length_app in Hfull. simpl in Hfull.
      destruct (IH total_rows (S index) [] batch_size_pos)
        as (bs & rest & evs & Hcat & Hbs & Hrest & Hst & Hev & Hrun).
      exists ((batch ++ [make_row_data rt row]) :: bs), rest,
        (Run (ImportBatch (batch ++ [make_row_data rt row]))
         :: Print (Processed (index + 1) total_rows) :: evs).
      split; [|split; [|split; [|split; [|split]]]].
      * simpl in *. rewrite Hcat. by rewrite <- !app_assoc.
      * constructor; [|done]. rewrite length_app. simpl. lia.
      * done.
      * simpl. by rewrite Hst.
      * by repeat constructor.
      * intros w. unfold mbind, M_bind, run, print, emit. simpl.
        rewrite Hrun. simpl. by rewrite <- !app_assoc.
    + apply Nat.leb_gt in Hfull.
      destruct (IH total_rows (S index) (batch ++ [make_row_data rt row])
                  Hfull)
        as (bs & rest & evs & Hcat & Hbs & Hrest & Hst & Hev & Hrun).
      exists bs, rest, evs. rewrite <- Hcat, <- app_assoc. done.
Qed.

Lemma load_csv_data_no_file csv_path w :
  csv_files fs !! csv_path = None →
  load_csv_data rt fs csv_path w
  = (Ok (), World (the_store w) (trace w ++ [Print (CsvNotFound csv_path)])).
Proof. intros Hf. unfold load_csv_data. by rewrite Hf. Qed.

Lemma load_csv_data_missing_cols csv_path df w :
  csv_files fs !! csv_path = Some df →
  filter (λ col, col ∉ columns df) required_cols ≠ [] →
  load_csv_data rt fs csv_path w
  = (Ok (),
     World (the_store w)
       (trace w
        ++ [Print (Reading csv_path);
            Print (MissingColumns
                     (filter (λ col, col ∉ columns df) required_cols));
            Print (AvailableColumns (columns df))])).
Proof.
  intros Hf Hm. unfold load_csv_data. rewrite Hf.
  rewrite bool_decide_eq_false_2 by done. simpl.
  unfold mbind, M_bind, print, emit. simpl. by rewrite <- !app_assoc.
Qed.

Lemma length_concat_uniform {A} (bs : list (list A)) n :
  Forall (λ b, length b = n) bs → length (concat bs) = (length bs * n)%nat.
Proof.
  induction 1 as [|b bs Hb _ IH]; simpl; [done|].
  rewrite length_app, IH, Hb. lia.
Qed.

Lemma transactions_for_exact k size r :
  (0 < size)%nat → (r < size)%nat →
  transactions_for (k * size + r) size
  = (if decide (r = 0%nat) then k else S k).
Proof.
  intros Hs Hr. unfold transactions_for. case_decide as Hz.
  - subst r. symmetry.
    apply (Nat.div_unique _ _ _ (size - 1)); lia.
  - symmetry. apply (Nat.div_unique _ _ _ (r - 1)); lia.
Qed.

(** With every required column present the loader imports the records in
    consecutive batches: full ones, then what is left if anything is. *)
Lemma load_csv_data_batches csv_path df :
  csv_files fs !! csv_path = Some df →
  filter (λ col, col ∉ columns df) required_cols = [] →
  ∃ bs evs,
    concat bs = map (make_row_data rt) (rows (fillna df))
    ∧ Forall (λ b, (0 < length b ≤ batch_size)%nat) bs
    ∧ Forall (λ b, length b = batch_size) (take (length bs - 1) bs)
    ∧ length bs = transactions_for (len df) batch_size
    ∧ statements evs = map ImportBatch bs
    ∧ ∀ w, load_csv_data rt fs csv_path w
           = (Ok (),
              World (import_batches rt (the_store w) bs) (trace w ++ evs)).
Proof.
  intros Hf Hm.
  assert (Hload : ∀ w, load_csv_data rt fs csv_path w
    = (print (Reading csv_path);;
       print (Found (len (fillna df)));;
       with_session (
         batch ← import_loop rt (len (fillna df)) 0 (rows (fillna df)) [];
         if negb (bool_decide (batch = [])) then
           run rt (ImportBatch batch);;
           print (Processed (len (fillna df)) (len (fillna df)))
         else mret ())) w).
  { intros w. unfold load_csv_data. by rewrite Hf, Hm. }
  destruct (import_loop_spec (rows (fillna df)) (len (fillna df)) 0 []
              batch_size_pos)
    as (bs & rest & evs & Hcat & Hbs & Hrest & Hst & _ & Hrun).
  cbn [app] in Hcat.
  assert (Hn : len df = (length bs * batch_size + length rest)%nat).
  { unfold len. transitivity (length (map (make_row_data rt) (rows (fillna df)))).
    - unfold fillna. simpl. by rewrite !length_map.
    - by rewrite Hcat, length_app, (length_concat_uniform bs batch_size). }
  destruct rest as [|r rest].
  - exists bs, (Print (Reading csv_path) :: Print (Found (len (fillna df)))
                 :: OpenSession :: evs ++ [CloseSession]).
    split; [by rewrite Hcat, app_nil_r|]. split; [|split; [|split; [|split]]].
    + eapply Forall_impl; [exact Hbs|]. intros b ->.
      pose proof batch_size_pos. simpl. lia.
    + by apply Forall_take.
    + rewrite Hn. simpl. rewrite (transactions_for_exact _ _ 0%nat); [done|..];
        apply batch_size_pos.
    + simpl. rewrite statements_app. simpl. by rewrite app_nil_r.
    + intros w. rewrite Hload.
      unfold mbind, M_bind, print, emit, with_session. simpl.
      rewrite Hrun. simpl. unfold mret, M_ret. simpl.
      by rewrite <- !app_assoc.
  - exists (bs ++ [r :: rest]),
      (Print (Reading csv_path) :: Print (Found (len (fillna df)))
       :: OpenSession
       :: evs ++ [Run (ImportBatch (r :: rest));
                  Print (Processed (len (fillna df)) (len (fillna df)));
                  CloseSession]).
    split; [|split; [|split; [|split; [|split]]]].
    + by rewrite concat_app, Hcat; simpl; rewrite app_nil_r.
    + apply Forall_app. split.
      * eapply Forall_impl; [exact Hbs|]. intros b ->.
        pose proof batch_size_pos. simpl. lia.
      * constructor; [|done]. simpl in *. lia.
    + rewrite length_app. simpl.
      replace (length bs + 1 - 1)%nat with (length bs) by lia.
      by rewrite take_app_length.
    + rewrite Hn, length_app. simpl.
      rewrite (transactions_for_exact _ _ (S (length rest)));
        [|apply batch_size_pos|done].
      simpl. lia.
    + simpl. rewrite statements_app, map_app. simpl. by rewrite Hst.
    + intros w. rewrite Hload.
      unfold mbind, M_bind, print, emit, with_session. simpl.
      rewrite Hrun. simpl. unfold run. simpl.
      unfold import_batches. rewrite foldl_app. simpl.
      by rewrite <- !app_assoc.
Qed.

Lemma usable_config_loads uri user password w :
  usable_config fs uri user password →
  ∃ config,
    load_config fs "config.txt" w = (Ok (Some config), w)
    ∧ Config.truthy (Some config) = true
    ∧ config !! "URI" = Some uri
    ∧ config !! "USERNAME" = Some user
    ∧ config !! "PASSWORD" = Some password.
Proof.
  intros (lines & config & Hf & Hl & Hu & Hn & Hp). exists config.
  unfold load_config. rewrite Hf, Hl. repeat split; try done.
  simpl. rewrite bool_decide_eq_false_2; [done|].
  intros ->. by rewrite lookup_empty in Hu.
Qed.

(** The build program around a loader that returns normally. *)
Lemma main_around_loader uri user password bs evs :
  usable_config fs uri user password →
  (∀ w, load_csv_data rt fs "Airline_surveys_sample.csv" w
        = (Ok (),
           World (import_batches rt (the_store w) bs) (trace w ++ evs))) →
  ∀ w, main rt fs w
       = (Ok (),
          World
            (import_batches rt
               (mkStore Graph.empty (declared (schema (the_store w)))) bs)
            (trace w ++ prelude uri user password ++ evs ++ epilogue)).
Proof.
  intros Hc Hload w.
  destruct (usable_config_loads uri user password w Hc)
    as (config & Hcfg & Ht & Hu & Hn & Hp).
  unfold main. unfold mbind at 1. unfold M_bind at 1. rewrite Hcfg, Ht.
  unfold try_except, mbind, M_bind, getitem. simpl.
  rewrite Hu, Hn, Hp. simpl. rewrite Hload. simpl.
  by rewrite <- !app_assoc.
Qed.



Lemma import_batches_graph st bs :
  import_batches rt st bs
  = mkStore (import_graph rt (graph_of st) bs) (schema st).
Proof.
  revert st. induction bs as [|b bs IH]; intros st; simpl.
  - by destruct st.
  - unfold import_batches in *. simpl. by rewrite IH.
Qed.

Lemma missing_column_filter (df : DataFrame (option scalar)) :
  (∃ col, col ∈ required_cols ∧ col ∉ columns df)
  ↔ filter (λ col, col ∉ columns df) required_cols ≠ [].
Proof.
  split.
  - intros (col & Hr & Hc) Hnil.
    by apply (filter_nil_not_elem_of _ _ col Hnil Hc).
  - intros Hne.
    destruct (filter (λ col, col ∉ columns df) required_cols)
      as [|col l] eqn:Hf; [done|].
    exists col.
    assert (Hin : col ∈ filter (λ col, col ∉ columns df) required_cols)
      by (rewrite Hf; left).
    apply list_elem_of_filter in Hin. tauto.
Qed.

Lemma all_columns_filter (df : DataFrame (option scalar)) :
  (∀ col, col ∈ required_cols → col ∈ columns df)
  → filter (λ col, col ∉ columns df) required_cols = [].
Proof.
  intros Hall.
  destruct (filter (λ col, col ∉ columns df) required_cols)
    as [|col l] eqn:Hf; [done|].
  assert (Hin : col ∈ filter (λ col, col ∉ columns df) required_cols)
    by (rewrite Hf; left).
  apply list_elem_of_filter in Hin as [Hn Hr]. destruct Hn. by apply Hall.
Qed.

(** The file system enters the loader only through the frame read at
    [csv_path]. *)
Lemma load_csv_data_reads_csv_only (fs' : files) csv_path w :
  csv_files fs !! csv_path = csv_files fs' !! csv_path →
  load_csv_data rt fs csv_path w = load_csv_data rt fs' csv_path w.
Proof. intros Hf. unfold load_csv_data. by rewrite Hf. Qed.

(** Whatever the input file, the loader returns normally, and what it sends
    to the store are import transactions. *)
Lemma load_csv_data_uniform csv_path :
  ∃ bs evs,
    statements evs = map ImportBatch bs
    ∧ ∀ w, load_csv_data rt fs csv_path w
           = (Ok (),
              World (import_batches rt (the_store w) bs) (trace w ++ evs)).
Proof.
  destruct (csv_files fs !! csv_path) as [df|] eqn:Hf.
  - destruct (decide (filter (λ col, col ∉ columns df) required_cols = []))
      as [Hm|Hm].
    + destruct (load_csv_data_batches csv_path df Hf Hm)
        as (bs & evs & _ & _ & _ & _ & Hst & Hrun).
      by exists bs, evs.
    + exists [], [Print (Reading csv_path);
                  Print (MissingColumns
                    (filter (λ col, col ∉ columns df) required_cols));
                  Print (AvailableColumns (columns df))].
      split; [done|]. intros w.
      by apply load_csv_data_missing_cols.
  - exists [], [Print (CsvNotFound csv_path)]. split; [done|]. intros w.
    by apply load_csv_data_no_file.
Qed.

End WithRuntime.

(** C3 as stated fails: run on a store that holds an airport, with an input
    file whose header lacks [feedback_ID], the build program has emptied the
    graph by the time the loader reports the missing column. *)
Lemma wipe_precedes_column_check :
  ¬ (∀ (rt : runtime) (fs : files) (w : world) uri user password df,
       usable_config fs uri user password →
       csv_files fs !! "Airline_surveys_sample.csv" = Some df →
       (∃ col, col ∈ required_cols ∧ col ∉ columns df) →
       graph_of (the_store (main rt fs w).2) = graph_of (the_store w)).
Proof.
  intros H.
  assert (Hc : usable_config Samples.files_with_short_csv
                 "bolt://localhost:7687" "neo4j" "a=b").
  { eexists _, _. split; [reflexivity|]. split; [reflexivity|].
    by vm_compute. }
  assert (Hm : ∃ col, col ∈ required_cols
                      ∧ col ∉ columns Samples.short_frame).
  { exists "feedback_ID". split.
    - unfold required_cols. do 12 right. left.
    - apply (bool_decide_unpack _). by vm_compute. }
  specialize (H Samples.sample_runtime Samples.files_with_short_csv
                Samples.used_world _ _ _ _ Hc eq_refl Hm).
  apply missing_column_filter in Hm.
  rewrite (main_around_loader Samples.sample_runtime
             Samples.files_with_short_csv _ _ _ [] _ Hc
             (λ w, load_csv_data_missing_cols Samples.sample_runtime
                     Samples.files_with_short_csv "Airline_surveys_sample.csv"
                     Samples.short_frame w eq_refl Hm)) in H.
  discriminate H.
Qed.

(** C3, amended.  When the header lacks a required column, the loader
    prints the missing and the available columns and returns without
    opening a session or sending any statement: the store is the one it was
    given.  In the build program the wipe and the four declarations have
    been sent before the loader is called, and nothing is sent after. *)
Theorem missing_column_sends_no_import (rt : runtime) (fs : files)
    (csv_path : string) (df : DataFrame (option scalar)) :
  csv_files fs !! csv_path = Some df →
  (∃ col, col ∈ required_cols ∧ col ∉ columns df) →
  let missing := filter (λ col, col ∉ columns df) required_cols in
  let evs := [Print (Reading csv_path);
              Print (MissingColumns missing);
              Print (AvailableColumns (columns df))] in
  missing ≠ []
  ∧ statements evs = []
  ∧ (∀ w, load_csv_data rt fs csv_path w
          = (Ok (), World (the_store w) (trace w ++ evs)))
  ∧ (csv_path = "Airline_surveys_sample.csv" →
     ∀ uri user password, usable_config fs uri user password →
     ∀ w, main rt fs w
          = (Ok (),
             World (mkStore Graph.empty (declared (schema (the_store w))))
               (trace w ++ prelude uri user password ++ evs ++ epilogue))).
Proof.
  intros Hf Hm missing evs. apply missing_column_filter in Hm.
  split; [done|]. split; [done|]. split.
  - intros w. by apply load_csv_data_missing_cols.
  - intros -> uri user password Hc w.
    apply (main_around_loader rt fs uri user password [] _ Hc).
    intros w'. by apply load_csv_data_missing_cols.
Qed.

Lemma missing_column_sends_no_import_witness :
  load_csv_data Samples.sample_runtime Samples.files_with_short_csv
    "Airline_surveys_sample.csv" Samples.used_world
  = (Ok (),
     World (the_store Samples.used_world)
       (trace Samples.used_world
        ++ [Print (Reading "Airline_surveys_sample.csv");
            Print (MissingColumns
                     (filter (λ col, col ∉ columns Samples.short_frame)
                        required_cols));
            Print (AvailableColumns (columns Samples.short_frame))])).
Proof.
  destruct (missing_column_sends_no_import Samples.sample_runtime
              Samples.files_with_short_csv "Airline_surveys_sample.csv"
              Samples.short_frame eq_refl) as (_ & _ & Hl & _).
  - exists "feedback_ID". split.
    + unfold required_cols. do 12 right. left.
    + apply (bool_decide_unpack _). by vm_compute.
  - exact (Hl Samples.used_world).
Defined.

(** C6 as stated fails in one word: the batch size is not configurable.
    Two file systems that agree on the input file, whatever their
    configuration files say, make the loader send the same statements; with
    three rows and a configuration line [BATCH_SIZE=1] it still sends one
    transaction of three records. *)
Lemma batch_size_not_configurable :
  ¬ (∃ (rt : runtime) (fs1 fs2 : files) (csv_path : string) (w : world),
       csv_files fs1 !! csv_path = csv_files fs2 !! csv_path
       ∧ statements (trace (load_csv_data rt fs1 csv_path w).2)
         ≠ statements (trace (load_csv_data rt fs2 csv_path w).2))
  ∧ statements
      (trace (load_csv_data Samples.sample_runtime
                Samples.files_asking_batches_of_one
                "Airline_surveys_sample.csv"
                (World (mkStore Graph.empty ∅) [])).2)
    = [ImportBatch Samples.sample_records].
Proof.
  split.
  - intros (rt & fs1 & fs2 & csv_path & w & Hf & Hne). apply Hne.
    by rewrite (load_csv_data_reads_csv_only rt fs1 fs2 csv_path w Hf).
  - by vm_compute.
Qed.

(** C6, amended.  The loader accumulates the records into batches of 500, a
    constant of the loader, and sends one import transaction per full batch
    and one more for what is left when that is not empty: for [n] rows it
    sends ceil(n/500) transactions, which taken together are the records in
    input order; each holds at most 500 records, and all but the last hold
    exactly 500.  It sends nothing else. *)
Theorem import_in_batches_of_500 (rt : runtime) (fs : files)
    (csv_path : string) (df : DataFrame (option scalar)) :
  csv_files fs !! csv_path = Some df →
  (∀ col, col ∈ required_cols → col ∈ columns df) →
  ∃ bs evs,
    concat bs = map (make_row_data rt) (rows (fillna df))
    ∧ Forall (λ b, (0 < length b ≤ 500)%nat) bs
    ∧ Forall (λ b, length b = 500%nat) (take (length bs - 1) bs)
    ∧ length bs = ((len df + 499) / 500)%nat
    ∧ statements evs = map ImportBatch bs
    ∧ ∀ w, load_csv_data rt fs csv_path w
           = (Ok (),
              World (import_batches rt (the_store w) bs) (trace w ++ evs)).
Proof.
  intros Hf Hall.
  destruct (load_csv_data_batches rt fs csv_path df Hf
              (all_columns_filter df Hall))
    as (bs & evs & Hcat & Hle & Hfull & Hlen & Hst & Hrun).
  exists bs, evs.
  split; [exact Hcat|]. split; [exact Hle|]. split; [exact Hfull|].
  split; [|done].
  rewrite Hlen. unfold transactions_for, batch_size. f_equal. lia.
Qed.

Lemma import_in_batches_of_500_witness :
  ∃ bs evs,
    concat bs
    = map (make_row_data Samples.sample_runtime)
          (rows (fillna Samples.sample_frame))
    ∧ length bs = 1%nat
    ∧ statements evs = map ImportBatch bs.
Proof.
  destruct (import_in_batches_of_500 Samples.sample_runtime
              Samples.files_with_csv "Airline_surveys_sample.csv"
              Samples.sample_frame eq_refl)
    as (bs & evs & Hcat & _ & _ & Hlen & Hst & _).
  - intros col Hcol. apply (bool_decide_unpack _).
    unfold required_cols in Hcol.
    repeat (apply elem_of_cons in Hcol as [->|Hcol]; [by vm_compute|]).
    by apply elem_of_nil in Hcol.
  - exists bs, evs. by repeat split.
Defined.



(** C9.  With a usable configuration the first statement the build program
    sends is the wipe, then the four declarations, then the imports; the
    graph it leaves is the one the imports build from the empty graph, the
    same whatever the store held before. *)
Theorem build_starts_from_wiped_store (rt : runtime) (fs : files)
    (uri user password : string) :
  usable_config fs uri user password →
  ∃ bs evs,
    statements (prelude uri user password ++ evs ++ epilogue)
    = DetachDeleteAll
      :: CreateConstraint "passenger_id" "Passenger" "record_locator"
      :: CreateConstraint "journey_id" "Journey" "feedback_ID"
      :: CreateConstraint "airport_id" "Airport" "station_code"
      :: CreateIndex "flight_idx" "Flight"
           ["flight_number"; "fleet_type_description"]
      :: map ImportBatch bs
    ∧ (∀ w, main rt fs w
            = (Ok (),
               World
                 (mkStore (import_graph rt Graph.empty bs)
                    (declared (schema (the_store w))))
                 (trace w ++ prelude uri user password ++ evs ++ epilogue)))
    ∧ (∀ w1 w2, graph_of (the_store (main rt fs w1).2)
                = graph_of (the_store (main rt fs w2).2)).
Proof.
  intros Hc.
  destruct (load_csv_data_uniform rt fs "Airline_surveys_sample.csv")
    as (bs & evs & Hst & Hload).
  pose proof (main_around_loader rt fs uri user password bs evs Hc Hload)
    as Hmain.
  exists bs, evs. split; [|split].
  - rewrite statements_app, statements_app, Hst. simpl.
    by rewrite app_nil_r.
  - intros w. by rewrite Hmain, import_batches_graph.
  - intros w1 w2. by rewrite !Hmain, !import_batches_graph.
Qed.

Lemma build_starts_from_wiped_store_witness :
  graph_of (the_store (main Samples.sample_runtime Samples.files_with_csv
                         Samples.used_world).2)
  = graph_of (the_store (main Samples.sample_runtime Samples.files_with_csv
                           (World (mkStore Graph.empty ∅) [])).2).
Proof.
  destruct (build_starts_from_wiped_store Samples.sample_runtime
              Samples.files_with_csv "bolt://localhost:7687" "neo4j" "a=b")
    as (bs & evs & _ & _ & Hsame).
  - eexists _, _. split; [reflexivity|]. split; [reflexivity|].
    by vm_compute.
  - apply Hsame.
Defined.

(** C10.  With a usable configuration, when the input file does not exist
    or its header lacks a required column, the loader only prints and
    returns normally; the build program then closes the driver and prints
    the success line, and no exception is reported. *)
Theorem load_failure_still_reports_success (rt : runtime) (fs : files)
    (uri user password : string) :
  usable_config fs uri user password →
  (csv_files fs !! "Airline_surveys_sample.csv" = None
   ∨ ∃ df, csv_files fs !! "Airline_surveys_sample.csv" = Some df
           ∧ ∃ col, col ∈ required_cols ∧ col ∉ columns df) →
  ∃ evs,
    (evs = [Print (CsvNotFound "Airline_surveys_sample.csv")]
     ∨ ∃ missing cols,
         evs = [Print (Reading "Airline_surveys_sample.csv");
                Print (MissingColumns missing);
                Print (AvailableColumns cols)])
    ∧ (∀ w, load_csv_data rt fs "Airline_surveys_sample.csv" w
            = (Ok (), World (the_store w) (trace w ++ evs)))
    ∧ (∀ w, main rt fs w
            = (Ok (),
               World (mkStore Graph.empty (declared (schema (the_store w))))
                 (trace w ++ prelude uri user password ++ evs
                  ++ [CloseDriver;
                      Print (Say "Knowledge Graph created successfully!")]))).
Proof.
  intros Hc [Hf|(df & Hf & Hm)].
  - exists [Print (CsvNotFound "Airline_surveys_sample.csv")].
    split; [by left|].
    assert (Hl : ∀ w, load_csv_data rt fs "Airline_surveys_sample.csv" w
      = (Ok (),
         World (import_batches rt (the_store w) [])
           (trace w ++ [Print (CsvNotFound "Airline_surveys_sample.csv")])))
      by (intros w; by apply load_csv_data_no_file).
    split; [exact Hl|]. intros w.
    apply (main_around_loader rt fs uri user password [] _ Hc Hl).
  - apply missing_column_filter in Hm.
    eexists. split; [right; by eexists _, _|].
    assert (Hl : ∀ w, load_csv_data rt fs "Airline_surveys_sample.csv" w
      = (Ok (),
         World (import_batches rt (the_store w) [])
           (trace w
            ++ [Print (Reading "Airline_surveys_sample.csv");
                Print (MissingColumns
                  (filter (λ col, col ∉ columns df) required_cols));
                Print (AvailableColumns (columns df))])))
      by (intros w; by apply load_csv_data_missing_cols).
    split; [exact Hl|]. intros w.
    apply (main_around_loader rt fs uri user password [] _ Hc Hl).
Qed.

Lemma load_failure_still_reports_success_witness :
  ∃ evs, ∀ w,
    main Samples.sample_runtime Samples.files_without_csv w
    = (Ok (),
       World (mkStore Graph.empty (declared (schema (the_store w))))
         (trace w ++ prelude "bolt://localhost:7687" "neo4j" "a=b" ++ evs
          ++ [CloseDriver;
              Print (Say "Knowledge Graph created successfully!")])).
Proof.
  destruct (load_failure_still_reports_success Samples.sample_runtime
              Samples.files_without_csv "bolt://localhost:7687" "neo4j" "a=b")
    as (evs & _ & _ & Hmain).
  - eexists _, _. split; [reflexivity|]. split; [reflexivity|].
    by vm_compute.
  - left. reflexivity.
  - by exists evs.
Defined.

End ProgramFacts.

(** ** The import statement *)

Module UpsertFacts.
Import Frame Graph Upsert LoadSpec.

(** *** Keys and positions *)

Lemma index_of_lookup K ks : K ∈ ks → ks !! index_of K ks = Some K.
Proof.
  induction ks as [|k ks IH]; simpl; [by intros ?%elem_of_nil|].
  case_decide as Hk; [by subst|].
  intros [?|?]%elem_of_cons; [by subst|]. by apply IH.
Qed.

Lemma index_of_app_l K ks ks' :
  K ∈ ks → index_of K (ks ++ ks') = index_of K ks.
Proof.
  induction ks as [|k ks IH]; simpl; [by intros ?%elem_of_nil|].
  case_decide as Hk; [done|].
  intros [?|?]%elem_of_cons; [by subst|]. by rewrite IH.
Qed.

Lemma index_of_app_r K ks ks' :
  K ∉ ks → index_of K (ks ++ ks') = (length ks + index_of K ks')%nat.
Proof.
  induction ks as [|k ks IH]; simpl; [done|].
  intros [Hne Hnin]%not_elem_of_cons.
  case_decide as Hk; [by subst|]. by rewrite IH.
Qed.

Lemma index_of_fresh K ks : K ∉ ks → index_of K (ks ++ [K]) = length ks.
Proof.
  intros Hn. rewrite index_of_app_r by done. simpl.
  rewrite decide_True by done. lia.
Qed.

Lemma index_of_unique K ks i :
  NoDup ks → ks !! i = Some K → index_of K ks = i.
Proof.
  intros Hnd. revert i.
  induction Hnd as [|k ks Hk Hnd IH]; intros i Hi; simpl; [done|].
  destruct i as [|i]; simpl in Hi.
  - simplify_eq. by rewrite decide_True.
  - case_decide as Hk'.
    + subst. destruct Hk. by eapply list_elem_of_lookup_2.
    + f_equal. by apply IH.
Qed.

Lemma schema_keys_NoDup lbl : NoDup (schema_keys lbl).
Proof.
  unfold schema_keys.
  repeat case_bool_decide; apply (bool_decide_unpack _); by vm_compute.
Qed.

(** *** Matching is by key *)

Lemma forallb_pattern (pat : list (string * pvalue)) (m : gmap string pvalue) :
  forallb (λ kv, bool_decide (m !! kv.1 = Some kv.2)) pat = true
  ↔ (λ k, m !! k) <$> pat.*1 = Some <$> pat.*2.
Proof.
  induction pat as [|[k v] pat IH]; [done|].
  rewrite !fmap_cons. cbn [forallb fst snd].
  rewrite andb_true_iff, bool_decide_eq_true, IH. split.
  - intros [-> ->]. done.
  - intros H. by simplify_eq.
Qed.

Lemma matches_key lbl pat n :
  pat.*1 = schema_keys lbl →
  matches lbl pat n = true ↔ node_key n = pattern_key lbl pat.
Proof.
  intros Hk. unfold matches, node_key, pattern_key.
  rewrite andb_true_iff, bool_decide_eq_true, forallb_pattern. split.
  - intros [Hl Hp]. by rewrite Hl, <- Hk, Hp.
  - intros H. simplify_eq. split; [done|].
    rewrite Hk. done.
Qed.

Lemma list_to_map_pattern (pat : list (string * pvalue)) :
  NoDup pat.*1 →
  (λ k, (list_to_map pat : gmap string pvalue) !! k) <$> pat.*1
  = Some <$> pat.*2.
Proof.
  induction pat as [|[k v] pat IH]; [done|].
  rewrite !fmap_cons. cbn [fst snd list_to_map foldr].
  intros [Hk Hnd]%NoDup_cons. rewrite lookup_insert_eq. f_equal.
  rewrite <- (IH Hnd). apply list_fmap_ext.
  intros i k' Hk'. rewrite lookup_insert_ne; [done|].
  intros ->. apply Hk. by eapply list_elem_of_lookup_2.
Qed.

Lemma fresh_node_key lbl pat :
  pat.*1 = schema_keys lbl →
  node_key (Node lbl (list_to_map pat)) = pattern_key lbl pat.
Proof.
  intros Hk. unfold node_key, pattern_key. simpl. f_equal.
  rewrite <- Hk. apply list_to_map_pattern.
  rewrite Hk. apply schema_keys_NoDup.
Qed.

Lemma find_from_absent lbl pat i ns :
  pat.*1 = schema_keys lbl →
  pattern_key lbl pat ∉ node_key <$> ns →
  find_from lbl pat i ns = [].
Proof.
  intros Hk. revert i.
  induction ns as [|n ns IH]; intros i Hn; simpl; [done|].
  rewrite fmap_cons in Hn. apply not_elem_of_cons in Hn as [Hne Hn].
  destruct (matches lbl pat n) eqn:Hm.
  - apply (matches_key lbl pat n Hk) in Hm. congruence.
  - by apply IH.
Qed.

Lemma find_from_present lbl pat i ns :
  pat.*1 = schema_keys lbl →
  NoDup (node_key <$> ns) →
  pattern_key lbl pat ∈ node_key <$> ns →
  find_from lbl pat i ns
  = [(i + index_of (pattern_key lbl pat) (node_key <$> ns))%nat].
Proof.
  intros Hk. revert i.
  induction ns as [|n ns IH]; intros i Hnd Hin.
  { by apply elem_of_nil in Hin. }
  rewrite fmap_cons in Hnd, Hin |- *. cbn [find_from index_of].
  apply NoDup_cons in Hnd as [Hn Hnd].
  destruct (matches lbl pat n) eqn:Hm.
  - apply (matches_key lbl pat n Hk) in Hm.
    rewrite decide_True by done.
    rewrite find_from_absent by (done || congruence).
    f_equal. lia.
  - rewrite decide_False.
    2: { intros Hn'. apply (matches_key lbl pat n Hk) in Hn'. congruence. }
    apply elem_of_cons in Hin as [Hin|Hin].
    { symmetry in Hin. apply (matches_key lbl pat n Hk) in Hin. congruence. }
    rewrite (IH (S i) Hnd Hin). f_equal. lia.
Qed.

(** [MERGE] of a keyed pattern on a graph without duplicate keys: the node
    with that key, created at the end when there is none. *)
Lemma merge_node_keyed g lbl pat :
  pat.*1 = schema_keys lbl →
  NoDup (keys g) →
  merge_node g lbl pat
  = if decide (pattern_key lbl pat ∈ keys g) then
      (g, [index_of (pattern_key lbl pat) (keys g)])
    else
      (Graph (nodes g ++ [Node lbl (list_to_map pat)]) (rels g),
       [length (nodes g)]).
Proof.
  intros Hk Hnd. unfold merge_node, find_nodes. case_decide as Hin.
  - by rewrite (find_from_present lbl pat 0 (nodes g) Hk Hnd Hin).
  - by rewrite (find_from_absent lbl pat 0 (nodes g) Hk Hin).
Qed.

(** *** One clause over the table *)

Lemma exec_clause_fold c g tbl :
  exec_clause c (g, tbl)
  = foldl (clause_step c) (g, []) tbl.
Proof. done. Qed.

(** A [MERGE] of keyed nodes appends the nodes whose keys were missing and
    binds each record to the node with its key. *)
Lemma exec_merge_node_fold x lbl pat tbl :
  (∀ r, (pat r).*1 = schema_keys lbl) →
  ∀ g out, NoDup (keys g) →
  ∃ fresh,
    let g' := Graph (nodes g ++ fresh) (rels g) in
    foldl (clause_step (MergeNode x lbl pat)) (g, out) tbl
    = (g',
       out ++ ((λ e : env,
                  (e.1, <[x := index_of (pattern_key lbl (pat e.1)) (keys g')]>
                          e.2)) <$> tbl))
    ∧ NoDup (keys g')
    ∧ Forall (λ e : env, pattern_key lbl (pat e.1) ∈ keys g') tbl
    ∧ Forall (λ n, ∃ e : env, e ∈ tbl ∧ n = Node lbl (list_to_map (pat e.1)))
             fresh
    ∧ (Forall (λ e : env, pattern_key lbl (pat e.1) ∈ keys g) tbl →
       fresh = []).
Proof.
  intros Hk. induction tbl as [|e tbl IH]; intros g out Hnd.
  - exists []. simpl. rewrite !app_nil_r. destruct g. by repeat split.
  - cbn [foldl]. unfold clause_step at 2. cbn [exec_on fst snd].
    rewrite (merge_node_keyed g lbl (pat e.1) (Hk e.1) Hnd).
    case_decide as Hin.
    + destruct (IH g
        (out ++ [(e.1, <[x := index_of (pattern_key lbl (pat e.1)) (keys g)]>
                         e.2)]) Hnd)
        as (fresh & Hrun & Hnd' & Hall & Hfr & Hnil).
      exists fresh. cbn zeta in *. split; [|split; [|split; [|split]]].
      * cbn [map]. rewrite Hrun, <- app_assoc. do 2 f_equal.
        rewrite fmap_cons. cbn [app]. do 3 f_equal.
        unfold keys. cbn [nodes]. rewrite fmap_app.
        by rewrite index_of_app_l.
      * done.
      * constructor; [|done]. unfold keys in *. cbn [nodes] in *.
        rewrite fmap_app. apply elem_of_app. by left.
      * eapply Forall_impl; [exact Hfr|].
        intros n (e' & He' & ->). exists e'. split; [by right|done].
      * intros Hpre. apply Hnil. by inversion Hpre.
    + set (n0 := Node lbl (list_to_map (pat e.1))).
      assert (Hk0 : node_key n0 = pattern_key lbl (pat e.1))
        by apply fresh_node_key, Hk.
      assert (Hnd1 : NoDup (keys (Graph (nodes g ++ [n0]) (rels g)))).
      { unfold keys in *. cbn [nodes]. rewrite fmap_app. cbn [fmap list_fmap].
        apply NoDup_app. split; [done|]. split.
        - intros K HK ->%list_elem_of_singleton. congruence.
        - apply NoDup_singleton. }
      destruct (IH (Graph (nodes g ++ [n0]) (rels g))
                  (out ++ [(e.1, <[x := length (nodes g)]> e.2)]) Hnd1)
        as (fresh & Hrun & Hnd' & Hall & Hfr & Hnil).
      exists (n0 :: fresh). cbn zeta in *. cbn [nodes rels] in *.
      rewrite <- app_assoc in Hrun, Hnd', Hall. cbn [app] in Hrun, Hnd', Hall.
      split; [|split; [|split; [|split]]].
      * cbn [map]. rewrite Hrun, <- app_assoc. do 2 f_equal.
        rewrite fmap_cons. cbn [app]. do 3 f_equal.
        unfold keys. cbn [nodes]. rewrite fmap_app, fmap_cons, Hk0.
        rewrite index_of_app_r by done. cbn [index_of].
        rewrite decide_True by done. rewrite length_fmap. lia.
      * done.
      * constructor; [|done]. unfold keys. cbn [nodes].
        rewrite fmap_app, fmap_cons, Hk0. apply elem_of_app. right. left.
      * constructor.
        -- exists e. split; [left|done].
        -- eapply Forall_impl; [exact Hfr|].
           intros n (e' & He' & ->). exists e'. split; [by right|done].
      * intros Hpre. inversion Hpre; subst. done.
Qed.

Lemma filter_eq_length {A} `{EqDecision A} (x : A) (l : list A) :
  NoDup l →
  length (filter (λ y, y = x) l) = if decide (x ∈ l) then 1%nat else 0%nat.
Proof.
  induction 1 as [|y l Hy Hnd IH]; [done|].
  destruct (decide (y = x)) as [->|Hyx].
  - rewrite filter_cons_True by done. cbn [length]. rewrite IH.
    rewrite decide_False by done. rewrite decide_True by left. done.
  - rewrite filter_cons_False by done. rewrite IH.
    destruct (decide (x ∈ l)) as [Hin|Hin].
    + rewrite decide_True by (by right). done.
    + rewrite decide_False; [done|].
      intros [?|?]%elem_of_cons; by simplify_eq.
Qed.

Lemma merge_rel_keyed g a type b :
  NoDup (rels g) →
  merge_rel g a type b
  = if decide ((a, type, b) ∈ rels g) then (g, 1%nat)
    else (Graph (nodes g) (rels g ++ [(a, type, b)]), 1%nat).
Proof.
  intros Hnd. unfold merge_rel. cbn zeta.
  rewrite (filter_eq_length _ _ Hnd).
  repeat case_decide; done.
Qed.

(** A [MERGE] of relationships between bound nodes appends the missing
    ones and keeps the table. *)
Lemma exec_merge_rel_fold_full s type d (sa da : env → nat) tbl :
  Forall (λ e : env, e.2 !! s = Some (sa e) ∧ e.2 !! d = Some (da e)) tbl →
  ∀ g out, NoDup (rels g) →
  ∃ new,
    foldl (clause_step (MergeRel s type d)) (g, out) tbl
    = (Graph (nodes g) (rels g ++ new), out ++ tbl)
    ∧ NoDup (rels g ++ new)
    ∧ Forall (λ e, (sa e, type, da e) ∈ rels g ++ new) tbl
    ∧ (Forall (λ e, (sa e, type, da e) ∈ rels g) tbl → new = [])
    ∧ Forall (λ x, ∃ e, e ∈ tbl ∧ x = (sa e, type, da e)) new.
Proof.
  induction 1 as [|e tbl [Hs Hd] Htbl IH]; intros g out Hnd.
  - exists []. simpl. rewrite !app_nil_r. destruct g. by repeat split.
  - cbn [foldl]. unfold clause_step at 2. cbn [exec_on fst snd]. rewrite Hs, Hd.
    rewrite (merge_rel_keyed g (sa e) type (da e) Hnd).
    case_decide as Hin.
    + destruct (IH g (out ++ [e]) Hnd)
        as (new & Hrun & Hnd' & Hall & Hnil & Hfrom).
      exists new. split; [|split; [|split; [|split]]].
      * cbn [replicate]. rewrite Hrun, <- app_assoc. done.
      * done.
      * constructor; [|done]. apply elem_of_app. by left.
      * intros Hpre. apply Hnil. by inversion Hpre.
      * eapply Forall_impl; [exact Hfrom|].
        intros x (e' & He' & ->). exists e'. split; [by right|done].
    + assert (Hnd1 : NoDup (rels g ++ [(sa e, type, da e)])).
      { apply NoDup_app. split; [done|]. split.
        - intros r Hr ->%list_elem_of_singleton. done.
        - apply NoDup_singleton. }
      destruct (IH (Graph (nodes g) (rels g ++ [(sa e, type, da e)]))
                  (out ++ [e]) Hnd1)
        as (new & Hrun & Hnd' & Hall & Hnil & Hfrom).
      cbn [nodes rels] in *.
      rewrite <- app_assoc in Hrun, Hnd', Hall. cbn [app] in Hrun, Hnd', Hall.
      exists ((sa e, type, da e) :: new). split; [|split; [|split; [|split]]].
      * cbn [replicate]. rewrite Hrun, <- app_assoc. done.
      * done.
      * constructor; [|done]. apply elem_of_app. right. left.
      * intros Hpre. inversion Hpre; subst. done.
      * constructor.
        -- exists e. split; [left|done].
        -- eapply Forall_impl; [exact Hfrom|].
           intros x (e' & He' & ->). exists e'. split; [by right|done].
Qed.

Lemma exec_merge_rel_fold s type d (sa da : env → nat) tbl :
  Forall (λ e : env, e.2 !! s = Some (sa e) ∧ e.2 !! d = Some (da e)) tbl →
  ∀ g out, NoDup (rels g) →
  ∃ new,
    foldl (clause_step (MergeRel s type d)) (g, out) tbl
    = (Graph (nodes g) (rels g ++ new), out ++ tbl)
    ∧ NoDup (rels g ++ new)
    ∧ Forall (λ e, (sa e, type, da e) ∈ rels g ++ new) tbl
    ∧ (Forall (λ e, (sa e, type, da e) ∈ rels g) tbl → new = []).
Proof.
  intros Htbl g out Hnd.
  destruct (exec_merge_rel_fold_full s type d sa da tbl Htbl g out Hnd)
    as (new & Hrun & Hnd' & Hall & Hnil & _).
  by exists new.
Qed.

(** A [SET] alters the bound node of each record in turn and keeps the
    table. *)
Lemma exec_set_props_fold x assign (ix : env → nat) tbl :
  Forall (λ e : env, e.2 !! x = Some (ix e)) tbl →
  ∀ g out,
    foldl (clause_step (SetProps x assign)) (g, out) tbl
    = (Graph (foldl (λ ns e, alter (set_node (assign e.1)) (ix e) ns)
                (nodes g) tbl)
             (rels g),
       out ++ tbl).
Proof.
  induction 1 as [|e tbl Hx Htbl IH]; intros g out.
  - simpl. rewrite app_nil_r. by destruct g.
  - cbn [foldl]. unfold clause_step at 2. cbn [exec_on fst snd]. rewrite Hx.
    unfold set_props. rewrite IH. cbn [nodes rels].
    by rewrite <- app_assoc.
Qed.

(** *** Assignments *)

Lemma lookup_set_prop k ov (m : gmap string pvalue) k' :
  set_prop k ov m !! k' = if decide (k = k') then ov else m !! k'.
Proof.
  unfold set_prop. destruct ov as [v|].
  - by rewrite lookup_insert.
  - by rewrite lookup_delete.
Qed.

Lemma set_all_cons kv a (m : gmap string pvalue) :
  set_all (kv :: a) m = set_all a (set_prop kv.1 kv.2 m).
Proof. done. Qed.

(** A property that is not assigned keeps its value. *)
Lemma lookup_set_all_other a : ∀ (m : gmap string pvalue) k,
  k ∉ a.*1 → set_all a m !! k = m !! k.
Proof.
  induction a as [|[k' ov] a IH]; intros m k Hk; [done|].
  rewrite fmap_cons in Hk. apply not_elem_of_cons in Hk as [Hne Hk].
  rewrite set_all_cons, (IH _ _ Hk), lookup_set_prop. cbn [fst snd].
  by rewrite decide_False.
Qed.

(** A property that is assigned gets a value that does not depend on the
    properties before. *)
Lemma lookup_set_all_assigned a : ∀ (m m' : gmap string pvalue) k,
  k ∈ a.*1 → set_all a m !! k = set_all a m' !! k.
Proof.
  induction a as [|[k' ov] a IH]; intros m m' k Hk.
  { by apply elem_of_nil in Hk. }
  rewrite !set_all_cons. cbn [fst snd].
  destruct (decide (k ∈ a.*1)) as [Hin|Hin].
  - by apply IH.
  - rewrite !lookup_set_all_other by done.
    rewrite fmap_cons in Hk. apply elem_of_cons in Hk as [->|Hk]; [|done].
    rewrite !lookup_set_prop. cbn [fst]. by rewrite !decide_True.
Qed.

(** Assigning the same properties again makes the first assignment
    irrelevant. *)
Lemma set_all_overwrite a a' (m : gmap string pvalue) :
  a'.*1 = a.*1 → set_all a (set_all a' m) = set_all a m.
Proof.
  intros Hk. apply map_eq. intros k.
  destruct (decide (k ∈ a.*1)) as [Hin|Hin].
  - by apply lookup_set_all_assigned.
  - rewrite !lookup_set_all_other; [done|done|by rewrite Hk|done].
Qed.

Lemma set_keys_not_schema rt r lbl k :
  k ∈ schema_keys lbl →
  (k ∉ (passenger_set r).*1) ∧ (k ∉ (journey_set rt r).*1).
Proof.
  unfold schema_keys, passenger_set, journey_set. cbn [fmap list_fmap fst].
  intros Hk.
  repeat case_bool_decide;
    repeat (apply elem_of_cons in Hk as [->|Hk]);
    try (by apply elem_of_nil in Hk);
    split; apply (bool_decide_unpack _); by vm_compute.
Qed.

Lemma node_key_set_node a n :
  (∀ k, k ∈ schema_keys (label n) → k ∉ a.*1) →
  node_key (set_node a n) = node_key n.
Proof.
  intros Hk. unfold node_key, set_node. cbn [label props]. f_equal.
  apply list_fmap_ext. intros i k Hi.
  apply lookup_set_all_other, Hk. by eapply list_elem_of_lookup_2.
Qed.

Lemma passenger_set_attribute : attribute_set passenger_set.
Proof.
  split; [done|]. intros r lbl k Hk.
  apply (set_keys_not_schema (Runtime (λ _, "") (λ _, None) (λ _ _, []))
           r lbl k Hk).
Qed.

Lemma journey_set_attribute rt : attribute_set (journey_set rt).
Proof.
  split; [done|]. intros r lbl k Hk. by apply (set_keys_not_schema rt r lbl k).
Qed.

(** *** The last writer of a node *)

Section ApplyLast.
Context (K : row_data → key)
        (a : row_data → list (string * option pvalue))
        (Ha : attribute_set a).

Lemma set_node_key r n : node_key (set_node (a r) n) = node_key n.
Proof. apply node_key_set_node. intros k Hk. by eapply (proj2 Ha). Qed.

Lemma set_node_overwrite r r' n :
  set_node (a r) (set_node (a r') n) = set_node (a r) n.
Proof.
  unfold set_node. cbn [label props]. f_equal.
  apply set_all_overwrite, (proj1 Ha).
Qed.

Lemma apply_last_key rows n : node_key (apply_last K a rows n) = node_key n.
Proof.
  unfold apply_last. destruct (last_writer K rows n); [|done].
  apply set_node_key.
Qed.

Lemma apply_last_label rows n : label (apply_last K a rows n) = label n.
Proof. unfold apply_last. by destruct (last_writer K rows n). Qed.

Lemma last_writer_key rows n n' :
  node_key n = node_key n' → last_writer K rows n = last_writer K rows n'.
Proof. unfold last_writer. by intros ->. Qed.

Lemma last_writer_app R b n :
  last_writer K (R ++ b) n
  = match last_writer K b n with
    | Some r => Some r
    | None => last_writer K R n
    end.
Proof. unfold last_writer. by rewrite filter_app, last_app. Qed.

Lemma last_writer_elem rows n r :
  last_writer K rows n = Some r → r ∈ rows ∧ K r = node_key n.
Proof.
  unfold last_writer. intros Hl%last_Some_elem_of.
  apply list_elem_of_filter in Hl. tauto.
Qed.

Lemma last_writer_None rows n :
  last_writer K rows n = None ↔ Forall (λ r, K r ≠ node_key n) rows.
Proof.
  unfold last_writer. rewrite last_None, Forall_forall. split.
  - intros Hnil r Hr Hk. by apply (filter_nil_not_elem_of _ _ r Hnil Hk).
  - intros Hall.
    destruct (filter (λ r, K r = node_key n) rows) as [|r l] eqn:Hf; [done|].
    assert (Hin : r ∈ filter (λ r, K r = node_key n) rows)
      by (rewrite Hf; left).
    apply list_elem_of_filter in Hin as [Hk Hr]. by destruct (Hall r Hr).
Qed.

(** The writers of [R], then those of [b]. *)
Lemma apply_last_app R b n :
  apply_last K a (R ++ b) n = apply_last K a b (apply_last K a R n).
Proof.
  unfold apply_last at 1 2.
  rewrite last_writer_app,
    (last_writer_key b (apply_last K a R n) n (apply_last_key R n)).
  unfold apply_last.
  destruct (last_writer K b n) as [r|], (last_writer K R n) as [r'|];
    try done.
  by rewrite set_node_overwrite.
Qed.

Lemma apply_last_idemp R n :
  apply_last K a R (apply_last K a R n) = apply_last K a R n.
Proof.
  unfold apply_last at 1.
  rewrite (last_writer_key R (apply_last K a R n) n (apply_last_key R n)).
  unfold apply_last.
  destruct (last_writer K R n) as [r|]; [|done].
  by rewrite set_node_overwrite.
Qed.

(** Nodes of another label have no writer. *)
Lemma apply_last_other rows n :
  (∀ r, (K r).1 ≠ label n) → apply_last K a rows n = n.
Proof.
  intros Hl. unfold apply_last.
  destruct (last_writer K rows n) as [r|] eqn:Hw; [|done].
  apply last_writer_elem in Hw as [_ Hk]. destruct (Hl r).
  by rewrite Hk.
Qed.

(** Altering, record after record, the node that has the record's key
    leaves every node with the assignment of its last writer. *)
Lemma set_fold_apply_last rows : ∀ ns,
  NoDup (node_key <$> ns) →
  Forall (λ r, K r ∈ node_key <$> ns) rows →
  foldl (λ ns' r,
           alter (set_node (a r)) (index_of (K r) (node_key <$> ns)) ns')
        ns rows
  = apply_last K a rows <$> ns.
Proof.
  induction rows as [|r rows IH] using rev_ind; intros ns Hnd Hall.
  - cbn [foldl]. symmetry. rewrite <- (list_fmap_id ns) at 2.
    apply list_fmap_ext. intros i n _. done.
  - apply Forall_app in Hall as [Hall Hr]. inversion Hr as [|? ? Hin _]; subst.
    rewrite foldl_snoc, (IH ns Hnd Hall). apply list_eq. intros j.
    rewrite list_lookup_alter.
    pose proof (index_of_lookup _ _ Hin) as Hi.
    case_decide as Hij.
    + subst j. rewrite !list_lookup_fmap.
      rewrite list_lookup_fmap in Hi.
      destruct (ns !! index_of (K r) (node_key <$> ns)) as [n|] eqn:Hj;
        [|done].
      simplify_eq/=. f_equal. unfold apply_last at 2.
      rewrite last_writer_app. unfold last_writer at 1.
      rewrite filter_cons_True by done. rewrite filter_nil. cbn [last].
      unfold apply_last.
      destruct (last_writer K rows n) as [r'|]; [|done].
      by rewrite set_node_overwrite.
    + rewrite !list_lookup_fmap.
      destruct (ns !! j) as [n|] eqn:Hj; [|done].
      cbn [fmap option_fmap option_map]. f_equal. unfold apply_last at 2.
      rewrite last_writer_app. unfold last_writer at 1.
      rewrite filter_cons_False; [done|].
      intros Hk. apply Hij.
      apply (index_of_unique _ _ _ Hnd). by rewrite list_lookup_fmap, Hj, Hk.
Qed.

End ApplyLast.

(** *** One clause over a table that holds one record per row *)

Lemma merge_node_table x lbl pat (σ : row_data → gmap string nat) b g :
  (∀ r, (pat r).*1 = schema_keys lbl) →
  NoDup (keys g) →
  ∃ fresh,
    let g' := Graph (nodes g ++ fresh) (rels g) in
    exec_clause (MergeNode x lbl pat) (g, (λ r, (r, σ r)) <$> b)
    = (g',
       (λ r, (r, <[x := index_of (pattern_key lbl (pat r)) (keys g')]> (σ r)))
       <$> b)
    ∧ NoDup (keys g')
    ∧ Forall (λ r, pattern_key lbl (pat r) ∈ keys g') b
    ∧ Forall (λ n, ∃ r, r ∈ b ∧ n = Node lbl (list_to_map (pat r))) fresh
    ∧ (Forall (λ r, pattern_key lbl (pat r) ∈ keys g) b → fresh = []).
Proof.
  intros Hk Hnd. rewrite exec_clause_fold.
  destruct (exec_merge_node_fold x lbl pat ((λ r, (r, σ r)) <$> b) Hk g []
              Hnd)
    as (fresh & Hrun & Hnd' & Hin & Hfr & Hnil).
  exists fresh. cbn zeta in *. split; [|split; [|split; [|split]]].
  - rewrite Hrun, app_nil_l, <- list_fmap_compose. done.
  - done.
  - by apply Forall_fmap in Hin.
  - eapply Forall_impl; [exact Hfr|]. intros n (e & He & ->).
    apply list_elem_of_fmap in He as (r & -> & Hr). by exists r.
  - intros Hpre. apply Hnil. by apply Forall_fmap.
Qed.

Lemma merge_rel_table_full s type d (σ : row_data → gmap string nat)
    (sa da : row_data → nat) b g :
  (∀ r, σ r !! s = Some (sa r) ∧ σ r !! d = Some (da r)) →
  NoDup (rels g) →
  ∃ new,
    exec_clause (MergeRel s type d) (g, (λ r, (r, σ r)) <$> b)
    = (Graph (nodes g) (rels g ++ new), (λ r, (r, σ r)) <$> b)
    ∧ NoDup (rels g ++ new)
    ∧ Forall (λ r, (sa r, type, da r) ∈ rels g ++ new) b
    ∧ (Forall (λ r, (sa r, type, da r) ∈ rels g) b → new = [])
    ∧ Forall (λ x, ∃ r, r ∈ b ∧ x = (sa r, type, da r)) new.
Proof.
  intros Hσ Hnd. rewrite exec_clause_fold.
  destruct (exec_merge_rel_fold_full s type d (λ e, sa e.1) (λ e, da e.1)
              ((λ r, (r, σ r)) <$> b)) with (g := g) (out := @nil env)
    as (new & Hrun & Hnd' & Hin & Hnil & Hfrom); [|done|].
  { apply Forall_fmap, Forall_forall. intros r _. apply Hσ. }
  exists new. split; [|split; [|split; [|split]]].
  - by rewrite Hrun, app_nil_l.
  - done.
  - by apply Forall_fmap in Hin.
  - intros Hpre. apply Hnil. by apply Forall_fmap.
  - eapply Forall_impl; [exact Hfrom|]. intros x (e & He & ->).
    apply list_elem_of_fmap in He as (r & -> & Hr). by exists r.
Qed.

Lemma merge_rel_table s type d (σ : row_data → gmap string nat)
    (sa da : row_data → nat) b g :
  (∀ r, σ r !! s = Some (sa r) ∧ σ r !! d = Some (da r)) →
  NoDup (rels g) →
  ∃ new,
    exec_clause (MergeRel s type d) (g, (λ r, (r, σ r)) <$> b)
    = (Graph (nodes g) (rels g ++ new), (λ r, (r, σ r)) <$> b)
    ∧ NoDup (rels g ++ new)
    ∧ Forall (λ r, (sa r, type, da r) ∈ rels g ++ new) b
    ∧ (Forall (λ r, (sa r, type, da r) ∈ rels g) b → new = []).
Proof.
  intros Hσ Hnd.
  destruct (merge_rel_table_full s type d σ sa da b g Hσ Hnd)
    as (new & Hrun & Hnd' & Hall & Hnil & _).
  by exists new.
Qed.

Lemma keys_apply_last K a rows (ns : list node) :
  attribute_set a →
  node_key <$> (apply_last K a rows <$> ns) = node_key <$> ns.
Proof.
  intros Ha. rewrite <- list_fmap_compose. apply list_fmap_ext.
  intros i n _. by apply apply_last_key.
Qed.

Lemma set_props_table x a K (σ : row_data → gmap string nat) b g :
  attribute_set a →
  (∀ r, σ r !! x = Some (index_of (K r) (keys g))) →
  NoDup (keys g) →
  Forall (λ r, K r ∈ keys g) b →
  exec_clause (SetProps x a) (g, (λ r, (r, σ r)) <$> b)
  = (Graph (apply_last K a b <$> nodes g) (rels g), (λ r, (r, σ r)) <$> b).
Proof.
  intros Ha Hσ Hnd Hin. rewrite exec_clause_fold.
  rewrite (exec_set_props_fold x a (λ e, index_of (K e.1) (keys g))).
  2: { apply Forall_fmap, Forall_forall. intros r _. apply Hσ. }
  rewrite app_nil_l, foldl_fmap.
  rewrite <- (set_fold_apply_last K a Ha b (nodes g) Hnd Hin).
  reflexivity.
Qed.

(** *** The import statement on one batch *)

(** The run of the eleven clauses, with what each of them adds. *)
Lemma exec_import_run_full rt g b :
  well_keyed g →
  ∃ f1 f2 f3 f4 f5 n1 n2 n3 n4,
    let ns4 := (((nodes g ++ f1) ++ f2) ++ f3) ++ f4 in
    let ks1 := node_key <$> (nodes g ++ f1) in
    let ks2 := node_key <$> ((nodes g ++ f1) ++ f2) in
    let ks3 := node_key <$> (((nodes g ++ f1) ++ f2) ++ f3) in
    let ks4 := node_key <$> ns4 in
    let ks5 := node_key <$> (ns4 ++ f5) in
    let rs1 := rels g ++ n1 in
    let rs2 := rs1 ++ n2 in
    let rs3 := rs2 ++ n3 in
    let rs4 := rs3 ++ n4 in
    exec_query (import_query rt) g b
    = Graph (apply_last journey_key (journey_set rt) b
               <$> ((apply_last passenger_key passenger_set b <$> ns4) ++ f5))
            rs4
    ∧ NoDup ks5 ∧ NoDup rs4
    ∧ (Forall (λ r, origin_key r ∈ ks1) b
       ∧ Forall (λ r, dest_key r ∈ ks2) b
       ∧ Forall (λ r, flight_key r ∈ ks3) b
       ∧ Forall (λ r, passenger_key r ∈ ks4) b
       ∧ Forall (λ r, journey_key r ∈ ks5) b)
    ∧ (Forall (λ r, (index_of (flight_key r) ks3, "DEPARTS_FROM",
                     index_of (origin_key r) ks1) ∈ rs1) b
       ∧ Forall (λ r, (index_of (flight_key r) ks3, "ARRIVES_AT",
                       index_of (dest_key r) ks2) ∈ rs2) b
       ∧ Forall (λ r, (index_of (passenger_key r) ks4, "TOOK",
                       index_of (journey_key r) ks5) ∈ rs3) b
       ∧ Forall (λ r, (index_of (journey_key r) ks5, "ON",
                       index_of (flight_key r) ks3) ∈ rs4) b)
    ∧ (Forall (λ n, ∃ r, r ∈ b ∧ n = Node "Airport" (list_to_map (origin_pat r))) f1
       ∧ Forall (λ n, ∃ r, r ∈ b ∧ n = Node "Airport" (list_to_map (dest_pat r))) f2
       ∧ Forall (λ n, ∃ r, r ∈ b ∧ n = Node "Flight" (list_to_map (flight_pat r))) f3
       ∧ Forall (λ n, ∃ r, r ∈ b ∧ n = Node "Passenger" (list_to_map (passenger_pat r))) f4
       ∧ Forall (λ n, ∃ r, r ∈ b ∧ n = Node "Journey" (list_to_map (journey_pat r))) f5)
    ∧ ((Forall (λ r, origin_key r ∈ keys g) b → f1 = [])
       ∧ (Forall (λ r, dest_key r ∈ ks1) b → f2 = [])
       ∧ (Forall (λ r, flight_key r ∈ ks2) b → f3 = [])
       ∧ (Forall (λ r, passenger_key r ∈ ks3) b → f4 = [])
       ∧ (Forall (λ r, journey_key r ∈ ks4) b → f5 = []))
    ∧ ((Forall (λ r, (index_of (flight_key r) ks3, "DEPARTS_FROM",
                      index_of (origin_key r) ks1) ∈ rels g) b → n1 = [])
       ∧ (Forall (λ r, (index_of (flight_key r) ks3, "ARRIVES_AT",
                        index_of (dest_key r) ks2) ∈ rs1) b → n2 = [])
       ∧ (Forall (λ r, (index_of (passenger_key r) ks4, "TOOK",
                        index_of (journey_key r) ks5) ∈ rs2) b → n3 = [])
       ∧ (Forall (λ r, (index_of (journey_key r) ks5, "ON",
                        index_of (flight_key r) ks3) ∈ rs3) b → n4 = []))
    ∧ (Forall (λ x, ∃ r, r ∈ b
                 ∧ x = (index_of (flight_key r) ks3, "DEPARTS_FROM",
                        index_of (origin_key r) ks1)) n1
       ∧ Forall (λ x, ∃ r, r ∈ b
                   ∧ x = (index_of (flight_key r) ks3, "ARRIVES_AT",
                          index_of (dest_key r) ks2)) n2
       ∧ Forall (λ x, ∃ r, r ∈ b
                   ∧ x = (index_of (passenger_key r) ks4, "TOOK",
                          index_of (journey_key r) ks5)) n3
       ∧ Forall (λ x, ∃ r, r ∈ b
                   ∧ x = (index_of (journey_key r) ks5, "ON",
                          index_of (flight_key r) ks3)) n4).
Proof.
  intros [Hnd Hrel]. unfold exec_query, import_query. cbn [foldl].
  (* origin *)
  destruct (merge_node_table "origin" "Airport" origin_pat (λ _, ∅) b g
              (λ _, eq_refl) Hnd)
    as (f1 & Hrun & Hnd1 & Hin1 & Hfr1 & Hnil1).
  cbn zeta in Hrun, Hnd1, Hin1. rewrite Hrun. clear Hrun.
  set (g1 := Graph (nodes g ++ f1) (rels g)) in *.
  (* dest *)
  pose (σ1 := λ r : row_data,
         <["origin" := index_of (pattern_key "Airport" (origin_pat r))
                         (keys g1)]> (∅ : gmap string nat)).
  destruct (merge_node_table "dest" "Airport" dest_pat σ1
              b g1 (λ _, eq_refl) Hnd1)
    as (f2 & Hrun & Hnd2 & Hin2 & Hfr2 & Hnil2).
  cbn zeta in Hrun, Hnd2, Hin2. unfold σ1 in Hrun. cbv beta in Hrun.
  rewrite Hrun. clear Hrun.
  set (g2 := Graph (nodes g1 ++ f2) (rels g1)) in *.
  (* flight *)
  pose (σ2 := λ r : row_data,
         <["dest" := index_of (pattern_key "Airport" (dest_pat r)) (keys g2)]>
           (σ1 r)).
  destruct (merge_node_table "f" "Flight" flight_pat σ2
              b g2 (λ _, eq_refl) Hnd2)
    as (f3 & Hrun & Hnd3 & Hin3 & Hfr3 & Hnil3).
  cbn zeta in Hrun, Hnd3, Hin3. unfold σ2, σ1 in Hrun. cbv beta in Hrun.
  rewrite Hrun. clear Hrun.
  set (g3 := Graph (nodes g2 ++ f3) (rels g2)) in *.
  pose (σ3 := λ r : row_data,
         <["f" := index_of (pattern_key "Flight" (flight_pat r)) (keys g3)]>
           (σ2 r)).
  (* departs *)
  destruct (merge_rel_table_full "f" "DEPARTS_FROM" "origin" σ3
              (λ r, index_of (flight_key r) (keys g3))
              (λ r, index_of (origin_key r) (keys g1)) b g3)
    as (n1 & Hrun & Hrel1 & Hrin1 & Hrnil1 & Hrfrom1).
  { intros r. by split. }
  { done. }
  unfold σ3, σ2, σ1 in Hrun. cbv beta in Hrun. rewrite Hrun. clear Hrun.
  (* arrives *)
  destruct (merge_rel_table_full "f" "ARRIVES_AT" "dest" σ3
              (λ r, index_of (flight_key r) (keys g3))
              (λ r, index_of (dest_key r) (keys g2)) b
              (Graph (nodes g3) (rels g3 ++ n1)))
    as (n2 & Hrun & Hrel2 & Hrin2 & Hrnil2 & Hrfrom2).
  { intros r. by split. }
  { done. }
  unfold σ3, σ2, σ1 in Hrun. cbv beta in Hrun. rewrite Hrun. clear Hrun.
  cbn [nodes rels] in *.
  (* passenger *)
  destruct (merge_node_table "p" "Passenger" passenger_pat σ3 b
              (Graph (nodes g3) ((rels g3 ++ n1) ++ n2)) (λ _, eq_refl) Hnd3)
    as (f4 & Hrun & Hnd4 & Hin4 & Hfr4 & Hnil4).
  cbn zeta in Hrun, Hnd4, Hin4. unfold σ3, σ2, σ1 in Hrun. cbv beta in Hrun.
  rewrite Hrun. clear Hrun. cbn [nodes rels] in *.
  set (g4 := Graph (nodes g3 ++ f4) ((rels g3 ++ n1) ++ n2)) in *.
  pose (σ4 := λ r : row_data,
         <["p" := index_of (pattern_key "Passenger" (passenger_pat r))
                    (keys g4)]> (σ3 r)).
  (* set p *)
  pose proof (set_props_table "p" passenger_set passenger_key σ4 b g4
                passenger_set_attribute (λ r, lookup_insert_eq _ _ _) Hnd4
                Hin4) as Hrun.
  unfold σ4, σ3, σ2, σ1 in Hrun. cbv beta in Hrun. rewrite Hrun. clear Hrun.
  (* journey *)
  assert (Hnd4s : NoDup (keys (Graph (apply_last passenger_key passenger_set b
                                        <$> nodes g4) (rels g4)))).
  { unfold keys. cbn [nodes].
    by rewrite (keys_apply_last _ _ _ _ passenger_set_attribute). }
  destruct (merge_node_table "j" "Journey" journey_pat σ4 b _
              (λ _, eq_refl) Hnd4s)
    as (f5 & Hrun & Hnd5 & Hin5 & Hfr5 & Hnil5).
  cbn zeta in Hrun, Hnd5, Hin5. unfold σ4, σ3, σ2, σ1 in Hrun.
  cbv beta in Hrun. rewrite Hrun. clear Hrun.
  cbn [nodes rels] in *.
  set (g5 := Graph ((apply_last passenger_key passenger_set b <$> nodes g4)
                    ++ f5) (rels g4)) in *.
  pose (σ5 := λ r : row_data,
         <["j" := index_of (pattern_key "Journey" (journey_pat r)) (keys g5)]>
           (σ4 r)).
  (* set j *)
  pose proof (set_props_table "j" (journey_set rt) journey_key σ5 b g5
                (journey_set_attribute rt) (λ r, lookup_insert_eq _ _ _) Hnd5
                Hin5) as Hrun.
  unfold σ5, σ4, σ3, σ2, σ1 in Hrun. cbv beta in Hrun.
  rewrite Hrun. clear Hrun.
  (* took *)
  destruct (merge_rel_table_full "p" "TOOK" "j" σ5
              (λ r, index_of (passenger_key r) (keys g4))
              (λ r, index_of (journey_key r) (keys g5)) b
              (Graph (apply_last journey_key (journey_set rt) b <$> nodes g5)
                     (rels g5)))
    as (n3 & Hrun & Hrel3 & Hrin3 & Hrnil3 & Hrfrom3).
  { intros r. by split. }
  { done. }
  unfold σ5, σ4, σ3, σ2, σ1 in Hrun. cbv beta in Hrun.
  rewrite Hrun. clear Hrun. cbn [nodes rels].
  (* on *)
  destruct (merge_rel_table_full "j" "ON" "f" σ5
              (λ r, index_of (journey_key r) (keys g5))
              (λ r, index_of (flight_key r) (keys g3)) b
              (Graph (apply_last journey_key (journey_set rt) b <$> nodes g5)
                     (rels g5 ++ n3)))
    as (n4 & Hrun & Hrel4 & Hrin4 & Hrnil4 & Hrfrom4).
  { intros r. by split. }
  { done. }
  unfold σ5, σ4, σ3, σ2, σ1 in Hrun. cbv beta in Hrun.
  rewrite Hrun. clear Hrun.
  cbn [fst nodes rels] in *.
  assert (Hk5 : keys g5
                = node_key <$> (((((nodes g ++ f1) ++ f2) ++ f3) ++ f4) ++ f5)).
  { unfold keys, g5. cbn [nodes].
    rewrite fmap_app, (keys_apply_last _ _ _ _ passenger_set_attribute).
    unfold g4, g3, g2, g1. cbn [nodes]. by rewrite <- fmap_app. }
  rewrite Hk5 in *. clear Hk5.
  unfold keys in Hnil5. cbn [nodes] in Hnil5.
  rewrite (keys_apply_last _ _ _ _ passenger_set_attribute) in Hnil5.
  exists f1, f2, f3, f4, f5, n1, n2, n3, n4. cbn zeta.
  repeat split; done.
Qed.

Lemma exec_import_run rt g b :
  well_keyed g →
  ∃ f1 f2 f3 f4 f5 n1 n2 n3 n4,
    let ns4 := (((nodes g ++ f1) ++ f2) ++ f3) ++ f4 in
    let ks1 := node_key <$> (nodes g ++ f1) in
    let ks2 := node_key <$> ((nodes g ++ f1) ++ f2) in
    let ks3 := node_key <$> (((nodes g ++ f1) ++ f2) ++ f3) in
    let ks4 := node_key <$> ns4 in
    let ks5 := node_key <$> (ns4 ++ f5) in
    let rs1 := rels g ++ n1 in
    let rs2 := rs1 ++ n2 in
    let rs3 := rs2 ++ n3 in
    let rs4 := rs3 ++ n4 in
    exec_query (import_query rt) g b
    = Graph (apply_last journey_key (journey_set rt) b
               <$> ((apply_last passenger_key passenger_set b <$> ns4) ++ f5))
            rs4
    ∧ NoDup ks5 ∧ NoDup rs4
    ∧ (Forall (λ r, origin_key r ∈ ks1) b
       ∧ Forall (λ r, dest_key r ∈ ks2) b
       ∧ Forall (λ r, flight_key r ∈ ks3) b
       ∧ Forall (λ r, passenger_key r ∈ ks4) b
       ∧ Forall (λ r, journey_key r ∈ ks5) b)
    ∧ (Forall (λ r, (index_of (flight_key r) ks3, "DEPARTS_FROM",
                     index_of (origin_key r) ks1) ∈ rs1) b
       ∧ Forall (λ r, (index_of (flight_key r) ks3, "ARRIVES_AT",
                       index_of (dest_key r) ks2) ∈ rs2) b
       ∧ Forall (λ r, (index_of (passenger_key r) ks4, "TOOK",
                       index_of (journey_key r) ks5) ∈ rs3) b
       ∧ Forall (λ r, (index_of (journey_key r) ks5, "ON",
                       index_of (flight_key r) ks3) ∈ rs4) b)
    ∧ (Forall (λ n, ∃ r, r ∈ b ∧ n = Node "Airport" (list_to_map (origin_pat r))) f1
       ∧ Forall (λ n, ∃ r, r ∈ b ∧ n = Node "Airport" (list_to_map (dest_pat r))) f2
       ∧ Forall (λ n, ∃ r, r ∈ b ∧ n = Node "Flight" (list_to_map (flight_pat r))) f3
       ∧ Forall (λ n, ∃ r, r ∈ b ∧ n = Node "Passenger" (list_to_map (passenger_pat r))) f4
       ∧ Forall (λ n, ∃ r, r ∈ b ∧ n = Node "Journey" (list_to_map (journey_pat r))) f5)
    ∧ ((Forall (λ r, origin_key r ∈ keys g) b → f1 = [])
       ∧ (Forall (λ r, dest_key r ∈ ks1) b → f2 = [])
       ∧ (Forall (λ r, flight_key r ∈ ks2) b → f3 = [])
       ∧ (Forall (λ r, passenger_key r ∈ ks3) b → f4 = [])
       ∧ (Forall (λ r, journey_key r ∈ ks4) b → f5 = []))
    ∧ ((Forall (λ r, (index_of (flight_key r) ks3, "DEPARTS_FROM",
                      index_of (origin_key r) ks1) ∈ rels g) b → n1 = [])
       ∧ (Forall (λ r, (index_of (flight_key r) ks3, "ARRIVES_AT",
                        index_of (dest_key r) ks2) ∈ rs1) b → n2 = [])
       ∧ (Forall (λ r, (index_of (passenger_key r) ks4, "TOOK",
                        index_of (journey_key r) ks5) ∈ rs2) b → n3 = [])
       ∧ (Forall (λ r, (index_of (journey_key r) ks5, "ON",
                        index_of (flight_key r) ks3) ∈ rs3) b → n4 = [])).
Proof.
  intros Hg.
  destruct (exec_import_run_full rt g b Hg)
    as (f1 & f2 & f3 & f4 & f5 & n1 & n2 & n3 & n4 & H).
  exists f1, f2, f3, f4, f5, n1, n2, n3, n4. cbn zeta in *.
  destruct H as (H1 & H2 & H3 & H4 & H5 & H6 & H7 & H8 & _).
  repeat split; first [exact H1|exact H2|exact H3|apply H4|apply H5|apply H6
                      |apply H7|apply H8].
Qed.

Lemma overwrite_key rt rows n : node_key (overwrite rt rows n) = node_key n.
Proof.
  unfold overwrite.
  rewrite (apply_last_key _ _ (journey_set_attribute rt)).
  apply (apply_last_key _ _ passenger_set_attribute).
Qed.

Lemma keys_overwrite rt rows (ns : list node) :
  node_key <$> (overwrite rt rows <$> ns) = node_key <$> ns.
Proof.
  rewrite <- list_fmap_compose. apply list_fmap_ext.
  intros i n _. apply overwrite_key.
Qed.

Lemma index_of_prefix K ks l :
  ks `prefix_of` l → K ∈ ks → K ∈ l ∧ index_of K l = index_of K ks.
Proof.
  intros [more ->] Hin. split; [apply elem_of_app; by left|].
  by apply index_of_app_l.
Qed.

Ltac prefix_solve := repeat first [reflexivity | apply prefix_app_r].

Ltac nil_r H := repeat rewrite app_nil_r in H.

Lemma exec_import_full rt g b :
  well_keyed g →
  ∃ fresh new,
    let g' := Graph (overwrite rt b <$> (nodes g ++ fresh)) (rels g ++ new) in
    exec_query (import_query rt) g b = g'
    ∧ keys g' = keys g ++ (node_key <$> fresh)
    ∧ well_keyed g'
    ∧ Forall (absorbed g') b
    ∧ Forall (λ n, ∃ r, r ∈ b ∧ n ∈ row_nodes r) fresh
    ∧ (Forall (absorbed g) b → fresh = [] ∧ new = [])
    ∧ Forall (λ x, ∃ r, r ∈ b ∧ x ∈ GraphSpec.row_rels (keys g') r) new.
Proof.
  intros Hg.
  destruct (exec_import_run_full rt g b Hg)
    as (f1 & f2 & f3 & f4 & f5 & n1 & n2 & n3 & n4 & Hrun & Hnd & Hrel
        & (Ho & Hd & Hf & Hp & Hj) & (Hr1 & Hr2 & Hr3 & Hr4)
        & (Hf1 & Hf2 & Hf3 & Hf4 & Hf5)
        & (Hz1 & Hz2 & Hz3 & Hz4 & Hz5) & (Hy1 & Hy2 & Hy3 & Hy4)
        & (Hx1 & Hx2 & Hx3 & Hx4)).
  cbn zeta in *.
  exists ((((f1 ++ f2) ++ f3) ++ f4) ++ f5), (((n1 ++ n2) ++ n3) ++ n4).
  cbn zeta.
  assert (Hns : nodes g ++ (((f1 ++ f2) ++ f3) ++ f4) ++ f5
                = ((((nodes g ++ f1) ++ f2) ++ f3) ++ f4) ++ f5)
    by (by rewrite !app_assoc).
  assert (Hrs : rels g ++ ((n1 ++ n2) ++ n3) ++ n4
                = (((rels g ++ n1) ++ n2) ++ n3) ++ n4)
    by (by rewrite !app_assoc).
  rewrite Hns, Hrs. unfold keys at 1 2, well_keyed, keys. cbn [nodes rels].
  rewrite keys_overwrite.
  split; [|split; [|split; [|split; [|split; [|split]]]]].
  - rewrite Hrun. f_equal. rewrite !(fmap_app _ _ f5). f_equal.
    + by rewrite <- list_fmap_compose.
    + apply Forall_fmap_ext. eapply Forall_impl; [exact Hf5|].
      intros n (r & _ & ->). unfold overwrite.
      by rewrite (apply_last_other passenger_key passenger_set b).
  - by rewrite <- Hns, fmap_app.
  - done.
  - apply Forall_forall. intros r Hr.
    rewrite Forall_forall in Ho, Hd, Hf, Hp, Hj, Hr1, Hr2, Hr3, Hr4.
    specialize (Ho r Hr). specialize (Hd r Hr). specialize (Hf r Hr).
    specialize (Hp r Hr). specialize (Hj r Hr). specialize (Hr1 r Hr).
    specialize (Hr2 r Hr). specialize (Hr3 r Hr). specialize (Hr4 r Hr).
    unfold absorbed, keys. cbn [nodes rels]. rewrite keys_overwrite.
    rewrite !(fmap_app node_key) in *.
    set (kA := node_key <$> nodes g) in *.
    set (k1 := node_key <$> f1) in *. set (k2 := node_key <$> f2) in *.
    set (k3 := node_key <$> f3) in *. set (k4 := node_key <$> f4) in *.
    set (k5 := node_key <$> f5) in *.
    destruct (index_of_prefix (origin_key r) (kA ++ k1)
                (((((kA ++ k1) ++ k2) ++ k3) ++ k4) ++ k5))
      as [Ho' ->]; [prefix_solve|done|].
    destruct (index_of_prefix (dest_key r) ((kA ++ k1) ++ k2)
                (((((kA ++ k1) ++ k2) ++ k3) ++ k4) ++ k5))
      as [Hd' ->]; [prefix_solve|done|].
    destruct (index_of_prefix (flight_key r) (((kA ++ k1) ++ k2) ++ k3)
                (((((kA ++ k1) ++ k2) ++ k3) ++ k4) ++ k5))
      as [Hf' ->]; [prefix_solve|done|].
    destruct (index_of_prefix (passenger_key r)
                ((((kA ++ k1) ++ k2) ++ k3) ++ k4)
                (((((kA ++ k1) ++ k2) ++ k3) ++ k4) ++ k5))
      as [Hp' ->]; [prefix_solve|done|].
    split; [done|]. split; [done|]. split; [done|]. split; [done|].
    split; [done|].
    split; [do 3 (apply elem_of_app; left); exact Hr1|].
    split; [do 2 (apply elem_of_app; left); exact Hr2|].
    split; [apply elem_of_app; left; exact Hr3|exact Hr4].
  - rewrite !Forall_app. repeat split.
    + eapply Forall_impl; [exact Hf1|]. intros n (r & Hr & ->).
      exists r. split; [done|]. unfold row_nodes. left.
    + eapply Forall_impl; [exact Hf2|]. intros n (r & Hr & ->).
      exists r. split; [done|]. unfold row_nodes. right. left.
    + eapply Forall_impl; [exact Hf3|]. intros n (r & Hr & ->).
      exists r. split; [done|]. unfold row_nodes. do 2 right. left.
    + eapply Forall_impl; [exact Hf4|]. intros n (r & Hr & ->).
      exists r. split; [done|]. unfold row_nodes. do 3 right. left.
    + eapply Forall_impl; [exact Hf5|]. intros n (r & Hr & ->).
      exists r. split; [done|]. unfold row_nodes. do 4 right. left.
  - intros Hall. rewrite Forall_forall in Hall. unfold absorbed, keys in Hall.
    assert (E1 : f1 = [])
      by (apply Hz1, Forall_forall; intros r Hr; apply (Hall r Hr)).
    subst f1. nil_r Hz2; nil_r Hz3; nil_r Hz4; nil_r Hz5; nil_r Hy1;
      nil_r Hy2; nil_r Hy3; nil_r Hy4.
    assert (E2 : f2 = [])
      by (apply Hz2, Forall_forall; intros r Hr; apply (Hall r Hr)).
    subst f2. nil_r Hz3; nil_r Hz4; nil_r Hz5; nil_r Hy1; nil_r Hy2;
      nil_r Hy3; nil_r Hy4.
    assert (E3 : f3 = [])
      by (apply Hz3, Forall_forall; intros r Hr; apply (Hall r Hr)).
    subst f3. nil_r Hz4; nil_r Hz5; nil_r Hy1; nil_r Hy2; nil_r Hy3;
      nil_r Hy4.
    assert (E4 : f4 = [])
      by (apply Hz4, Forall_forall; intros r Hr; apply (Hall r Hr)).
    subst f4. nil_r Hz5; nil_r Hy1; nil_r Hy2; nil_r Hy3; nil_r Hy4.
    assert (E5 : f5 = [])
      by (apply Hz5, Forall_forall; intros r Hr; apply (Hall r Hr)).
    subst f5. nil_r Hy1; nil_r Hy2; nil_r Hy3; nil_r Hy4.
    assert (F1 : n1 = [])
      by (apply Hy1, Forall_forall; intros r Hr; apply (Hall r Hr)).
    subst n1. nil_r Hy2; nil_r Hy3; nil_r Hy4.
    assert (F2 : n2 = [])
      by (apply Hy2, Forall_forall; intros r Hr; apply (Hall r Hr)).
    subst n2. nil_r Hy3; nil_r Hy4.
    assert (F3 : n3 = [])
      by (apply Hy3, Forall_forall; intros r Hr; apply (Hall r Hr)).
    subst n3. nil_r Hy4.
    assert (F4 : n4 = [])
      by (apply Hy4, Forall_forall; intros r Hr; apply (Hall r Hr)).
    subst n4. done.
  - rewrite Forall_forall in Ho, Hd, Hf, Hp, Hj.
    rewrite !(fmap_app node_key) in *.
    set (kA := node_key <$> nodes g) in *.
    set (k1 := node_key <$> f1) in *. set (k2 := node_key <$> f2) in *.
    set (k3 := node_key <$> f3) in *. set (k4 := node_key <$> f4) in *.
    set (k5 := node_key <$> f5) in *.
    assert (Hix : ∀ r, r ∈ b →
      index_of (origin_key r) (((((kA ++ k1) ++ k2) ++ k3) ++ k4) ++ k5)
      = index_of (origin_key r) (kA ++ k1)
      ∧ index_of (dest_key r) (((((kA ++ k1) ++ k2) ++ k3) ++ k4) ++ k5)
        = index_of (dest_key r) ((kA ++ k1) ++ k2)
      ∧ index_of (flight_key r) (((((kA ++ k1) ++ k2) ++ k3) ++ k4) ++ k5)
        = index_of (flight_key r) (((kA ++ k1) ++ k2) ++ k3)
      ∧ index_of (passenger_key r)
          (((((kA ++ k1) ++ k2) ++ k3) ++ k4) ++ k5)
        = index_of (passenger_key r) ((((kA ++ k1) ++ k2) ++ k3) ++ k4)).
    { intros r Hr.
      specialize (Ho r Hr). specialize (Hd r Hr). specialize (Hf r Hr).
      specialize (Hp r Hr).
      destruct (index_of_prefix (origin_key r) (kA ++ k1)
                  (((((kA ++ k1) ++ k2) ++ k3) ++ k4) ++ k5))
        as [_ ->]; [prefix_solve|done|].
      destruct (index_of_prefix (dest_key r) ((kA ++ k1) ++ k2)
                  (((((kA ++ k1) ++ k2) ++ k3) ++ k4) ++ k5))
        as [_ ->]; [prefix_solve|done|].
      destruct (index_of_prefix (flight_key r) (((kA ++ k1) ++ k2) ++ k3)
                  (((((kA ++ k1) ++ k2) ++ k3) ++ k4) ++ k5))
        as [_ ->]; [prefix_solve|done|].
      destruct (index_of_prefix (passenger_key r)
                  ((((kA ++ k1) ++ k2) ++ k3) ++ k4)
                  (((((kA ++ k1) ++ k2) ++ k3) ++ k4) ++ k5))
        as [_ ->]; [prefix_solve|done|].
      done. }
    unfold GraphSpec.row_rels, GraphSpec.row_links.
    cbn [fmap list_fmap fst snd].
    rewrite !Forall_app. repeat split.
    + eapply Forall_impl; [exact Hx1|]. intros x (r & Hr & ->).
      exists r. split; [done|]. destruct (Hix r Hr) as (-> & _ & -> & _).
      left.
    + eapply Forall_impl; [exact Hx2|]. intros x (r & Hr & ->).
      exists r. split; [done|]. destruct (Hix r Hr) as (_ & -> & -> & _).
      right. left.
    + eapply Forall_impl; [exact Hx3|]. intros x (r & Hr & ->).
      exists r. split; [done|]. destruct (Hix r Hr) as (_ & _ & _ & ->).
      do 2 right. left.
    + eapply Forall_impl; [exact Hx4|]. intros x (r & Hr & ->).
      exists r. split; [done|]. destruct (Hix r Hr) as (_ & _ & -> & _).
      do 3 right. left.
Qed.

Lemma exec_import rt g b :
  well_keyed g →
  ∃ fresh new,
    let g' := Graph (overwrite rt b <$> (nodes g ++ fresh)) (rels g ++ new) in
    exec_query (import_query rt) g b = g'
    ∧ keys g' = keys g ++ (node_key <$> fresh)
    ∧ well_keyed g'
    ∧ Forall (absorbed g') b
    ∧ Forall (λ n, ∃ r, r ∈ b ∧ n ∈ row_nodes r) fresh
    ∧ (Forall (absorbed g) b → fresh = [] ∧ new = []).
Proof.
  intros Hg.
  destruct (exec_import_full rt g b Hg)
    as (fresh & new & Hrun & Hk & Hg' & Hab & Hfr & Hnil & _).
  by exists fresh, new.
Qed.

(** *** Attributes across batches *)

Lemma apply_last_settle K a (Ha : attribute_set a) R b n :
  (last_writer K b n = None → apply_last K a R n = n) →
  apply_last K a (R ++ b) (apply_last K a b n) = apply_last K a b n.
Proof.
  intros Hn. rewrite (apply_last_app K a Ha).
  destruct (last_writer K b n) as [r|] eqn:Hw.
  - assert (Hb : ∀ m, node_key m = node_key n →
                      apply_last K a b m = set_node (a r) m).
    { intros m Hm. unfold apply_last.
      by rewrite (last_writer_key K b m n Hm), Hw. }
    rewrite (Hb n eq_refl). rewrite Hb.
    2: { by rewrite (apply_last_key K a Ha), (set_node_key a Ha). }
    unfold apply_last.
    destruct (last_writer K R (set_node (a r) n));
      by rewrite !(set_node_overwrite a Ha).
  - assert (Hb : apply_last K a b n = n) by (unfold apply_last; by rewrite Hw).
    rewrite Hb, (Hn eq_refl). done.
Qed.

Lemma key_label n : (node_key n).1 = label n.
Proof. done. Qed.

Lemma overwrite_passenger rt rows n :
  label n = "Passenger" →
  overwrite rt rows n = apply_last passenger_key passenger_set rows n.
Proof.
  intros Hl. unfold overwrite. apply apply_last_other. intros r.
  rewrite apply_last_label, Hl. done.
Qed.

Lemma overwrite_other rt rows n :
  label n ≠ "Passenger" →
  overwrite rt rows n = apply_last journey_key (journey_set rt) rows n.
Proof.
  intros Hl. unfold overwrite.
  rewrite (apply_last_other passenger_key passenger_set rows n); [done|].
  intros r. cbn. congruence.
Qed.

Lemma overwrite_label rt rows n : label (overwrite rt rows n) = label n.
Proof. unfold overwrite. by rewrite !apply_last_label. Qed.

Lemma overwrite_app rt R b n :
  overwrite rt (R ++ b) n = overwrite rt b (overwrite rt R n).
Proof.
  destruct (decide (label n = "Passenger")) as [Hl|Hl].
  - rewrite (overwrite_passenger rt (R ++ b) n Hl),
      (overwrite_passenger rt R n Hl).
    rewrite overwrite_passenger by (by rewrite apply_last_label).
    apply (apply_last_app _ _ passenger_set_attribute).
  - rewrite (overwrite_other rt (R ++ b) n Hl), (overwrite_other rt R n Hl).
    rewrite overwrite_other by (by rewrite apply_last_label).
    apply (apply_last_app _ _ (journey_set_attribute rt)).
Qed.

(** A node keeps the attributes of its last writer in [R ++ b] once the
    writers of [b] have been applied, provided it was settled for [R] in
    case [b] does not write it. *)
Lemma overwrite_settle rt R b n :
  (last_writer passenger_key b n = None →
   last_writer journey_key b n = None → overwrite rt R n = n) →
  overwrite rt (R ++ b) (overwrite rt b n) = overwrite rt b n.
Proof.
  intros Hn. destruct (decide (label n = "Passenger")) as [Hl|Hl].
  - rewrite (overwrite_passenger rt b n Hl).
    rewrite overwrite_passenger by (by rewrite apply_last_label).
    apply (apply_last_settle _ _ passenger_set_attribute). intros Hw.
    rewrite <- (overwrite_passenger rt R n Hl). apply Hn; [done|].
    apply last_writer_None, Forall_forall. intros r _ Hk.
    apply (f_equal fst) in Hk. cbn in Hk. congruence.
  - rewrite (overwrite_other rt b n Hl).
    rewrite overwrite_other by (by rewrite apply_last_label).
    apply (apply_last_settle _ _ (journey_set_attribute rt)). intros Hw.
    rewrite <- (overwrite_other rt R n Hl). apply Hn; [|done].
    apply last_writer_None, Forall_forall. intros r _ Hk.
    apply (f_equal fst) in Hk. cbn in Hk. congruence.
Qed.


(** *** Batches one after the other *)

Lemma absorbed_mono g g' r more new :
  keys g' = keys g ++ more → rels g' = rels g ++ new →
  absorbed g r → absorbed g' r.
Proof.
  intros Hk Hr (Ho & Hd & Hf & Hp & Hj & H1 & H2 & H3 & H4).
  unfold absorbed. rewrite Hk, Hr.
  rewrite !index_of_app_l by done.
  repeat split; apply elem_of_app; by left.
Qed.

Lemma absorbed_same g g' r :
  keys g' = keys g → rels g' = rels g → absorbed g r → absorbed g' r.
Proof. unfold absorbed. by intros -> ->. Qed.

(** A node created for a record of [b] is written by [b] if it is a
    passenger or a journey, and has no attributes to write otherwise. *)
Lemma fresh_written rt R b n :
  (∃ r, r ∈ b ∧ n ∈ row_nodes r) →
  last_writer passenger_key b n = None →
  last_writer journey_key b n = None →
  overwrite rt R n = n.
Proof.
  intros (r & Hr & Hn) Hp Hj. unfold row_nodes in Hn.
  rewrite last_writer_None, Forall_forall in Hp, Hj.
  repeat (apply elem_of_cons in Hn as [->|Hn]).
  - rewrite overwrite_other by done. by apply apply_last_other.
  - rewrite overwrite_other by done. by apply apply_last_other.
  - rewrite overwrite_other by done. by apply apply_last_other.
  - destruct (Hp r Hr). symmetry. by apply fresh_node_key.
  - destruct (Hj r Hr). symmetry. by apply fresh_node_key.
  - by apply elem_of_nil in Hn.
Qed.

Lemma settled_step rt g R b :
  well_keyed g → settled rt g R →
  settled rt (exec_query (import_query rt) g b) (R ++ b).
Proof.
  intros Hg Hs.
  destruct (exec_import rt g b Hg) as (fresh & new & Hrun & _ & _ & _ & Hfr & _).
  cbn zeta in Hrun. rewrite Hrun. unfold settled in *. cbn [nodes].
  apply Forall_fmap, Forall_app. split.
  - eapply Forall_impl; [exact Hs|]. intros n Hn.
    apply overwrite_settle. by intros _ _.
  - eapply Forall_impl; [exact Hfr|]. intros n Hn.
    apply overwrite_settle. by apply fresh_written.
Qed.

(** What holds of the graph after any number of batches. *)
Lemma import_graph_inv rt bs : ∀ g R,
  well_keyed g → Forall (absorbed g) R → settled rt g R →
  well_keyed (import_graph rt g bs)
  ∧ Forall (absorbed (import_graph rt g bs)) (R ++ concat bs)
  ∧ settled rt (import_graph rt g bs) (R ++ concat bs).
Proof.
  induction bs as [|b bs IH]; intros g R Hg Ha Hs.
  - cbn [import_graph foldl concat]. by rewrite app_nil_r.
  - cbn [concat]. rewrite app_assoc.
    change (import_graph rt g (b :: bs))
      with (import_graph rt (exec_query (import_query rt) g b) bs).
    destruct (exec_import rt g b Hg)
      as (fresh & new & Hrun & Hk & Hg' & Hab & _ & _).
    cbn zeta in *. apply IH.
    + by rewrite Hrun.
    + rewrite Hrun. apply Forall_app. split; [|done].
      eapply Forall_impl; [exact Ha|]. intros r.
      by apply (absorbed_mono _ _ r (node_key <$> fresh) new).
    + by apply settled_step.
Qed.

Lemma overwrite_nil rt n : overwrite rt [] n = n.
Proof. done. Qed.

(** A batch whose records are all in the graph only rewrites attributes. *)
Lemma rerun rt g b :
  well_keyed g → Forall (absorbed g) b →
  exec_query (import_query rt) g b
  = Graph (overwrite rt b <$> nodes g) (rels g).
Proof.
  intros Hg Ha.
  destruct (exec_import rt g b Hg) as (fresh & new & Hrun & _ & _ & _ & _ & Hnil).
  destruct (Hnil Ha) as [-> ->]. cbn zeta in Hrun.
  by rewrite !app_nil_r in Hrun.
Qed.

Lemma reimport rt bs : ∀ g,
  well_keyed g → Forall (absorbed g) (concat bs) →
  import_graph rt g bs
  = Graph (overwrite rt (concat bs) <$> nodes g) (rels g).
Proof.
  induction bs as [|b bs IH]; intros g Hg Ha.
  - cbn [import_graph foldl concat]. destruct g as [ns rs]. cbn [nodes rels].
    f_equal. rewrite <- (list_fmap_id ns) at 1. apply list_fmap_ext.
    intros i n _. done.
  - cbn [concat] in *. apply Forall_app in Ha as [Hb Ha].
    change (import_graph rt g (b :: bs))
      with (import_graph rt (exec_query (import_query rt) g b) bs).
    rewrite (rerun rt g b Hg Hb).
    assert (Hk : keys (Graph (overwrite rt b <$> nodes g) (rels g)) = keys g).
    { unfold keys. cbn [nodes]. apply keys_overwrite. }
    rewrite IH.
    + cbn [nodes rels]. f_equal. rewrite <- list_fmap_compose.
      apply list_fmap_ext. intros i n _. cbn. by rewrite overwrite_app.
    + destruct Hg as [Hg1 Hg2]. split; [by rewrite Hk|done].
    + eapply Forall_impl; [exact Ha|]. intros r. by apply absorbed_same.
Qed.

Lemma well_keyed_empty : well_keyed Graph.empty.
Proof. split; constructor. Qed.

(** Importing again the batches a graph was built from changes nothing. *)
Lemma import_graph_idempotent rt bs :
  import_graph rt (import_graph rt Graph.empty bs) bs
  = import_graph rt Graph.empty bs.
Proof.
  destruct (import_graph_inv rt bs Graph.empty [] well_keyed_empty)
    as (Hg & Ha & Hs); [constructor..|].
  cbn [app] in Ha, Hs. rewrite (reimport rt bs _ Hg Ha).
  destruct (import_graph rt Graph.empty bs) as [ns rs]. unfold settled in Hs.
  cbn [nodes rels] in *. f_equal.
  rewrite <- (list_fmap_id ns) at 2. by apply Forall_fmap_ext.
Qed.


(** *** What the last writer leaves *)

Lemma last_writer_passenger rows n k :
  label n = "Passenger" → props n !! "record_locator" = Some (PStr k) →
  last_writer passenger_key rows n = last_with record_locator k rows.
Proof.
  intros Hl Hk. unfold last_writer, last_with. f_equal.
  apply list_filter_iff. intros r.
  unfold passenger_key, pattern_key, passenger_pat, node_key.
  rewrite Hl. change (schema_keys "Passenger") with ["record_locator"].
  cbn [fmap list_fmap fst snd]. rewrite Hk. split.
  - by intros [= ->].
  - by intros ->.
Qed.

Lemma last_writer_journey rows n k :
  label n = "Journey" → props n !! "feedback_ID" = Some (PStr k) →
  last_writer journey_key rows n = last_with feedback_ID k rows.
Proof.
  intros Hl Hk. unfold last_writer, last_with. f_equal.
  apply list_filter_iff. intros r.
  unfold journey_key, pattern_key, journey_pat, node_key.
  rewrite Hl. change (schema_keys "Journey") with ["feedback_ID"].
  cbn [fmap list_fmap fst snd]. rewrite Hk. split.
  - by intros [= ->].
  - by intros ->.
Qed.

Lemma passenger_set_has n r : passenger_has (set_node (passenger_set r) n) r.
Proof.
  unfold passenger_has, set_node, set_all, passenger_set.
  cbn [props foldl fst snd set_prop].
  split; [by rewrite lookup_insert_ne, lookup_insert_eq|].
  by rewrite lookup_insert_eq.
Qed.

Lemma journey_set_has rt n r : journey_has rt (set_node (journey_set rt r) n) r.
Proof.
  unfold journey_has, set_node, set_all, journey_set.
  cbn [props foldl fst snd]. rewrite !lookup_set_prop.
  repeat split; repeat case_decide; done.
Qed.

(** A node that is its own overwrite carries what its last writer set. *)
Lemma settled_passenger rt rows n k r :
  overwrite rt rows n = n →
  label n = "Passenger" → props n !! "record_locator" = Some (PStr k) →
  last_with record_locator k rows = Some r →
  passenger_has n r.
Proof.
  intros Hs Hl Hk Hw. rewrite <- (last_writer_passenger rows n k Hl Hk) in Hw.
  rewrite (overwrite_passenger rt rows n Hl) in Hs.
  unfold apply_last in Hs. rewrite Hw in Hs. rewrite <- Hs.
  apply passenger_set_has.
Qed.

Lemma settled_journey rt rows n k r :
  overwrite rt rows n = n →
  label n = "Journey" → props n !! "feedback_ID" = Some (PStr k) →
  last_with feedback_ID k rows = Some r →
  journey_has rt n r.
Proof.
  intros Hs Hl Hk Hw. rewrite <- (last_writer_journey rows n k Hl Hk) in Hw.
  rewrite (overwrite_other rt rows n) in Hs by (by rewrite Hl).
  unfold apply_last in Hs. rewrite Hw in Hs. rewrite <- Hs.
  apply journey_set_has.
Qed.

Lemma overwrite_idemp rt rows n :
  overwrite rt rows (overwrite rt rows n) = overwrite rt rows n.
Proof.
  destruct (decide (label n = "Passenger")) as [Hl|Hl].
  - rewrite (overwrite_passenger rt rows n Hl).
    rewrite overwrite_passenger by (by rewrite apply_last_label).
    apply (apply_last_idemp _ _ passenger_set_attribute).
  - rewrite (overwrite_other rt rows n Hl).
    rewrite overwrite_other by (by rewrite apply_last_label).
    apply (apply_last_idemp _ _ (journey_set_attribute rt)).
Qed.


(** *** Integer coercion *)





End UpsertFacts.

(** ** Loading, and loading again *)

Module LoadFacts.
Import Frame Graph Upsert Store Prog TraceSpec LoadSpec UpsertFacts CreateKg.

Lemma rerun_attributes rt g b n :
  well_keyed g → Forall (absorbed g) b →
  n ∈ nodes (exec_query (import_query rt) g b) →
  overwrite rt b n = n.
Proof.
  intros Hg Ha. rewrite (rerun rt g b Hg Ha). cbn [nodes].
  intros (n0 & -> & _)%list_elem_of_fmap. apply overwrite_idemp.
Qed.

(** C1.  Loading the same batches a second time leaves the graph as the
    first load left it, so the node and relationship counts are those of one
    load (no two nodes share an identity key, and every record has its
    Passenger and its Journey node); re-executing the import on any rows already processed adds no node
    and no relationship; and each Passenger and Journey node carries the
    attributes of the last record with its key, in the re-executed batch
    after a re-execution and in the whole input after a load.  The same
    holds of the loader run twice on the same file from an empty graph. *)
Theorem reload_is_idempotent (rt : runtime) :
  (∀ bs : list (list row_data),
     let rows := concat bs in
     let g := import_graph rt Graph.empty bs in
     import_graph rt g bs = g
     ∧ NoDup (keys g)
     ∧ (∀ r, r ∈ rows → passenger_key r ∈ keys g ∧ journey_key r ∈ keys g)
     ∧ length (nodes (import_graph rt g bs)) = length (nodes g)
     ∧ length (rels (import_graph rt g bs)) = length (rels g)
     ∧ (∀ b, b ⊆ rows →
          let g' := exec_query (import_query rt) g b in
          length (nodes g') = length (nodes g)
          ∧ rels g' = rels g
          ∧ keys g' = keys g
          ∧ ∀ n k r, n ∈ nodes g' →
              (label n = "Passenger" →
               props n !! "record_locator" = Some (PStr k) →
               last_with record_locator k b = Some r → passenger_has n r)
              ∧ (label n = "Journey" →
                 props n !! "feedback_ID" = Some (PStr k) →
                 last_with feedback_ID k b = Some r → journey_has rt n r))
     ∧ (∀ n k r, n ∈ nodes g →
          (label n = "Passenger" →
           props n !! "record_locator" = Some (PStr k) →
           last_with record_locator k rows = Some r → passenger_has n r)
          ∧ (label n = "Journey" →
             props n !! "feedback_ID" = Some (PStr k) →
             last_with feedback_ID k rows = Some r → journey_has rt n r)))
  ∧ (∀ (fs : files) (csv_path : string) (w : world),
       graph_of (the_store w) = Graph.empty →
       let w1 := (load_csv_data rt fs csv_path w).2 in
       let w2 := (load_csv_data rt fs csv_path w1).2 in
       graph_of (the_store w2) = graph_of (the_store w1)).
Proof.
  split.
  - intros bs rows g.
    destruct (import_graph_inv rt bs Graph.empty [] well_keyed_empty)
      as (Hg & Ha & Hs); [constructor..|].
    cbn [app] in Ha, Hs. fold rows in Ha, Hs. fold g in Hg, Ha, Hs.
    pose proof (import_graph_idempotent rt bs) as Hid. fold g in Hid.
    split; [done|]. split; [exact (proj1 Hg)|].
    split.
    { intros r Hr. rewrite Forall_forall in Ha.
      destruct (Ha r Hr) as (_ & _ & _ & Hp & Hj & _). by split. }
    split; [by rewrite Hid|]. split; [by rewrite Hid|].
    split.
    + intros b Hb g'.
      assert (Hab : Forall (absorbed g) b).
      { apply Forall_forall. intros r Hr.
        rewrite Forall_forall in Ha. apply Ha, Hb, Hr. }
      assert (Hg' : g' = Graph (overwrite rt b <$> nodes g) (rels g))
        by apply (rerun rt g b Hg Hab).
      split; [rewrite Hg'; cbn [nodes]; apply length_fmap|].
      split; [by rewrite Hg'|].
      split; [rewrite Hg'; unfold keys; cbn [nodes]; apply keys_overwrite|].
      intros n k r Hn.
      pose proof (rerun_attributes rt g b n Hg Hab Hn) as Hov.
      split; intros Hl Hk Hw.
      * by apply (settled_passenger rt b n k r).
      * by apply (settled_journey rt b n k r).
    + intros n k r Hn. unfold settled in Hs. rewrite Forall_forall in Hs.
      specialize (Hs n Hn). split; intros Hl Hk Hw.
      * by apply (settled_passenger rt rows n k r).
      * by apply (settled_journey rt rows n k r).
  - intros fs csv_path w Hw w1 w2.
    destruct (ProgramFacts.load_csv_data_uniform rt fs csv_path)
      as (bs & evs & _ & Hload).
    unfold w2, w1. rewrite !Hload. cbn [snd the_store].
    rewrite !ProgramFacts.import_batches_graph. cbn [graph_of].
    rewrite Hw. apply import_graph_idempotent.
Qed.

Lemma reload_is_idempotent_witness :
  let g := import_graph Samples.sample_runtime Graph.empty
             Samples.sample_batches in
  let g' := exec_query (import_query Samples.sample_runtime) g
              (take 2 Samples.sample_records) in
  import_graph Samples.sample_runtime g Samples.sample_batches = g
  ∧ length (nodes g') = length (nodes g)
  ∧ rels g' = rels g.
Proof.
  intros g g'.
  destruct (proj1 (reload_is_idempotent Samples.sample_runtime)
              Samples.sample_batches) as (Hid & _ & _ & _ & _ & Hre & _).
  split; [exact Hid|].
  destruct (Hre (take 2 Samples.sample_records)) as (Hn & Hr & _).
  - intros r Hr. unfold Samples.sample_batches. cbn [concat].
    apply elem_of_app. by left.
  - split; [exact Hn|exact Hr].
Defined.





End LoadFacts.

(** ** Configuration files, further *)

Module ConfigProps.
Import PyStr Config ConfigSpec ConfigFacts.

Lemma append_nil_l s : "" +:+ s = s.
Proof. done. Qed.

Lemma append_cons c s t : String c s +:+ t = String c (s +:+ t).
Proof. done. Qed.


Lemma contains_eq_app s t :
  contains_eq (s +:+ t) = contains_eq s || contains_eq t.
Proof.
  induction s as [|c s IH]; [done|].
  rewrite append_cons. simpl. by rewrite IH, orb_assoc.
Qed.










Lemma lstrip_cut k v : lstrip (k +:+ "=" +:+ v) = lstrip k +:+ "=" +:+ v.
Proof.
  induction k as [|c k IH]; [done|].
  change (String c k +:+ "=" +:+ v) with (String c (k +:+ "=" +:+ v)).
  simpl. by destruct (is_space c).
Qed.

Lemma rstrip_cut k v : rstrip (k +:+ "=" +:+ v) = k +:+ "=" +:+ rstrip v.
Proof.
  induction k as [|c k IH].
  - rewrite !append_nil_l, !append_cons, !append_nil_l. simpl.
    by destruct (rstrip v).
  - change (String c k +:+ "=" +:+ v) with (String c (k +:+ "=" +:+ v)).
    change (String c k +:+ "=" +:+ rstrip v)
      with (String c (k +:+ "=" +:+ rstrip v)).
    simpl. rewrite IH. by destruct k.
Qed.

Lemma split_eq1_cut k v :
  contains_eq k = false → split_eq1 (k +:+ "=" +:+ v) = [k; v].
Proof.
  induction k as [|c k IH].
  - done.
  - change (String c k +:+ "=" +:+ v) with (String c (k +:+ "=" +:+ v)).
    simpl. intros [-> Hk]%orb_false_iff. by rewrite (IH Hk).
Qed.

End ConfigProps.


(** ** The programs, further *)

Module ProgramProps.
Import Frame Upsert Store Prog TraceSpec BuildSpec LoadSpec CreateKg.
Import ValidateQueries ProgSpec ProgramFacts.

Section WithRuntime.
Context (rt : runtime) (fs : files).

Lemma load_config_file file_path lines config w :
  text_files fs !! file_path = Some lines →
  Config.load_lines ∅ lines = Ok config →
  load_config fs file_path w = (Ok (Some config), w).
Proof. intros Hf Hl. unfold load_config. by rewrite Hf, Hl. Qed.

Lemma load_lines_no_eq lines : ∀ config,
  Forall (λ line, PyStr.contains_eq line = false) lines →
  Config.load_lines config lines = Ok config.
Proof.
  induction lines as [|line rest IH]; intros config Hall; [done|].
  inversion Hall as [|? ? Hl Hrest]; subst. simpl.
  rewrite (ConfigFacts.load_line_other config line Hl). by apply IH.
Qed.

Lemma main_empty_config lines w :
  text_files fs !! "config.txt" = Some lines →
  Config.load_lines ∅ lines = Ok ∅ →
  main rt fs w = (Ok (), w).
Proof.
  intros Hf Hl. unfold main. unfold mbind at 1. unfold M_bind at 1.
  by rewrite (load_config_file "config.txt" lines ∅ w Hf Hl).
Qed.

Lemma run_validation_empty_config lines w :
  text_files fs !! "config.txt" = Some lines →
  Config.load_lines ∅ lines = Ok ∅ →
  run_validation rt fs w = (Ok (), w).
Proof.
  intros Hf Hl. unfold run_validation. unfold mbind at 1. unfold M_bind at 1.
  by rewrite (load_config_file "config.txt" lines ∅ w Hf Hl).
Qed.

Lemma first_missing_Some config key :
  first_missing config = Some key →
  config !! key = None
  ∧ (key = "URI"
     ∨ (key = "USERNAME" ∧ is_Some (config !! "URI"))
     ∨ (key = "PASSWORD" ∧ is_Some (config !! "URI")
        ∧ is_Some (config !! "USERNAME"))).
Proof.
  unfold first_missing, credentials. simpl.
  repeat case_bool_decide; intros [= <-]; split; try done.
  - by left.
  - right. left. split; [done|]. by apply not_eq_None_Some.
  - right. right. repeat split; by apply not_eq_None_Some.
Qed.


Lemma main_missing_key lines config key w :
  text_files fs !! "config.txt" = Some lines →
  Config.load_lines ∅ lines = Ok config →
  config ≠ ∅ →
  first_missing config = Some key →
  main rt fs w
  = (Ok (),
     World (the_store w) (trace w ++ [Print (ErrorOccurred (KeyError key))])).
Proof.
  intros Hf Hl Hne Hk. unfold main. unfold mbind at 1. unfold M_bind at 1.
  rewrite (load_config_file "config.txt" lines config w Hf Hl).
  simpl. rewrite bool_decide_eq_false_2 by done. simpl.
  apply first_missing_Some in Hk as [Hnone Hcase].
  unfold try_except, mbind, M_bind, getitem.
  destruct Hcase as [->|[[-> [u Hu]]|(-> & [u Hu] & [n Hn])]].
  - by rewrite Hnone.
  - by rewrite Hu, Hnone.
  - by rewrite Hu, Hn, Hnone.
Qed.

Lemma run_validation_missing_key lines config key w :
  text_files fs !! "config.txt" = Some lines →
  Config.load_lines ∅ lines = Ok config →
  config ≠ ∅ →
  first_missing config = Some key →
  run_validation rt fs w = (Raise (KeyError key), w).
Proof.
  intros Hf Hl Hne Hk. unfold run_validation.
  unfold mbind at 1. unfold M_bind at 1.
  rewrite (load_config_file "config.txt" lines config w Hf Hl).
  simpl. rewrite bool_decide_eq_false_2 by done. simpl.
  apply first_missing_Some in Hk as [Hnone Hcase].
  unfold mbind, M_bind, getitem.
  destruct Hcase as [->|[[-> [u Hu]]|(-> & [u Hu] & [n Hn])]].
  - by rewrite Hnone.
  - by rewrite Hu, Hnone.
  - by rewrite Hu, Hn, Hnone.
Qed.




(** The build program with the three keys: the events between the loader's
    own need not be known here. *)
Lemma main_usable uri user password :
  usable_config fs uri user password →
  ∃ bs evs,
    statements evs = map ImportBatch bs
    ∧ ∀ w, main rt fs w
           = (Ok (),
              World
                (import_batches rt
                   (mkStore Graph.empty (declared (schema (the_store w)))) bs)
                (trace w ++ prelude uri user password ++ evs ++ epilogue)).
Proof.
  intros Hc.
  destruct (load_csv_data_uniform rt fs "Airline_surveys_sample.csv")
    as (bs & evs & Hst & Hload).
  exists bs, evs. split; [done|].
  by apply main_around_loader.
Qed.

Lemma print_all_spec ls w :
  print_all ls w
  = (Ok (),
     World (the_store w) (trace w ++ ((λ l, Print (Validation l)) <$> ls))).
Proof.
  revert w. induction ls as [|l ls IH]; intros w; simpl.
  - by rewrite world_eta.
  - unfold mbind, M_bind, print, emit. simpl. rewrite IH. simpl.
    by rewrite <- app_assoc.
Qed.

Lemma validate_one_spec q_num w :
  validate_one rt q_num w
  = (Ok (),
     World (the_store w)
       (trace w ++ validation_events rt (graph_of (the_store w)) q_num)).
Proof.
  unfold validate_one, mbind, M_bind, run. simpl.
  rewrite print_all_spec. simpl. by rewrite <- app_assoc.
Qed.

Lemma validate_all_spec qs : ∀ w,
  foldr (λ q_num k, validate_one rt q_num;; k) (mret ()) qs w
  = (Ok (),
     World (the_store w)
       (trace w
        ++ concat (validation_events rt (graph_of (the_store w)) <$> qs))).
Proof.
  induction qs as [|q qs IH]; intros w; simpl.
  - by rewrite world_eta.
  - unfold mbind, M_bind. rewrite validate_one_spec, IH. simpl.
    by rewrite <- app_assoc.
Qed.

Lemma run_validation_usable uri user password w :
  usable_config fs uri user password →
  run_validation rt fs w
  = (Ok (),
     World (the_store w)
       (trace w
        ++ [OpenDriver uri user password; OpenSession]
        ++ concat (validation_events rt (graph_of (the_store w)) <$> seq 1 5)
        ++ [CloseSession; CloseDriver])).
Proof.
  intros Hc.
  destruct (usable_config_loads fs uri user password w Hc)
    as (config & Hcfg & Ht & Hu & Hn & Hp).
  unfold run_validation. unfold mbind at 1. unfold M_bind at 1.
  rewrite Hcfg, Ht. cbn [negb]. change (default ∅ (Some config)) with config.
  unfold mbind, M_bind, getitem. rewrite Hu, Hn, Hp.
  unfold mret, M_ret, emit, with_session. cbn [the_store trace].
  pose proof (validate_all_spec (seq 1 5)
                (World (the_store w)
                   ((trace w ++ [OpenDriver uri user password])
                    ++ [OpenSession]))) as Hall.
  unfold mbind, M_bind, mret, M_ret in Hall. rewrite Hall.
  cbn [the_store trace graph_of]. by rewrite <- !app_assoc.
Qed.

(** *** Declarations *)

Lemma declare_present name d (s : gmap string decl) :
  is_Some (s !! name) → declare name d s = s.
Proof. intros [x Hx]. unfold declare. by rewrite Hx. Qed.

Lemma declare_keeps name d (s : gmap string decl) k x :
  s !! k = Some x → declare name d s !! k = Some x.
Proof.
  intros Hk. unfold declare. destruct (s !! name) eqn:Hn; [done|].
  rewrite lookup_insert_ne; [done|]. intros ->. congruence.
Qed.

Lemma declare_fresh name d (s : gmap string decl) :
  s !! name = None → declare name d s !! name = Some d.
Proof. intros Hn. unfold declare. by rewrite Hn, lookup_insert_eq. Qed.

Lemma declare_declares name d (s : gmap string decl) :
  is_Some (declare name d s !! name).
Proof.
  destruct (s !! name) as [x|] eqn:Hn.
  - exists x. by apply declare_keeps.
  - exists d. by apply declare_fresh.
Qed.

Lemma declare_mono name d (s : gmap string decl) k :
  is_Some (s !! k) → is_Some (declare name d s !! k).
Proof. intros [x Hx]. exists x. by apply declare_keeps. Qed.

Lemma declared_keeps (s : gmap string decl) k x :
  s !! k = Some x → declared s !! k = Some x.
Proof. intros Hk. unfold declared. by do 4 apply declare_keeps. Qed.

Lemma declared_names (s : gmap string decl) :
  Forall (λ name, is_Some (declared s !! name))
    ["passenger_id"; "journey_id"; "airport_id"; "flight_idx"].
Proof.
  unfold declared. repeat constructor.
  - do 3 apply declare_mono. apply declare_declares.
  - do 2 apply declare_mono. apply declare_declares.
  - apply declare_mono. apply declare_declares.
  - apply declare_declares.
Qed.

Lemma declared_idem (s : gmap string decl) : declared (declared s) = declared s.
Proof.
  pose proof (declared_names s) as Hn.
  rewrite !Forall_cons in Hn. destruct Hn as (Hp & Hj & Ha & Hf & _).
  unfold declared at 1.
  rewrite (declare_present "passenger_id" _ _ Hp).
  rewrite (declare_present "journey_id" _ _ Hj).
  rewrite (declare_present "airport_id" _ _ Ha).
  by rewrite (declare_present "flight_idx" _ _ Hf).
Qed.

(** *** The loader and the columns it reads *)



(** *** The loader's trace *)

Local Opaque batch_size.

Lemma chunk_0 {A} (b l : list A) :
  length b = batch_size → chunk batch_size 0 (b ++ l) = b.
Proof.
  intros Hb. unfold chunk. rewrite Nat.mul_0_r, drop_0.
  by rewrite take_app_length'.
Qed.

Lemma chunk_S {A} (b l : list A) i :
  length b = batch_size →
  chunk batch_size (S i) (b ++ l) = chunk batch_size i l.
Proof.
  intros Hb. unfold chunk. f_equal.
  replace (batch_size * S i)%nat with (length b + batch_size * i)%nat by lia.
  by rewrite drop_app_add.
Qed.

Lemma div_one_more n :
  ((batch_size + n) / batch_size = S (n / batch_size))%nat.
Proof.
  pose proof batch_size_pos as Hpos.
  replace (batch_size + n)%nat with (1 * batch_size + n)%nat by lia.
  by rewrite Nat.div_add_l by lia.
Qed.

Lemma loop_events_full total_rows base (b l : list row_data) :
  length b = batch_size →
  loop_events total_rows base (b ++ l)
  = Run (ImportBatch b) :: Print (Processed (base + batch_size) total_rows)
    :: loop_events total_rows (base + batch_size) l.
Proof.
  intros Hb. pose proof batch_size_pos as Hpos. unfold loop_events.
  rewrite length_app, Hb.
  rewrite (div_one_more (length l)).
  cbn [seq flat_map app]. rewrite (chunk_0 b l Hb).
  replace (base + batch_size * (0 + 1))%nat with (base + batch_size)%nat by lia.
  do 2 f_equal. rewrite <- fmap_S_seq.
  rewrite !flat_map_concat_map, <- list_fmap_compose. f_equal.
  apply list_fmap_ext. intros j i _. cbn. rewrite (chunk_S b l i Hb).
  do 4 f_equal. lia.
Qed.

Lemma loop_events_short total_rows base (l : list row_data) :
  (length l < batch_size)%nat → loop_events total_rows base l = [].
Proof. intros Hl. unfold loop_events. by rewrite Nat.div_small. Qed.

Lemma left_over_full {A} (b l : list A) :
  length b = batch_size →
  drop (batch_size * (length (b ++ l) / batch_size)) (b ++ l)
  = drop (batch_size * (length l / batch_size)) l.
Proof.
  intros Hb. pose proof batch_size_pos as Hpos. rewrite length_app, Hb.
  rewrite (div_one_more (length l)).
  replace (batch_size * S (length l / batch_size))%nat
    with (length b + batch_size * (length l / batch_size))%nat by lia.
  by rewrite drop_app_add.
Qed.

(** The loop, started with [base + length batch] rows read of which the
    last [length batch] are still to be sent. *)
Lemma import_loop_events rows : ∀ total_rows base batch w,
  (length batch < batch_size)%nat →
  let all := batch ++ map (make_row_data rt) rows in
  ∃ st,
    import_loop rt total_rows (base + length batch) rows batch w
    = (Ok (drop (batch_size * (length all / batch_size)) all),
       World st (trace w ++ loop_events total_rows base all)).
Proof.
  induction rows as [|row rows IH]; intros total_rows base batch w Hlen all.
  - subst all. cbn [map import_loop]. rewrite app_nil_r.
    rewrite (loop_events_short _ _ _ Hlen), Nat.div_small by done.
    rewrite Nat.mul_0_r, drop_0. exists (the_store w).
    by rewrite world_eta.
  - cbn [import_loop].
    destruct (batch_size <=? length (batch ++ [make_row_data rt row]))%nat
      eqn:Hfull.
    + apply Nat.leb_le in Hfull.
      assert (Hb : length (batch ++ [make_row_data rt row]) = batch_size).
      { rewrite length_app in *. cbn [length] in *. lia. }
      assert (Hall : all = (batch ++ [make_row_data rt row])
                           ++ map (make_row_data rt) rows).
      { subst all. cbn [map]. by rewrite <- app_assoc. }
      rewrite Hall, (loop_events_full _ _ _ _ Hb), (left_over_full _ _ Hb).
      unfold mbind, M_bind, run, print, emit. cbn [fst snd the_store trace].
      destruct (run_statement rt
                  (ImportBatch (batch ++ [make_row_data rt row])) (the_store w))
        as [st1 res1] eqn:Hrun. cbn [the_store trace].
      destruct (IH total_rows (base + batch_size)%nat []
                  (World st1
                     ((trace w
                       ++ [Run (ImportBatch
                                  (batch ++ [make_row_data rt row]))])
                      ++ [Print (Processed (base + length batch + 1)
                                   total_rows)]))
                  batch_size_pos) as (st & Hrec).
      cbn [app length] in Hrec.
      replace (S (base + length batch)) with (base + batch_size + 0)%nat
        by (rewrite length_app in Hb; cbn [length] in Hb; lia).
      rewrite Hrec. exists st. cbn [trace]. rewrite <- !app_assoc.
      cbn [app].
      replace (base + length batch + 1)%nat with (base + batch_size)%nat
        by (rewrite length_app in Hb; cbn [length] in Hb; lia).
      done.
    + apply Nat.leb_gt in Hfull.
      destruct (IH total_rows base (batch ++ [make_row_data rt row]) w Hfull)
        as (st & Hrec).
      cbn zeta in Hrec. rewrite length_app in Hrec. cbn [length] in Hrec.
      replace (S (base + length batch)) with (base + (length batch + 1))%nat
        by lia.
      rewrite Hrec. exists st. subst all. cbn [map].
      by rewrite <- !app_assoc.
Qed.

Lemma left_over_nil {A} (l : list A) :
  drop (batch_size * (length l / batch_size)) l = []
  ↔ (length l mod batch_size = 0)%nat.
Proof.
  pose proof batch_size_pos as Hpos.
  pose proof (Nat.div_mod_eq (length l) batch_size) as Hdm.
  rewrite <- skipn_all_iff. lia.
Qed.

Lemma load_csv_data_events csv_path df w :
  csv_files fs !! csv_path = Some df →
  filter (λ col, col ∉ columns df) required_cols = [] →
  ∃ st,
    load_csv_data rt fs csv_path w
    = (Ok (),
       World st
         (trace w
          ++ loader_events csv_path
               (map (make_row_data rt) (rows (fillna df))))).
Proof.
  intros Hf Hm.
  assert (Hload : load_csv_data rt fs csv_path w
    = (print (Reading csv_path);;
       print (Found (len (fillna df)));;
       with_session (
         batch ← import_loop rt (len (fillna df)) 0 (rows (fillna df)) [];
         if negb (bool_decide (batch = [])) then
           run rt (ImportBatch batch);;
           print (Processed (len (fillna df)) (len (fillna df)))
         else mret ())) w).
  { unfold load_csv_data. by rewrite Hf, Hm. }
  rewrite Hload. clear Hload.
  set (records := map (make_row_data rt) (rows (fillna df))).
  assert (Hn : len (fillna df) = length records).
  { unfold records, len. by rewrite length_map. }
  unfold mbind, M_bind, print, emit, with_session. cbn [the_store trace].
  destruct (import_loop_events (rows (fillna df)) (len (fillna df)) 0 []
              (World (the_store w)
                 (((trace w ++ [Print (Reading csv_path)])
                   ++ [Print (Found (len (fillna df)))]) ++ [OpenSession]))
              batch_size_pos) as (st & Hrun).
  cbn [app length] in Hrun. rewrite Nat.add_0_r in Hrun. rewrite Hrun.
  fold records. cbn [the_store trace]. unfold loader_events. rewrite !Hn.
  destruct (decide (drop (batch_size * (length records / batch_size)) records
                    = [])) as [Hnil|Hne].
  - rewrite bool_decide_eq_true_2 by done. cbn [negb].
    apply left_over_nil in Hnil.
    rewrite (proj2 (Nat.eqb_eq _ _) Hnil).
    exists st. unfold mret, M_ret. cbn [the_store trace].
    by rewrite <- !app_assoc.
  - rewrite bool_decide_eq_false_2 by done. cbn [negb].
    assert (Hmod : (length records mod batch_size =? 0)%nat = false).
    { apply Nat.eqb_neq. intros Hz. by apply Hne, left_over_nil. }
    rewrite Hmod. unfold run. cbn [the_store trace].
    destruct (run_statement rt
                (ImportBatch
                   (drop (batch_size * (length records / batch_size)) records))
                st) as [st' res'].
    exists st'. cbn [the_store trace].
    by rewrite <- !app_assoc.
Qed.

End WithRuntime.



(** X2.  In a line key=value (no ['='] in the key) only the outer whitespace
    of the line is removed: the value is stored under the key without its
    leading whitespace, and loses its trailing whitespace, the newline
    included; whitespace next to the ['='] stays, so [URI = x] defines the
    key [URI ] followed by a space. *)
Theorem load_line_strips_line_not_fields (config : gmap string string)
    (key value : string) :
  PyStr.contains_eq key = false →
  Config.load_line config (key +:+ "=" +:+ value)
  = Ok (<[PyStr.lstrip key := PyStr.rstrip value]> config).
Proof.
  intros Hk. unfold Config.load_line.
  rewrite ConfigProps.contains_eq_app, Hk. cbn [orb].
  change (PyStr.contains_eq ("=" +:+ value)) with true. cbn iota.
  unfold PyStr.strip.
  rewrite ConfigProps.lstrip_cut, ConfigProps.rstrip_cut.
  rewrite ConfigProps.split_eq1_cut; [done|].
  by rewrite ConfigFacts.contains_eq_lstrip.
Qed.

Lemma load_line_strips_line_not_fields_witness :
  Config.load_line ∅ ("  URI = bolt://localhost:7687 " +:+ Samples.nl)
  = Ok (<["URI " := " bolt://localhost:7687"]> ∅).
Proof.
  exact (load_line_strips_line_not_fields ∅ "  URI "
           (" bolt://localhost:7687 " +:+ Samples.nl) eq_refl).
Defined.

(** X3.  A configuration file that exists but assigns nothing (it is empty,
    or none of its lines holds an ['=']) makes both programs end at once:
    nothing is printed, no driver is opened and the store is not touched. *)
Theorem config_without_assignment_is_silent (rt : runtime) (fs : files)
    (lines : list string) :
  text_files fs !! "config.txt" = Some lines →
  Forall (λ line, PyStr.contains_eq line = false) lines →
  ∀ w, main rt fs w = (Ok (), w) ∧ run_validation rt fs w = (Ok (), w).
Proof.
  intros Hf Hall w. pose proof (load_lines_no_eq lines ∅ Hall) as Hl. split.
  - by apply main_empty_config with (lines := lines).
  - by apply run_validation_empty_config with (lines := lines).
Qed.

Lemma config_without_assignment_is_silent_witness :
  main Samples.sample_runtime Cases.files_with_blank_config Samples.used_world
  = (Ok (), Samples.used_world)
  ∧ run_validation Samples.sample_runtime Cases.files_with_blank_config
      Samples.used_world
    = (Ok (), Samples.used_world).
Proof.
  apply (config_without_assignment_is_silent Samples.sample_runtime
           Cases.files_with_blank_config _ eq_refl).
  by repeat constructor.
Defined.

(** X4.  When the configuration assigns something but lacks one of URI,
    USERNAME and PASSWORD, neither program opens a driver or touches the
    store.  The build program reports the first missing key as an error and
    ends normally, without the success line; the verification program does
    not catch the error and ends with it. *)
Theorem missing_credential_stops_both (rt : runtime) (fs : files)
    (lines : list string) (config : gmap string string) (key : string) :
  text_files fs !! "config.txt" = Some lines →
  Config.load_lines ∅ lines = Ok config →
  config ≠ ∅ →
  first_missing config = Some key →
  ∀ w,
    main rt fs w
    = (Ok (),
       World (the_store w)
         (trace w ++ [Print (ErrorOccurred (KeyError key))]))
    ∧ run_validation rt fs w = (Raise (KeyError key), w).
Proof.
  intros Hf Hl Hne Hk w. split.
  - by apply main_missing_key with (lines := lines) (config := config).
  - by apply run_validation_missing_key
      with (lines := lines) (config := config).
Qed.

Lemma missing_credential_stops_both_witness :
  main Samples.sample_runtime Cases.files_without_password Samples.used_world
  = (Ok (),
     World (the_store Samples.used_world)
       (trace Samples.used_world
        ++ [Print (ErrorOccurred (KeyError "PASSWORD"))]))
  ∧ run_validation Samples.sample_runtime Cases.files_without_password
      Samples.used_world
    = (Raise (KeyError "PASSWORD"), Samples.used_world).
Proof.
  apply (missing_credential_stops_both Samples.sample_runtime
           Cases.files_without_password _ _ "PASSWORD" eq_refl eq_refl).
  - intros Hempty.
    apply (f_equal (λ m : gmap string string, m !! "URI")) in Hempty.
    vm_compute in Hempty. discriminate Hempty.
  - by vm_compute.
Defined.


(** X6.  With the three keys configured, the verification program opens one
    session, sends the five catalog queries in order, each followed by the
    lines of its comparison with the expected table, and closes the session
    and the driver.  A query that fails does not stop the later ones, and
    the store is left as it was. *)
Theorem validation_runs_all_queries (rt : runtime) (fs : files)
    (uri user password : string) :
  usable_config fs uri user password →
  ∀ w,
    run_validation rt fs w
    = (Ok (),
       World (the_store w)
         (trace w
          ++ [OpenDriver uri user password; OpenSession]
          ++ concat (validation_events rt (graph_of (the_store w))
                       <$> [1; 2; 3; 4; 5]%nat)
          ++ [CloseSession; CloseDriver])).
Proof. intros Hc w. by apply run_validation_usable. Qed.

Lemma validation_runs_all_queries_witness :
  statements
    (trace (run_validation Samples.sample_runtime Samples.files_without_csv
              Samples.used_world).2)
  = CatalogQuery <$> [1; 2; 3; 4; 5]%nat
  ∧ the_store (run_validation Samples.sample_runtime Samples.files_without_csv
                 Samples.used_world).2
    = the_store Samples.used_world.
Proof.
  assert (Hc : usable_config Samples.files_without_csv
                 "bolt://localhost:7687" "neo4j" "a=b").
  { eexists _, _. split; [reflexivity|]. split; [reflexivity|].
    by vm_compute. }
  rewrite (validation_runs_all_queries Samples.sample_runtime
             Samples.files_without_csv _ _ _ Hc Samples.used_world).
  split; reflexivity.
Defined.

(** X7.  The build can be repeated: with the three keys configured, running
    the build program again on the same files leaves the store, graph and
    declarations, as the first run left it.  A run keeps every declaration
    the store had, under its name and unchanged. *)
Theorem rebuild_leaves_same_store (rt : runtime) (fs : files)
    (uri user password : string) :
  usable_config fs uri user password →
  ∀ w,
    let w1 := (main rt fs w).2 in
    the_store (main rt fs w1).2 = the_store w1
    ∧ (∀ name d, schema (the_store w) !! name = Some d →
                 schema (the_store w1) !! name = Some d).
Proof.
  intros Hc w w1.
  destruct (main_usable rt fs uri user password Hc) as (bs & evs & _ & Hmain).
  unfold w1. rewrite !Hmain. cbn [snd the_store].
  rewrite !import_batches_graph. cbn [schema graph_of].
  split; [by rewrite declared_idem|].
  intros name d. apply declared_keeps.
Qed.

Lemma rebuild_leaves_same_store_witness :
  let w1 := (main Samples.sample_runtime Samples.files_with_csv
               Samples.used_world).2 in
  the_store (main Samples.sample_runtime Samples.files_with_csv w1).2
  = the_store w1.
Proof.
  intros w1.
  assert (Hc : usable_config Samples.files_with_csv
                 "bolt://localhost:7687" "neo4j" "a=b").
  { eexists _, _. split; [reflexivity|]. split; [reflexivity|].
    by vm_compute. }
  exact (proj1 (rebuild_leaves_same_store Samples.sample_runtime
                  Samples.files_with_csv _ _ _ Hc Samples.used_world)).
Defined.



(** X9.  What the loader does on an input with every required column, event
    by event: it announces the file and the number of rows, opens a session,
    sends each run of 500 records followed by a progress line that counts
    the rows sent so far, then, only if the number of rows is not a multiple
    of 500, the records left with a last progress line, and closes the
    session.  With no rows at all the session is opened and closed without a
    statement. *)
Theorem loader_trace (rt : runtime) (fs : files) (csv_path : string)
    (df : DataFrame (option scalar)) :
  csv_files fs !! csv_path = Some df →
  (∀ col, col ∈ required_cols → col ∈ columns df) →
  (∀ w, ∃ st,
     load_csv_data rt fs csv_path w
     = (Ok (),
        World st
          (trace w
           ++ loader_events csv_path
                (map (make_row_data rt) (rows (fillna df))))))
  ∧ (rows df = [] →
     ∀ w, load_csv_data rt fs csv_path w
          = (Ok (),
             World (the_store w)
               (trace w
                ++ [Print (Reading csv_path); Print (Found 0); OpenSession;
                    CloseSession]))).
Proof.
  intros Hf Hall. pose proof (all_columns_filter df Hall) as Hm. split.
  - intros w. by apply load_csv_data_events.
  - intros Hrows w. unfold load_csv_data. rewrite Hf, Hm.
    unfold fillna, len. cbn [rows]. rewrite Hrows. cbn [map length].
    cbn [bool_decide negb import_loop].
    unfold mbind, M_bind, mret, M_ret, print, emit, with_session.
    rewrite !bool_decide_eq_true_2 by done.
    cbn [negb the_store trace]. by rewrite <- !app_assoc.
Qed.

Lemma loader_trace_witness :
  ∃ st,
    load_csv_data Samples.sample_runtime Samples.files_with_csv
      "Airline_surveys_sample.csv" Samples.used_world
    = (Ok (),
       World st
         (trace Samples.used_world
          ++ [Print (Reading "Airline_surveys_sample.csv"); Print (Found 3);
              OpenSession; Run (ImportBatch Samples.sample_records);
              Print (Processed 3 3); CloseSession])).
Proof.
  destruct (proj1 (loader_trace Samples.sample_runtime Samples.files_with_csv
                     "Airline_surveys_sample.csv" Samples.sample_frame eq_refl
                     ltac:(intros col Hcol; apply (bool_decide_unpack _);
                           unfold required_cols in Hcol;
                           repeat (apply elem_of_cons in Hcol as [->|Hcol];
                                   [by vm_compute|]);
                           by apply elem_of_nil in Hcol))
              Samples.used_world) as (st & Hrun).
  exists st. exact Hrun.
Defined.

End ProgramProps.

(** ** The result validator, further *)

Module ValidatorProps.
Import Validator ValidatorSpec ValidatorFacts.

(** *** Only the expected keys are read *)

Lemma fields_loop_ext i (a1 a2 : gmap string value) items :
  ∀ row_match all_match out,
  (∀ key, key ∈ items.*1 → a1 !! key = a2 !! key) →
  fields_loop i a1 items row_match all_match out
  = fields_loop i a2 items row_match all_match out.
Proof.
  induction items as [|[key exp_val] rest IH]; intros rm am out Hk; [done|].
  cbn [fields_loop]. unfold get.
  rewrite (Hk key) by (rewrite fmap_cons; left).
  destruct (negb (field_match exp_val (default VNone (a2 !! key)) rm));
    [done|].
  apply IH. intros k Hin. apply Hk. rewrite fmap_cons. by right.
Qed.

Lemma rows_loop_ext (actual : list (gmap string value)) :
  ∀ actual' expected i all_match out,
  length actual = length actual' →
  (∀ j act_row act_row' exp_row key,
     actual !! j = Some act_row → actual' !! j = Some act_row' →
     expected !! j = Some exp_row → key ∈ exp_row.*1 →
     act_row !! key = act_row' !! key) →
  rows_loop i actual expected all_match out
  = rows_loop i actual' expected all_match out.
Proof.
  induction actual as [|a actual IH];
    intros [|a' actual'] expected i am out Hlen Hk; try done.
  destruct expected as [|e expected]; [done|]. cbn [rows_loop].
  rewrite (fields_loop_ext i a a' e true am out).
  2: { intros key Hin. by apply (Hk 0%nat a a' e key). }
  destruct (fields_loop i a' e true am out) as [am' out'].
  apply IH; [by injection Hlen|].
  intros j r r' e' key Hr Hr' He' Hin. by apply (Hk (S j) r r' e' key).
Qed.

(** *** A table compared with itself *)

Lemma field_match_refl e : field_match e e true = true.
Proof.
  destruct e as [|b|n|x|s]; try done.
  - unfold field_match, py_ne, py_eq. simpl.
    by rewrite (proj2 (Qeq_bool_iff _ _) (Qeq_refl _)).
  - unfold field_match, py_ne, py_eq. simpl.
    by rewrite (proj2 (Qeq_bool_iff _ _) (Qeq_refl _)).
  - unfold field_match, isclose_val, isclose. simpl.
    by rewrite (proj2 (Qeq_bool_iff _ _) (Qeq_refl _)).
  - unfold field_match, py_ne, py_eq. simpl.
    by rewrite bool_decide_eq_true_2.
Qed.

Lemma get_list_to_map (row : list (string * value)) key v :
  NoDup row.*1 → (key, v) ∈ row → get (list_to_map row) key = v.
Proof.
  intros Hnd Hin. unfold get.
  by rewrite (elem_of_list_to_map_1 row key v Hnd Hin).
Qed.

Lemma self_fields_ok (row : list (string * value)) :
  NoDup row.*1 →
  Forall (λ kv, field_ok (list_to_map row) kv = true) row.
Proof.
  intros Hnd. apply Forall_forall. intros [key v] Hin. unfold field_ok.
  cbn [fst snd]. rewrite (get_list_to_map row key v Hnd Hin).
  apply field_match_refl.
Qed.

Lemma reported_nil actual : ∀ expected i,
  all_fields_match actual expected → reported i actual expected = [].
Proof.
  induction actual as [|a actual IH]; intros expected i Hall;
    inversion Hall as [|? e ? expected' Hrow Hrest]; subst; [done|].
  cbn [reported].
  rewrite (proj2 (first_mismatch_none i a e) Hrow). cbn.
  by apply IH.
Qed.

(** *** A field that disagrees *)

Lemma first_mismatch_Some i act_row exp_row :
  ¬ Forall (λ kv, field_ok act_row kv = true) exp_row →
  ∃ key exp_val,
    (key, exp_val) ∈ exp_row
    ∧ field_match exp_val (get act_row key) true = false
    ∧ first_mismatch i act_row exp_row
      = Some (Mismatch i key exp_val (get act_row key)).
Proof.
  intros Hn. unfold first_mismatch.
  destruct (List.find (λ kv, negb (field_ok act_row kv)) exp_row)
    as [[key exp_val]|] eqn:Hf.
  - apply find_some in Hf as [Hin Hneg]. exists key, exp_val.
    split; [by apply list_elem_of_In|]. split; [|done].
    unfold field_ok in Hneg. cbn [fst snd] in Hneg.
    by apply negb_true_iff in Hneg.
  - destruct Hn. apply (first_mismatch_none i). unfold first_mismatch.
    by rewrite Hf.
Qed.

Lemma reported_row actual : ∀ expected i j act_row exp_row l,
  actual !! j = Some act_row → expected !! j = Some exp_row →
  first_mismatch (i + j) act_row exp_row = Some l →
  l ∈ reported i actual expected.
Proof.
  induction actual as [|a actual IH];
    intros [|e expected] i j act_row exp_row l Ha He Hl; try done.
  cbn [reported]. destruct j as [|j]; simplify_eq/=.
  - rewrite Nat.add_0_r in Hl. rewrite Hl. left.
  - apply elem_of_app. right.
    apply (IH expected (S i) j act_row exp_row l Ha He).
    by replace (S i + j)%nat with (i + S j)%nat by lia.
Qed.

Lemma missing_key_disagrees (act_row : gmap string value) key exp_val :
  act_row !! key = None → exp_val ≠ VNone →
  field_match exp_val (get act_row key) true = false.
Proof.
  intros Hk He. unfold get. rewrite Hk. by destruct exp_val.
Qed.

(** *** Zero *)

Lemma isclose_zero (a e : Q) :
  (e == 0)%Q → isclose a e rel_tol = true ↔ (a == 0)%Q.
Proof.
  intros He. rewrite (isclose_spec a e rel_tol rel_tol_nonneg). split.
  - intros Hle.
    assert (Ha : (Qabs a <= rel_tol * Qabs a)%Q).
    { eapply Qle_trans; [|eapply Qle_trans; [exact Hle|]].
      - rewrite He. unfold Qminus. rewrite Qplus_0_r. apply Qle_refl.
      - rewrite He. change (Qabs 0) with 0%Q.
        rewrite (Q.max_l _ _ (Qabs_nonneg a)). apply Qle_refl. }
    assert (Hz : (Qabs a <= 0)%Q).
    { unfold rel_tol in Ha. pose proof (Qabs_nonneg a) as Hn.
      unfold Qle in *. destruct (Qabs a) as [n d]. simpl in *. nia. }
    apply Qabs_Qle_condition in Hz. destruct Hz as [H1 H2].
    by apply Qle_antisym.
  - intros Ha. rewrite Ha, He. by vm_compute.
Qed.

Lemma isclose_zero_actual (a e : Q) :
  (a == 0)%Q → isclose a e rel_tol = true ↔ (e == 0)%Q.
Proof.
  intros Ha. rewrite (isclose_spec a e rel_tol rel_tol_nonneg). split.
  - intros Hle.
    assert (He : (Qabs e <= rel_tol * Qabs e)%Q).
    { eapply Qle_trans; [|eapply Qle_trans; [exact Hle|]].
      - rewrite Ha. unfold Qminus. rewrite Qplus_0_l, Qabs_opp.
        apply Qle_refl.
      - rewrite Ha. change (Qabs 0) with 0%Q.
        rewrite (Q.max_r _ _ (Qabs_nonneg e)). apply Qle_refl. }
    assert (Hz : (Qabs e <= 0)%Q).
    { unfold rel_tol in He. pose proof (Qabs_nonneg e) as Hn.
      unfold Qle in *. destruct (Qabs e) as [n d]. simpl in *. nia. }
    apply Qabs_Qle_condition in Hz. destruct Hz as [H1 H2].
    by apply Qle_antisym.
  - intros He. rewrite Ha, He. by vm_compute.
Qed.

Lemma compare_results_equal_length query_num actual expected :
  length actual = length expected →
  ∃ verdict : bool,
    compare_results query_num actual expected
    = (None,
       Header query_num :: reported 0 actual expected
       ++ [if verdict then PASS else FAIL])
    ∧ (verdict = true ↔ all_fields_match actual expected).
Proof.
  intros Hlen. unfold compare_results. rewrite Hlen, Nat.eqb_refl. cbn [negb].
  destruct (rows_loop_spec actual expected 0 true [Header query_num] Hlen)
    as (v & -> & Hv).
  exists v. split; [done|]. rewrite Hv. tauto.
Qed.

(** X10.  Only the expected keys of a result row are read: two results of
    the same length whose rows agree on the keys of the expected rows are
    compared alike, so columns a query returns besides do not matter. *)
Theorem compare_results_reads_expected_keys (query_num : nat)
    (actual actual' : list (gmap string value))
    (expected : list (list (string * value))) :
  length actual = length actual' →
  (∀ i act_row act_row' exp_row key,
     actual !! i = Some act_row → actual' !! i = Some act_row' →
     expected !! i = Some exp_row → key ∈ exp_row.*1 →
     act_row !! key = act_row' !! key) →
  compare_results query_num actual expected
  = compare_results query_num actual' expected.
Proof.
  intros Hlen Hk. unfold compare_results. rewrite <- Hlen.
  destruct (negb (length actual =? length expected)%nat); [done|].
  by rewrite (rows_loop_ext actual actual' expected 0 true
                [Header query_num] Hlen Hk).
Qed.

Lemma compare_results_reads_expected_keys_witness :
  compare_results 2
    [ {[ "flight_id" := VInt 42; "feedback_count" := VInt 14;
         "fleet" := VStr "B737" ]} ]
    [ [("flight_id", VInt 42); ("feedback_count", VInt 14)] ]
  = compare_results 2
      [ {[ "flight_id" := VInt 42; "feedback_count" := VInt 14 ]} ]
      [ [("flight_id", VInt 42); ("feedback_count", VInt 14)] ].
Proof.
  apply compare_results_reads_expected_keys; [reflexivity|].
  intros [|i] act_row act_row' exp_row key Ha Ha' He Hk; simplify_eq/=.
  repeat (apply elem_of_cons in Hk as [->|Hk]; [by vm_compute|]).
  by apply elem_of_nil in Hk.
Defined.

(** X11.  A table compared with itself passes: when no expected row names a
    key twice, the rows read back as dictionaries agree with the table on
    every field, floats included, and the validator prints the header and
    PASS.  This holds of the five built-in tables. *)
Theorem expected_table_passes :
  (∀ (query_num : nat) (expected : list (list (string * value))),
     Forall (λ exp_row, NoDup exp_row.*1) expected →
     compare_results query_num (list_to_map <$> expected) expected
     = (None, [Header query_num; PASS]))
  ∧ (∀ q_num : nat,
       compare_results q_num
         (list_to_map <$> ValidateQueries.EXPECTED_RESULTS q_num)
         (ValidateQueries.EXPECTED_RESULTS q_num)
       = (None, [Header q_num; PASS])).
Proof.
  assert (Hgen : ∀ (query_num : nat) (expected : list (list (string * value))),
     Forall (λ exp_row, NoDup exp_row.*1) expected →
     compare_results query_num (list_to_map <$> expected) expected
     = (None, [Header query_num; PASS])).
  { intros query_num expected Hnd.
    assert (Hall : all_fields_match (list_to_map <$> expected) expected).
    { unfold all_fields_match. apply Forall2_fmap_l, Forall_Forall2_diag.
      eapply Forall_impl; [exact Hnd|]. intros row. apply self_fields_ok. }
    destruct (compare_results_equal_length query_num
                (list_to_map <$> expected) expected) as (v & -> & Hv).
    { by rewrite length_fmap. }
    rewrite (reported_nil _ _ 0 Hall), (proj2 Hv Hall). done. }
  split; [exact Hgen|].
  intros q_num. apply Hgen.
  do 6 (destruct q_num as [|q_num];
        [apply (bool_decide_unpack _); by vm_compute|]).
  constructor.
Qed.

Lemma expected_table_passes_witness :
  compare_results 2
    (list_to_map <$> [ [("flight_id", VInt 42); ("avg", VFloat (5 # 2))] ])
    [ [("flight_id", VInt 42); ("avg", VFloat (5 # 2))] ]
  = (None, [Header 2; PASS]).
Proof.
  apply (proj1 expected_table_passes).
  apply (bool_decide_unpack _). by vm_compute.
Defined.

(** X12.  A field that disagrees is never overlooked: for results of equal
    length, if some expected field of row [i] disagrees, a mismatch line for
    row [i] is printed (for that field or an earlier one of the row) and the
    last line is FAIL.  A key the result row lacks reads as [None], without
    an error, and disagrees with every expected value but [None]. *)
Theorem disagreeing_field_fails :
  (∀ (act_row : gmap string value) key exp_val,
     act_row !! key = None → exp_val ≠ VNone →
     field_match exp_val (get act_row key) true = false)
  ∧ (∀ (query_num : nat) (actual : list (gmap string value))
       (expected : list (list (string * value))) i act_row exp_row key exp_val,
       length actual = length expected →
       actual !! i = Some act_row → expected !! i = Some exp_row →
       (key, exp_val) ∈ exp_row →
       field_match exp_val (get act_row key) true = false →
       let res := compare_results query_num actual expected in
       res.1 = None
       ∧ last res.2 = Some FAIL
       ∧ ∃ key' exp_val',
           (key', exp_val') ∈ exp_row
           ∧ field_match exp_val' (get act_row key') true = false
           ∧ Mismatch i key' exp_val' (get act_row key') ∈ res.2).
Proof.
  split; [apply missing_key_disagrees|].
  intros query_num actual expected i act_row exp_row key exp_val
    Hlen Ha He Hin Hbad res.
  assert (Hrow : ¬ Forall (λ kv, field_ok act_row kv = true) exp_row).
  { rewrite Forall_forall. intros Hall. specialize (Hall _ Hin).
    unfold field_ok in Hall. cbn [fst snd] in Hall. congruence. }
  destruct (compare_results_equal_length query_num actual expected Hlen)
    as (v & Hres & Hv).
  subst res. rewrite Hres. cbn [fst snd].
  assert (Hfalse : v = false).
  { destruct v; [|done]. destruct Hrow.
    assert (Hall : all_fields_match actual expected) by (by apply Hv).
    by apply (Forall2_lookup_lr _ _ _ i act_row exp_row Hall). }
  subst v. split; [done|]. split.
  { by rewrite app_comm_cons, last_snoc. }
  destruct (first_mismatch_Some i act_row exp_row Hrow)
    as (key' & exp_val' & Hin' & Hbad' & Hfirst).
  exists key', exp_val'. split; [done|]. split; [done|].
  right. apply elem_of_app. left.
  by apply (reported_row actual expected 0 i act_row exp_row).
Qed.

Lemma disagreeing_field_fails_witness :
  let res := compare_results 2
               [ {[ "flight_id" := VInt 42 ]} ]
               [ [("flight_id", VInt 42); ("feedback_count", VInt 14)] ] in
  res.1 = None ∧ last res.2 = Some FAIL.
Proof.
  intros res.
  assert (Hbad : field_match (VInt 14)
                   (get ({[ "flight_id" := VInt 42 ]} : gmap string value)
                      "feedback_count") true = false).
  { apply (proj1 disagreeing_field_fails); [reflexivity|discriminate]. }
  destruct (proj2 disagreeing_field_fails 2
              [ {[ "flight_id" := VInt 42 ]} ]
              [ [("flight_id", VInt 42); ("feedback_count", VInt 14)] ]
              0%nat _ _ "feedback_count" (VInt 14)
              eq_refl eq_refl eq_refl ltac:(right; left) Hbad)
    as (Hnone & Hlast & _).
  split; [exact Hnone|exact Hlast].
Defined.

(** X13.  The tolerance of the float comparison is relative only: when the
    expected float is zero a number is accepted only if it is zero, and a
    zero found is accepted only by an expected zero. *)
Theorem zero_has_no_tolerance (e : Q) (a : value) (x : Q) :
  number a = Some x →
  ((e == 0)%Q → field_match (VFloat e) a true = true ↔ (x == 0)%Q)
  ∧ ((x == 0)%Q → field_match (VFloat e) a true = true ↔ (e == 0)%Q).
Proof.
  intros Ha. rewrite (field_match_float e a x Ha). split.
  - apply isclose_zero.
  - apply isclose_zero_actual.
Qed.

Lemma zero_has_no_tolerance_witness :
  field_match (VFloat 0) (VFloat (1 # 1000000000000)) true = false
  ∧ field_match (VFloat 0) (VInt 0) true = true.
Proof.
  split.
  - apply not_true_is_false. intros Hm.
    apply (proj1 (zero_has_no_tolerance 0 (VFloat (1 # 1000000000000))
                    (1 # 1000000000000) eq_refl)) in Hm;
      [discriminate Hm|reflexivity].
  - apply (proj1 (zero_has_no_tolerance 0 (VInt 0) (inject_Z 0) eq_refl));
      reflexivity.
Defined.


End ValidatorProps.

(** ** The graph a load builds *)

Module GraphProps.
Import Frame Graph Upsert Store Prog TraceSpec LoadSpec GraphSpec UpsertFacts.

(** *** Nothing is removed *)

Lemma same_identity_refl n : same_identity n n.
Proof. by split. Qed.

Lemma same_identity_trans n1 n2 n3 :
  same_identity n1 n2 → same_identity n2 n3 → same_identity n1 n3.
Proof.
  intros [Hl1 Hp1] [Hl2 Hp2]. split; [congruence|].
  intros k Hk. by rewrite (Hp2 k Hk), (Hp1 k Hk).
Qed.

Lemma grows_refl g : grows g g.
Proof.
  exists (nodes g), [], []. rewrite !app_nil_r. repeat split.
  apply Forall_Forall2_diag, Forall_forall. intros n _.
  apply same_identity_refl.
Qed.

Lemma grows_trans g1 g2 g3 : grows g1 g2 → grows g2 g3 → grows g1 g3.
Proof.
  intros (ns & fresh & new & Hn & Hs & Hr)
    (ns' & fresh' & new' & Hn' & Hs' & Hr').
  rewrite Hn in Hs'. apply Forall2_app_inv_l in Hs'
    as (ms & ms' & Hms & Hms' & ->).
  exists ms, (ms' ++ fresh'), (new ++ new'). split; [|split].
  - by rewrite Hn', <- app_assoc.
  - clear -Hs Hms. revert ms Hms.
    induction Hs as [|n m l k Hnm _ IH]; intros ms Hms.
    + inversion Hms. constructor.
    + inversion Hms as [|? m' ? ms' Hm Hrest]; subst. constructor.
      * by eapply same_identity_trans.
      * by apply IH.
  - by rewrite Hr', Hr, <- app_assoc.
Qed.

Lemma merge_node_grows g lbl pat : grows g (merge_node g lbl pat).1.
Proof.
  unfold merge_node. destruct (find_nodes g lbl pat); [|apply grows_refl].
  cbn [fst]. exists (nodes g), [Node lbl (list_to_map pat)], [].
  cbn [nodes rels]. rewrite app_nil_r. repeat split.
  apply Forall_Forall2_diag, Forall_forall. intros n _.
  apply same_identity_refl.
Qed.

Lemma merge_rel_grows g a type b : grows g (merge_rel g a type b).1.
Proof.
  unfold merge_rel. cbn zeta.
  destruct (length (filter (λ e, e = (a, type, b)) (rels g)) =? 0)%nat;
    [|apply grows_refl].
  cbn [fst]. exists (nodes g), [], [(a, type, b)].
  cbn [nodes rels]. rewrite app_nil_r. repeat split.
  apply Forall_Forall2_diag, Forall_forall. intros n _.
  apply same_identity_refl.
Qed.

Lemma set_node_same_identity assign n :
  assign.*1 ⊆ assigned_props → same_identity n (set_node assign n).
Proof.
  intros Ha. split; [done|]. intros k Hk. cbn [set_node props].
  apply lookup_set_all_other. intros Hin. by apply Hk, Ha.
Qed.

Lemma set_props_grows g i assign :
  assign.*1 ⊆ assigned_props → grows g (set_props g i assign).
Proof.
  intros Ha. exists (alter (set_node assign) i (nodes g)), [], [].
  unfold set_props. cbn [nodes rels]. rewrite !app_nil_r. repeat split.
  apply Forall2_alter_r.
  - apply Forall_Forall2_diag, Forall_forall. intros n _.
    apply same_identity_refl.
  - intros n m Hn Hm _. simplify_eq. by apply set_node_same_identity.
Qed.

Lemma exec_on_grows c g e : assigns_attributes c → grows g (exec_on c g e).1.
Proof.
  intros Hc. destruct c as [x lbl pat|s type d|x assign]; cbn [exec_on].
  - pose proof (merge_node_grows g lbl (pat e.1)) as Hg.
    by destruct (merge_node g lbl (pat e.1)).
  - destruct (e.2 !! s) as [a|]; [|apply grows_refl].
    destruct (e.2 !! d) as [b|]; [|apply grows_refl].
    pose proof (merge_rel_grows g a type b) as Hg.
    by destruct (merge_rel g a type b).
  - destruct (e.2 !! x) as [i|]; [|apply grows_refl].
    cbn [fst]. apply set_props_grows, Hc.
Qed.

Lemma clause_fold_grows c tbl : ∀ acc,
  assigns_attributes c → grows acc.1 (foldl (clause_step c) acc tbl).1.
Proof.
  induction tbl as [|e tbl IH]; intros acc Hc; [apply grows_refl|].
  cbn [foldl]. eapply grows_trans; [|by apply IH].
  unfold clause_step. pose proof (exec_on_grows c acc.1 e Hc) as Hg.
  by destruct (exec_on c acc.1 e).
Qed.

Lemma exec_clause_grows c st :
  assigns_attributes c → grows st.1 (exec_clause c st).1.
Proof. intros Hc. apply (clause_fold_grows c st.2 (st.1, []) Hc). Qed.

Lemma clauses_grow q : ∀ st,
  Forall assigns_attributes q →
  grows st.1 (foldl (λ st c, exec_clause c st) st q).1.
Proof.
  induction q as [|c q IH]; intros st Hq; [apply grows_refl|].
  inversion Hq as [|? ? Hc Hrest]; subst. cbn [foldl].
  eapply grows_trans; [by apply exec_clause_grows|by apply IH].
Qed.

Lemma import_query_assigns rt : Forall assigns_attributes (import_query rt).
Proof.
  unfold import_query.
  repeat (apply Forall_cons; split); try exact I; try by apply Forall_nil.
  all: intros r k Hk;
    cbn [passenger_set journey_set fmap list_fmap fst] in Hk;
    unfold assigned_props;
    repeat (apply elem_of_cons in Hk as [->|Hk];
            [apply (bool_decide_unpack _); by vm_compute|]);
    by apply elem_of_nil in Hk.
Qed.

Lemma exec_query_grows rt g b : grows g (exec_query (import_query rt) g b).
Proof.
  unfold exec_query.
  apply (clauses_grow (import_query rt) (g, (λ r, (r, ∅)) <$> b)),
    import_query_assigns.
Qed.

Lemma import_graph_grows rt bs : ∀ g, grows g (import_graph rt g bs).
Proof.
  induction bs as [|b bs IH]; intros g; [apply grows_refl|].
  change (import_graph rt g (b :: bs))
    with (import_graph rt (exec_query (import_query rt) g b) bs).
  eapply grows_trans; [apply exec_query_grows|apply IH].
Qed.

Lemma same_identity_key n n' : same_identity n n' → node_key n' = node_key n.
Proof.
  intros [Hl Hp]. unfold node_key. rewrite Hl. f_equal.
  apply list_fmap_ext. intros i k Hk. apply Hp.
  apply list_elem_of_lookup_2 in Hk. intros Ha.
  unfold schema_keys in Hk. unfold assigned_props in Ha.
  repeat case_bool_decide;
    repeat (apply elem_of_cons in Hk as [->|Hk];
            [by apply (bool_decide_pack _) in Ha; vm_compute in Ha|]);
    by apply elem_of_nil in Hk.
Qed.

(** *** Nothing but what the records ask for *)

Lemma row_nodes_keys r n : n ∈ row_nodes r → node_key n ∈ row_keys r.
Proof.
  unfold row_nodes, row_keys. intros Hn.
  repeat (apply elem_of_cons in Hn as [->|Hn]).
  - rewrite fresh_node_key by done. left.
  - rewrite fresh_node_key by done. right. left.
  - rewrite fresh_node_key by done. do 2 right. left.
  - rewrite fresh_node_key by done. do 3 right. left.
  - rewrite fresh_node_key by done. do 4 right. left.
  - by apply elem_of_nil in Hn.
Qed.

Lemma absorbed_keys g r K : absorbed g r → K ∈ row_keys r → K ∈ keys g.
Proof.
  intros (Ho & Hd & Hf & Hp & Hj & _) HK. unfold row_keys in HK.
  repeat (apply elem_of_cons in HK as [->|HK]; [done|]).
  by apply elem_of_nil in HK.
Qed.

Lemma row_rels_stable ks more r :
  (∀ K, K ∈ row_keys r → K ∈ ks) → row_rels (ks ++ more) r = row_rels ks r.
Proof.
  intros Hk. unfold row_rels, row_links. cbn [fmap list_fmap fst snd].
  assert (Ho : origin_key r ∈ ks) by (apply Hk; left).
  assert (Hd : dest_key r ∈ ks) by (apply Hk; right; left).
  assert (Hf : flight_key r ∈ ks) by (apply Hk; do 2 right; left).
  assert (Hp : passenger_key r ∈ ks) by (apply Hk; do 3 right; left).
  assert (Hj : journey_key r ∈ ks) by (apply Hk; do 4 right; left).
  by rewrite !index_of_app_l by done.
Qed.

(** A node whose key the graph does not hold has no writer among the
    records the graph has absorbed. *)
Lemma unwritten rt g R n :
  Forall (absorbed g) R → node_key n ∉ keys g → overwrite rt R n = n.
Proof.
  intros Ha Hn. rewrite Forall_forall in Ha. unfold overwrite, apply_last.
  assert (Hp : last_writer passenger_key R n = None).
  { apply last_writer_None, Forall_forall. intros r Hr Hk. apply Hn.
    rewrite <- Hk. apply (absorbed_keys g r _ (Ha r Hr)).
    unfold row_keys. do 3 right. left. }
  rewrite Hp.
  assert (Hj : last_writer journey_key R n = None).
  { apply last_writer_None, Forall_forall. intros r Hr Hk. apply Hn.
    rewrite <- Hk. apply (absorbed_keys g r _ (Ha r Hr)).
    unfold row_keys. do 4 right. left. }
  by rewrite Hj.
Qed.

Lemma sourced_step rt g R b :
  well_keyed g → Forall (absorbed g) R → sourced rt g R →
  sourced rt (exec_query (import_query rt) g b) (R ++ b).
Proof.
  intros Hg Ha (Hkeys & Hrels & Hnodes).
  destruct (exec_import_full rt g b Hg)
    as (fresh & new & Hrun & Hk & Hg' & Hab & Hfr & _ & Hnew).
  cbn zeta in *. rewrite Hrun.
  rewrite Forall_forall in Hfr. rewrite Forall_forall in Hnew.
  assert (Hfresh : ∀ n, n ∈ fresh → node_key n ∉ keys g).
  { intros n Hn Hin. destruct Hg' as [Hnd _]. rewrite Hk in Hnd.
    apply NoDup_app in Hnd as (_ & Hdis & _).
    apply (Hdis _ Hin). apply list_elem_of_fmap. by exists n. }
  split; [|split].
  - intros K HK. rewrite Hk in HK. apply elem_of_app in HK as [HK|HK].
    + destruct (Hkeys K HK) as (r & Hr & HKr). exists r.
      split; [apply elem_of_app; by left|done].
    + apply list_elem_of_fmap in HK as (n & -> & Hn).
      destruct (Hfr n Hn) as (r & Hr & Hnr). exists r.
      split; [apply elem_of_app; by right|by apply row_nodes_keys].
  - intros x Hx. cbn [rels] in Hx. apply elem_of_app in Hx as [Hx|Hx].
    + destruct (Hrels x Hx) as (r & Hr & Hxr). exists r.
      split; [apply elem_of_app; by left|].
      rewrite Hk, row_rels_stable; [done|].
      intros K HK. rewrite Forall_forall in Ha.
      by apply (absorbed_keys g r K (Ha r Hr)).
    + destruct (Hnew x Hx) as (r & Hr & Hxr). exists r.
      split; [apply elem_of_app; by right|done].
  - intros n Hn. cbn [nodes] in Hn.
    apply list_elem_of_fmap in Hn as (m & -> & Hm).
    apply elem_of_app in Hm as [Hm|Hm].
    + destruct (Hnodes m Hm) as (r & n0 & Hr & Hn0 & ->).
      exists r, n0. split; [apply elem_of_app; by left|].
      split; [done|]. by rewrite overwrite_app.
    + destruct (Hfr m Hm) as (r & Hr & Hmr). exists r, m.
      split; [apply elem_of_app; by right|]. split; [done|].
      by rewrite overwrite_app, (unwritten rt g R m Ha (Hfresh m Hm)).
Qed.

Lemma sourced_empty rt : sourced rt Graph.empty [].
Proof.
  split; [|split].
  - by intros K HK%elem_of_nil.
  - by intros x Hx%elem_of_nil.
  - by intros n Hn%elem_of_nil.
Qed.

Lemma import_graph_sourced rt bs : ∀ g R,
  well_keyed g → Forall (absorbed g) R → settled rt g R → sourced rt g R →
  sourced rt (import_graph rt g bs) (R ++ concat bs).
Proof.
  induction bs as [|b bs IH]; intros g R Hg Ha Hs Hsrc.
  - cbn [import_graph foldl concat]. by rewrite app_nil_r.
  - cbn [concat]. rewrite app_assoc.
    change (import_graph rt g (b :: bs))
      with (import_graph rt (exec_query (import_query rt) g b) bs).
    destruct (import_graph_inv rt [b] g R Hg Ha Hs) as (Hg1 & Ha1 & Hs1).
    cbn [import_graph foldl concat] in Hg1, Ha1, Hs1.
    rewrite app_nil_r in Ha1, Hs1.
    apply IH; [done..|]. by apply sourced_step.
Qed.

(** *** Relationships read through keys *)

Lemma row_links_keys r L :
  L ∈ row_links r → L.1.1 ∈ row_keys r ∧ L.2 ∈ row_keys r.
Proof.
  unfold row_links, row_keys. intros HL.
  repeat (apply elem_of_cons in HL as [->|HL]); cbn [fst snd].
  - split; [do 2 right; left|left].
  - split; [do 2 right; left|right; left].
  - split; [do 3 right; left|do 4 right; left].
  - split; [do 4 right; left|do 2 right; left].
  - by apply elem_of_nil in HL.
Qed.

Lemma link_of_index g K1 t K2 :
  K1 ∈ keys g → K2 ∈ keys g →
  link_of g (index_of K1 (keys g), t, index_of K2 (keys g)) = Some (K1, t, K2).
Proof.
  intros H1 H2. unfold link_of. cbn [fst snd].
  by rewrite (index_of_lookup K1 (keys g) H1), (index_of_lookup K2 (keys g) H2).
Qed.

Lemma link_of_Some g x L :
  NoDup (keys g) → link_of g x = Some L →
  x = (index_of L.1.1 (keys g), L.1.2, index_of L.2 (keys g)).
Proof.
  intros Hnd. destruct x as [[a t] b]. unfold link_of. cbn [fst snd].
  destruct (keys g !! a) as [ka|] eqn:Ha; [|done].
  destruct (keys g !! b) as [kb|] eqn:Hb; [|done].
  cbn. intros [= <-]. cbn [fst snd].
  by rewrite (index_of_unique ka (keys g) a Hnd Ha),
    (index_of_unique kb (keys g) b Hnd Hb).
Qed.

Lemma row_rels_link g r x :
  absorbed g r → x ∈ row_rels (keys g) r →
  ∃ L, L ∈ row_links r ∧ link_of g x = Some L.
Proof.
  intros Ha Hx. unfold row_rels in Hx.
  apply list_elem_of_fmap in Hx as (L & -> & HL). exists L. split; [done|].
  destruct (row_links_keys r L HL) as [H1 H2]. destruct L as [[K1 t] K2].
  cbn [fst snd] in *.
  apply link_of_index; by apply (absorbed_keys g r).
Qed.

Lemma absorbed_rels g r x :
  absorbed g r → x ∈ row_rels (keys g) r → x ∈ rels g.
Proof.
  intros (_ & _ & _ & _ & _ & H1 & H2 & H3 & H4) Hx.
  unfold row_rels, row_links in Hx. cbn [fmap list_fmap fst snd] in Hx.
  repeat (apply elem_of_cons in Hx as [->|Hx]; [done|]).
  by apply elem_of_nil in Hx.
Qed.

(** The nodes made for two records coincide as soon as their keys do. *)
Lemma row_nodes_inj r r' n n' :
  n ∈ row_nodes r → n' ∈ row_nodes r' → node_key n = node_key n' → n = n'.
Proof.
  unfold row_nodes. intros Hn Hn'.
  repeat (apply elem_of_cons in Hn as [->|Hn]);
    try (by apply elem_of_nil in Hn);
    repeat (apply elem_of_cons in Hn' as [->|Hn']);
    try (by apply elem_of_nil in Hn');
    rewrite !fresh_node_key by done;
    unfold pattern_key, origin_pat, dest_pat, flight_pat, passenger_pat,
      journey_pat;
    cbn [fmap list_fmap snd]; intros Hk; simplify_eq; congruence.
Qed.

(** What a load from the empty graph leaves. *)
Lemma load_facts rt bs :
  let rows := concat bs in
  let g := import_graph rt Graph.empty bs in
  well_keyed g ∧ Forall (absorbed g) rows ∧ sourced rt g rows.
Proof.
  intros rows g.
  destruct (import_graph_inv rt bs Graph.empty [] well_keyed_empty)
    as (Hg & Ha & Hs); [constructor..|].
  split; [done|]. split; [done|].
  apply (import_graph_sourced rt bs Graph.empty [] well_keyed_empty);
    [constructor..|apply sourced_empty].
Qed.

Lemma load_keys rt bs K :
  K ∈ keys (import_graph rt Graph.empty bs)
  ↔ ∃ r, r ∈ concat bs ∧ K ∈ row_keys r.
Proof.
  destruct (load_facts rt bs) as (Hg & Ha & Hkeys & _). cbn zeta in *. split.
  - apply Hkeys.
  - intros (r & Hr & HK). rewrite Forall_forall in Ha.
    by apply (absorbed_keys _ r K (Ha r Hr)).
Qed.

Lemma load_links rt bs l :
  l ∈ links (import_graph rt Graph.empty bs)
  ↔ ∃ r L, r ∈ concat bs ∧ L ∈ row_links r ∧ l = Some L.
Proof.
  destruct (load_facts rt bs) as (Hg & Ha & _ & Hrels & _). cbn zeta in *.
  rewrite Forall_forall in Ha. unfold links. split.
  - intros (x & -> & Hx)%list_elem_of_fmap.
    destruct (Hrels x Hx) as (r & Hr & Hxr).
    destruct (row_rels_link _ r x (Ha r Hr) Hxr) as (L & HL & Hlink).
    by exists r, L.
  - intros (r & L & Hr & HL & ->).
    destruct (row_links_keys r L HL) as [H1 H2].
    apply list_elem_of_fmap.
    exists (index_of L.1.1 (keys (import_graph rt Graph.empty bs)), L.1.2,
            index_of L.2 (keys (import_graph rt Graph.empty bs))).
    split.
    + rewrite link_of_index; [by destruct L as [[? ?] ?]|..];
        by apply (absorbed_keys _ r _ (Ha r Hr)).
    + apply (absorbed_rels _ r _ (Ha r Hr)). unfold row_rels.
      apply list_elem_of_fmap. by exists L.
Qed.

Lemma load_links_NoDup rt bs : NoDup (links (import_graph rt Graph.empty bs)).
Proof.
  destruct (load_facts rt bs) as ([Hnd Hrel] & Ha & _ & Hrels & _).
  cbn zeta in *. rewrite Forall_forall in Ha. unfold links.
  apply NoDup_fmap_2_strong; [|done].
  intros x y Hx Hy Heq.
  destruct (Hrels x Hx) as (r & Hr & Hxr).
  destruct (row_rels_link _ r x (Ha r Hr) Hxr) as (L & _ & Hlink).
  rewrite Hlink in Heq. symmetry in Heq.
  by rewrite (link_of_Some _ x L Hnd Hlink), (link_of_Some _ y L Hnd Heq).
Qed.

Lemma load_nodes rt bs n :
  n ∈ nodes (import_graph rt Graph.empty bs) →
  ∃ r n0, r ∈ concat bs ∧ n0 ∈ row_nodes r
          ∧ n = overwrite rt (concat bs) n0.
Proof. destruct (load_facts rt bs) as (_ & _ & _ & _ & Hn). apply Hn. Qed.

Lemma load_nodes_same rt bs bs' n :
  concat bs = concat bs' →
  n ∈ nodes (import_graph rt Graph.empty bs) →
  n ∈ nodes (import_graph rt Graph.empty bs').
Proof.
  intros Hcat Hn.
  destruct (load_nodes rt bs n Hn) as (r & n0 & Hr & Hn0 & ->).
  assert (HK : node_key n0 ∈ keys (import_graph rt Graph.empty bs')).
  { apply load_keys. exists r. split; [by rewrite <- Hcat|].
    by apply row_nodes_keys. }
  apply list_elem_of_fmap in HK as (n' & Hk & Hn').
  destruct (load_nodes rt bs' n' Hn') as (r' & n0' & Hr' & Hn0' & ->).
  rewrite overwrite_key in Hk.
  rewrite (row_nodes_inj r r' n0 n0' Hn0 Hn0' Hk), Hcat. done.
Qed.

(** *** What a stored node holds *)

Lemma last_writer_Some K rows n r0 :
  r0 ∈ rows → K r0 = node_key n →
  ∃ r, last_writer K rows n = Some r ∧ r ∈ rows ∧ K r = node_key n.
Proof.
  intros Hr0 Hk0. destruct (last_writer K rows n) as [r|] eqn:Hw.
  - exists r. split; [done|]. by apply last_writer_elem in Hw.
  - rewrite last_writer_None, Forall_forall in Hw. by destruct (Hw r0 Hr0).
Qed.

Lemma overwrite_airport rt rows pat :
  overwrite rt rows (Node "Airport" pat) = Node "Airport" pat.
Proof.
  rewrite overwrite_other by done. apply apply_last_other.
  intros r. cbn. congruence.
Qed.

Lemma overwrite_flight rt rows pat :
  overwrite rt rows (Node "Flight" pat) = Node "Flight" pat.
Proof.
  rewrite overwrite_other by done. apply apply_last_other.
  intros r. cbn. congruence.
Qed.

Lemma overwrite_passenger_node rt rows r0 :
  r0 ∈ rows →
  ∃ r, r ∈ rows
    ∧ last_with record_locator (record_locator r) rows = Some r
    ∧ overwrite rt rows (Node "Passenger" (list_to_map (passenger_pat r0)))
      = Node "Passenger"
          (set_all (passenger_set r) (list_to_map (passenger_pat r))).
Proof.
  intros Hr0. set (n0 := Node "Passenger" (list_to_map (passenger_pat r0))).
  assert (Hk0 : passenger_key r0 = node_key n0)
    by (symmetry; by apply fresh_node_key).
  destruct (last_writer_Some passenger_key rows n0 r0 Hr0 Hk0)
    as (r & Hw & Hr & Hk).
  assert (Hloc : record_locator r = record_locator r0).
  { rewrite <- Hk0 in Hk.
    unfold passenger_key, pattern_key, passenger_pat in Hk.
    cbn [fmap list_fmap snd] in Hk. by simplify_eq. }
  exists r. split; [done|]. split.
  - rewrite <- Hw, Hloc. symmetry.
    apply (last_writer_passenger rows n0 (record_locator r0)); [done|].
    unfold n0. cbn. by rewrite lookup_insert_eq.
  - rewrite (overwrite_passenger rt rows n0) by done.
    unfold apply_last. rewrite Hw. unfold set_node, n0. cbn [label props].
    unfold passenger_pat. by rewrite Hloc.
Qed.

Lemma overwrite_journey_node rt rows r0 :
  r0 ∈ rows →
  ∃ r, r ∈ rows
    ∧ last_with feedback_ID (feedback_ID r) rows = Some r
    ∧ overwrite rt rows (Node "Journey" (list_to_map (journey_pat r0)))
      = Node "Journey"
          (set_all (journey_set rt r) (list_to_map (journey_pat r))).
Proof.
  intros Hr0. set (n0 := Node "Journey" (list_to_map (journey_pat r0))).
  assert (Hk0 : journey_key r0 = node_key n0)
    by (symmetry; by apply fresh_node_key).
  destruct (last_writer_Some journey_key rows n0 r0 Hr0 Hk0)
    as (r & Hw & Hr & Hk).
  assert (Hid : feedback_ID r = feedback_ID r0).
  { rewrite <- Hk0 in Hk. unfold journey_key, pattern_key, journey_pat in Hk.
    cbn [fmap list_fmap snd] in Hk. by simplify_eq. }
  exists r. split; [done|]. split.
  - rewrite <- Hw, Hid. symmetry.
    apply (last_writer_journey rows n0 (feedback_ID r0)); [done|].
    unfold n0. cbn. by rewrite lookup_insert_eq.
  - rewrite (overwrite_other rt rows n0) by done.
    unfold apply_last. rewrite Hw. unfold set_node, n0. cbn [label props].
    unfold journey_pat. by rewrite Hid.
Qed.

Lemma keys_lookup_node g i K :
  keys g !! i = Some K → ∃ n, nodes g !! i = Some n ∧ label n = K.1.
Proof.
  unfold keys. rewrite list_lookup_fmap.
  destruct (nodes g !! i) as [n|]; [|done]. intros [= <-]. by exists n.
Qed.

(** The shape of a node after a load, with the record that wrote it
    last. *)
Lemma load_node_form rt bs n :
  let rows := concat bs in
  n ∈ nodes (import_graph rt Graph.empty bs) →
  ∃ r, r ∈ rows
    ∧ (n = Node "Airport" (list_to_map (origin_pat r))
       ∨ n = Node "Airport" (list_to_map (dest_pat r))
       ∨ n = Node "Flight" (list_to_map (flight_pat r))
       ∨ (n = Node "Passenger"
                (set_all (passenger_set r) (list_to_map (passenger_pat r)))
          ∧ last_with record_locator (record_locator r) rows = Some r)
       ∨ (n = Node "Journey"
                (set_all (journey_set rt r) (list_to_map (journey_pat r)))
          ∧ last_with feedback_ID (feedback_ID r) rows = Some r)).
Proof.
  intros rows Hn.
  destruct (load_nodes rt bs n Hn) as (r0 & n0 & Hr0 & Hn0 & ->).
  fold rows in Hr0 |- *. unfold row_nodes in Hn0.
  repeat (apply elem_of_cons in Hn0 as [->|Hn0]).
  - exists r0. split; [done|]. left. apply overwrite_airport.
  - exists r0. split; [done|]. right. left. apply overwrite_airport.
  - exists r0. split; [done|]. do 2 right. left. apply overwrite_flight.
  - destruct (overwrite_passenger_node rt rows r0 Hr0) as (r & Hr & Hl & ->).
    exists r. split; [done|]. do 3 right. left. by split.
  - destruct (overwrite_journey_node rt rows r0 Hr0) as (r & Hr & Hl & ->).
    exists r. split; [done|]. do 4 right. by split.
  - by apply elem_of_nil in Hn0.
Qed.

Lemma load_node_final rt bs n :
  n ∈ nodes (import_graph rt Graph.empty bs) →
  ∃ r, r ∈ concat bs ∧ n ∈ row_final_nodes rt r.
Proof.
  intros Hn. destruct (load_node_form rt bs n Hn) as (r & Hr & Hform).
  exists r. split; [done|]. unfold row_final_nodes.
  destruct Hform as [->|[->|[->|[[-> _]|[-> _]]]]].
  - left.
  - right. left.
  - do 2 right. left.
  - do 3 right. left.
  - do 4 right. left.
Qed.

Lemma passenger_final_key r :
  node_key (Node "Passenger"
              (set_all (passenger_set r) (list_to_map (passenger_pat r))))
  = passenger_key r.
Proof.
  change (Node "Passenger"
            (set_all (passenger_set r) (list_to_map (passenger_pat r))))
    with (set_node (passenger_set r)
            (Node "Passenger" (list_to_map (passenger_pat r)))).
  rewrite (set_node_key passenger_set passenger_set_attribute).
  by apply fresh_node_key.
Qed.

Lemma journey_final_key rt r :
  node_key (Node "Journey"
              (set_all (journey_set rt r) (list_to_map (journey_pat r))))
  = journey_key r.
Proof.
  change (Node "Journey"
            (set_all (journey_set rt r) (list_to_map (journey_pat r))))
    with (set_node (journey_set rt r)
            (Node "Journey" (list_to_map (journey_pat r)))).
  rewrite (set_node_key (journey_set rt) (journey_set_attribute rt)).
  by apply fresh_node_key.
Qed.

Lemma final_nodes_keys rt r n :
  n ∈ row_final_nodes rt r → node_key n ∈ row_keys r.
Proof.
  unfold row_final_nodes, row_keys. intros Hn.
  repeat (apply elem_of_cons in Hn as [->|Hn]).
  - rewrite fresh_node_key by done. left.
  - rewrite fresh_node_key by done. right. left.
  - rewrite fresh_node_key by done. do 2 right. left.
  - rewrite passenger_final_key. do 3 right. left.
  - rewrite journey_final_key. do 4 right. left.
  - by apply elem_of_nil in Hn.
Qed.

(** The nodes two records leave coincide as soon as their keys do, if the
    records agree on the attributes they write. *)
Lemma final_nodes_inj rt r r' n n' :
  (record_locator r = record_locator r' →
   passenger_set r = passenger_set r') →
  (feedback_ID r = feedback_ID r' → journey_set rt r = journey_set rt r') →
  n ∈ row_final_nodes rt r → n' ∈ row_final_nodes rt r' →
  node_key n = node_key n' → n = n'.
Proof.
  unfold row_final_nodes. intros Hp Hj Hn Hn'.
  repeat (apply elem_of_cons in Hn as [->|Hn]);
    try (by apply elem_of_nil in Hn);
    repeat (apply elem_of_cons in Hn' as [->|Hn']);
    try (by apply elem_of_nil in Hn');
    rewrite ?passenger_final_key, ?journey_final_key;
    rewrite ?fresh_node_key by done;
    unfold passenger_key, journey_key, pattern_key, origin_pat, dest_pat,
      flight_pat, passenger_pat, journey_pat;
    cbn [fmap list_fmap snd]; intros Hk; simplify_eq; try congruence.
  - rewrite Hp by done. unfold passenger_pat. congruence.
  - rewrite Hj by done. unfold journey_pat. congruence.
Qed.

Lemma load_nodes_final rt bs n :
  consistent rt (concat bs) →
  n ∈ nodes (import_graph rt Graph.empty bs)
  ↔ ∃ r, r ∈ concat bs ∧ n ∈ row_final_nodes rt r.
Proof.
  intros Hcons. split; [apply load_node_final|].
  intros (r & Hr & Hn).
  assert (HK : node_key n ∈ keys (import_graph rt Graph.empty bs)).
  { apply load_keys. exists r. split; [done|]. by apply (final_nodes_keys rt). }
  apply list_elem_of_fmap in HK as (n' & Hk & Hn').
  destruct (load_node_final rt bs n' Hn') as (r' & Hr' & Hf').
  destruct (Hcons r r' Hr Hr') as [Hp Hj].
  by rewrite (final_nodes_inj rt r r' n n' Hp Hj Hn Hf' Hk).
Qed.

(** X14.  A load from an empty graph builds exactly what the records name:
    one node for each distinct identity key (an airport code at either end,
    a flight number with its fleet type, a record locator, a feedback ID)
    and one relationship for each distinct pair of keys a record links.  No
    key is stored twice, no relationship is stored twice or dangles, nothing
    is missing and nothing else is created; each node is the node made for
    its key with the attributes of the last record that writes it. *)
Theorem load_builds_what_records_name (rt : runtime)
    (bs : list (list row_data)) :
  let rows := concat bs in
  let g := import_graph rt Graph.empty bs in
  NoDup (keys g)
  ∧ (∀ K, K ∈ keys g ↔ ∃ r, r ∈ rows ∧ K ∈ row_keys r)
  ∧ NoDup (links g)
  ∧ (∀ l, l ∈ links g ↔ ∃ r L, r ∈ rows ∧ L ∈ row_links r ∧ l = Some L)
  ∧ length (nodes g) = length (remove_dups (rows ≫= row_keys))
  ∧ length (rels g) = length (remove_dups (rows ≫= row_links))
  ∧ (∀ n, n ∈ nodes g →
          ∃ r n0, r ∈ rows ∧ n0 ∈ row_nodes r ∧ n = overwrite rt rows n0).
Proof.
  intros rows g.
  destruct (load_facts rt bs) as ([Hnd Hrel] & _). fold g in Hnd, Hrel.
  split; [exact Hnd|]. split; [apply load_keys|].
  split; [apply load_links_NoDup|]. split; [apply load_links|].
  split; [|split; [|apply load_nodes]].
  - transitivity (length (keys g)); [unfold keys; by rewrite length_fmap|].
    apply Permutation_length, NoDup_Permutation;
      [done|apply NoDup_remove_dups|].
    intros K. rewrite elem_of_remove_dups, list_elem_of_bind.
    unfold g. rewrite load_keys. split.
    + intros (r & Hr & HK). by exists r.
    + intros (r & HK & Hr). by exists r.
  - transitivity (length (links g)); [unfold links; by rewrite length_fmap|].
    rewrite <- (length_fmap Some (remove_dups (rows ≫= row_links))).
    apply Permutation_length, NoDup_Permutation.
    + apply load_links_NoDup.
    + apply (NoDup_fmap_2 Some), NoDup_remove_dups.
    + intros l. unfold g. rewrite load_links, list_elem_of_fmap. split.
      * intros (r & L & Hr & HL & ->). exists L. split; [done|].
        apply elem_of_remove_dups, list_elem_of_bind. by exists r.
      * intros (L & -> & HL).
        apply elem_of_remove_dups, list_elem_of_bind in HL as (r & HL & Hr).
        by exists r, L.
Qed.

(** X15.  How the records are cut into batches does not matter: two loads
    from an empty graph of the same records in the same order, batched
    differently, leave the same nodes with the same properties and the same
    relationships between the same keys; only the order in which they are
    stored may differ. *)
Theorem batching_is_immaterial (rt : runtime)
    (bs bs' : list (list row_data)) :
  concat bs = concat bs' →
  let g := import_graph rt Graph.empty bs in
  let g' := import_graph rt Graph.empty bs' in
  nodes g ≡ₚ nodes g' ∧ links g ≡ₚ links g'
  ∧ length (nodes g) = length (nodes g')
  ∧ length (rels g) = length (rels g').
Proof.
  intros Hcat g g'.
  assert (Hn : nodes g ≡ₚ nodes g').
  { destruct (load_facts rt bs) as ([Hnd _] & _).
    destruct (load_facts rt bs') as ([Hnd' _] & _).
    apply NoDup_Permutation.
    - by apply (NoDup_fmap_1 node_key).
    - by apply (NoDup_fmap_1 node_key).
    - intros n. split; by apply load_nodes_same. }
  assert (Hl : links g ≡ₚ links g').
  { apply NoDup_Permutation; [apply load_links_NoDup..|].
    intros l. unfold g, g'. by rewrite !load_links, Hcat. }
  split; [done|]. split; [done|]. split.
  - by apply Permutation_length.
  - apply Permutation_length in Hl. unfold links in Hl.
    by rewrite !length_fmap in Hl.
Qed.

Lemma batching_is_immaterial_witness :
  nodes (import_graph Samples.sample_runtime Graph.empty
           Samples.sample_batches)
  ≡ₚ nodes (import_graph Samples.sample_runtime Graph.empty
              [Samples.sample_records]).
Proof.
  apply (batching_is_immaterial Samples.sample_runtime Samples.sample_batches
           [Samples.sample_records]).
  reflexivity.
Defined.

(** X16.  The import only adds and overwrites: whatever graph it starts
    from, after any batches every node is still at its position with its
    label, its key properties and every property other than the seven the
    statement assigns, and every relationship is still at its position; new
    nodes and relationships come after them.  So the same holds of the
    loader, and only the wipe of the build program removes anything. *)
Theorem import_never_removes (rt : runtime) :
  (∀ (g : graph) (bs : list (list row_data)),
     let g' := import_graph rt g bs in
     ∃ ns fresh new,
       nodes g' = ns ++ fresh
       ∧ Forall2 (λ n n', label n' = label n ∧ node_key n' = node_key n
                          ∧ ∀ k, k ∉ assigned_props →
                                 props n' !! k = props n !! k)
           (nodes g) ns
       ∧ rels g' = rels g ++ new)
  ∧ (∀ (fs : files) (csv_path : string) (w : world),
       grows (graph_of (the_store w))
         (graph_of (the_store (CreateKg.load_csv_data rt fs csv_path w).2))).
Proof.
  split.
  - intros g bs g'.
    destruct (import_graph_grows rt bs g) as (ns & fresh & new & Hn & Hs & Hr).
    exists ns, fresh, new. split; [done|]. split; [|done].
    eapply Forall2_impl; [exact Hs|]. intros n n' Hnn'.
    split; [apply Hnn'|]. split; [by apply same_identity_key|apply Hnn'].
  - intros fs csv_path w.
    destruct (ProgramFacts.load_csv_data_uniform rt fs csv_path)
      as (bs & evs & _ & Hload).
    rewrite Hload. cbn [snd the_store].
    rewrite ProgramFacts.import_batches_graph. cbn [graph_of].
    apply import_graph_grows.
Qed.

(** X17.  After a load from an empty graph every stored node has one of the
    four labels and holds exactly the properties the statement gives that
    label: an airport its code, a flight its number and fleet type, a
    passenger its record locator with the two attributes of the last record
    with that locator, a journey its feedback ID with the attributes of the
    last record with that ID (a number that [toInteger] reads as null is
    absent).  Every relationship has one of the four types and joins nodes
    of the labels that type is written between. *)
Theorem stored_graph_conforms (rt : runtime) (bs : list (list row_data)) :
  let rows := concat bs in
  let g := import_graph rt Graph.empty bs in
  (∀ n, n ∈ nodes g →
     ∃ r, r ∈ rows
       ∧ (n = Node "Airport" (list_to_map (origin_pat r))
          ∨ n = Node "Airport" (list_to_map (dest_pat r))
          ∨ n = Node "Flight" (list_to_map (flight_pat r))
          ∨ (n = Node "Passenger"
                   (set_all (passenger_set r) (list_to_map (passenger_pat r)))
             ∧ last_with record_locator (record_locator r) rows = Some r)
          ∨ (n = Node "Journey"
                   (set_all (journey_set rt r) (list_to_map (journey_pat r)))
             ∧ last_with feedback_ID (feedback_ID r) rows = Some r)))
  ∧ (∀ a type b, (a, type, b) ∈ rels g →
       ∃ na nb, nodes g !! a = Some na ∧ nodes g !! b = Some nb
         ∧ (type, label na, label nb)
           ∈ [("DEPARTS_FROM", "Flight", "Airport");
              ("ARRIVES_AT", "Flight", "Airport");
              ("TOOK", "Passenger", "Journey");
              ("ON", "Journey", "Flight")]).
Proof.
  intros rows g. split.
  - intros n Hn. by apply load_node_form.
  - intros a type b Hx.
    destruct (load_facts rt bs) as (Hg & Ha & _ & Hrels & _). cbn zeta in *.
    fold g in Hg, Ha, Hrels. rewrite Forall_forall in Ha.
    destruct (Hrels _ Hx) as (r & Hr & Hxr).
    destruct (row_rels_link g r _ (Ha r Hr) Hxr) as (L & HL & Hlink).
    unfold link_of in Hlink. cbn [fst snd] in Hlink.
    destruct (keys g !! a) as [ka|] eqn:Hka; [|done].
    destruct (keys g !! b) as [kb|] eqn:Hkb; [|done].
    cbn in Hlink. injection Hlink as <-.
    destruct (keys_lookup_node g a ka Hka) as (na & Hna & Hla).
    destruct (keys_lookup_node g b kb Hkb) as (nb & Hnb & Hlb).
    exists na, nb. split; [done|]. split; [done|]. rewrite Hla, Hlb.
    unfold row_links in HL.
    repeat (apply elem_of_cons in HL as [HL|HL]);
      try (by apply elem_of_nil in HL); simplify_eq; cbn [fst].
    + left.
    + right. left.
    + do 2 right. left.
    + do 3 right. left.
Qed.

(** X19.  The order of the records matters only through the attributes of
    passengers and journeys that several records write.  Two loads from an
    empty graph of the same records in any two orders leave the same
    identity keys and the same relationships between them; if moreover the
    records with the same record locator agree on the passenger's attributes
    and those with the same feedback ID on the journey's, they leave the
    same nodes, which are then exactly the nodes each record writes. *)
Theorem row_order_matters_only_for_rewritten_attributes (rt : runtime)
    (bs bs' : list (list row_data)) :
  concat bs ≡ₚ concat bs' →
  let g := import_graph rt Graph.empty bs in
  let g' := import_graph rt Graph.empty bs' in
  keys g ≡ₚ keys g'
  ∧ links g ≡ₚ links g'
  ∧ (consistent rt (concat bs) →
     nodes g ≡ₚ nodes g'
     ∧ ∀ n, n ∈ nodes g ↔ ∃ r, r ∈ concat bs ∧ n ∈ row_final_nodes rt r).
Proof.
  intros Hperm g g'.
  destruct (load_facts rt bs) as ([Hnd _] & _).
  destruct (load_facts rt bs') as ([Hnd' _] & _).
  fold g in Hnd. fold g' in Hnd'.
  assert (Hin : ∀ r, r ∈ concat bs ↔ r ∈ concat bs')
    by (intros r; by rewrite Hperm).
  split; [|split].
  - apply NoDup_Permutation; [done..|].
    intros K. unfold g, g'. rewrite !load_keys.
    split; intros (r & Hr & HK); exists r; (split; [by apply Hin|done]).
  - apply NoDup_Permutation; [apply load_links_NoDup..|].
    intros l. unfold g, g'. rewrite !load_links.
    split; intros (r & L & Hr & HL); exists r, L; (split; [by apply Hin|done]).
  - intros Hcons.
    assert (Hcons' : consistent rt (concat bs')).
    { intros r1 r2 H1 H2. apply Hcons; by apply Hin. }
    split; [|intros n; by apply load_nodes_final].
    apply NoDup_Permutation.
    + by apply (NoDup_fmap_1 node_key).
    + by apply (NoDup_fmap_1 node_key).
    + intros n. unfold g, g'.
      rewrite (load_nodes_final rt bs n Hcons),
        (load_nodes_final rt bs' n Hcons').
      split; intros (r & Hr & Hn); exists r; (split; [by apply Hin|done]).
Qed.

Lemma row_order_matters_only_for_rewritten_attributes_witness :
  nodes (import_graph Samples.sample_runtime Graph.empty
           [take 2 Samples.sample_records])
  ≡ₚ nodes (import_graph Samples.sample_runtime Graph.empty
              [reverse (take 2 Samples.sample_records)]).
Proof.
  destruct (row_order_matters_only_for_rewritten_attributes
              Samples.sample_runtime [take 2 Samples.sample_records]
              [reverse (take 2 Samples.sample_records)])
    as (_ & _ & Hnodes).
  - cbn [concat]. rewrite !app_nil_r. symmetry. apply reverse_Permutation.
  - apply Hnodes. intros r1 r2 H1 H2. cbn [concat] in H1, H2.
    rewrite app_nil_r in H1, H2.
    remember (take 2 Samples.sample_records) as l eqn:Hl.
    vm_compute in Hl. subst l.
    repeat (apply elem_of_cons in H1 as [->|H1]);
      try (by apply elem_of_nil in H1);
      repeat (apply elem_of_cons in H2 as [->|H2]);
      try (by apply elem_of_nil in H2);
      (split; [intros _; reflexivity|intros Hid; try reflexivity;
                                     vm_compute in Hid; discriminate Hid]).
Defined.

(** *** The declared constraints *)

Lemma declare_lookup_Some name d (s : gmap string Store.decl) k x :
  declare name d s !! k = Some x → s !! k = Some x ∨ (k = name ∧ x = d).
Proof.
  unfold declare. destruct (s !! name) eqn:Hn; [by left|].
  intros [[-> ->]|[_ Hk]]%lookup_insert_Some; [by right|by left].
Qed.

Lemma same_key_same_node g i j ni nj :
  NoDup (keys g) → nodes g !! i = Some ni → nodes g !! j = Some nj →
  node_key ni = node_key nj → i = j.
Proof.
  intros Hnd Hi Hj Hk. apply (NoDup_lookup (keys g) i j (node_key ni) Hnd).
  - unfold keys. by rewrite list_lookup_fmap, Hi.
  - unfold keys. by rewrite list_lookup_fmap, Hj, Hk.
Qed.

(** X20.  The import never breaks the constraints the build declares.  The
    uniqueness constraints that [create_constraints] adds to a store are on
    the record locator of passengers, the feedback ID of journeys and the
    station code of airports; after any batches loaded from an empty graph
    no two nodes of such a label agree on that property, and no two flights
    agree on both flight number and fleet type. *)
Theorem import_respects_constraints (rt : runtime)
    (bs : list (list row_data)) :
  let g := import_graph rt Graph.empty bs in
  (∀ (s : gmap string Store.decl) name lbl prop,
     s !! name = None →
     BuildSpec.declared s !! name = Some (lbl, [prop], true) →
     (lbl, prop) ∈ unique_constraints)
  ∧ (∀ lbl prop i j ni nj,
       (lbl, prop) ∈ unique_constraints →
       nodes g !! i = Some ni → nodes g !! j = Some nj →
       label ni = lbl → label nj = lbl →
       props ni !! prop = props nj !! prop → i = j)
  ∧ (∀ i j ni nj,
       nodes g !! i = Some ni → nodes g !! j = Some nj →
       label ni = "Flight" → label nj = "Flight" →
       props ni !! "flight_number" = props nj !! "flight_number" →
       props ni !! "fleet_type_description"
       = props nj !! "fleet_type_description" →
       i = j).
Proof.
  intros g. destruct (load_facts rt bs) as ([Hnd _] & _). fold g in Hnd.
  split; [|split].
  - intros s name lbl prop Hnone Hd. unfold BuildSpec.declared in Hd.
    unfold unique_constraints.
    apply declare_lookup_Some in Hd as [Hd|[_ Hd]]; [|discriminate Hd].
    apply declare_lookup_Some in Hd as [Hd|[_ Hd]];
      [|injection Hd as -> ->; do 2 right; left].
    apply declare_lookup_Some in Hd as [Hd|[_ Hd]];
      [|injection Hd as -> ->; right; left].
    apply declare_lookup_Some in Hd as [Hd|[_ Hd]];
      [congruence|injection Hd as -> ->; left].
  - intros lbl prop i j ni nj Hc Hi Hj Hli Hlj Hp.
    apply (same_key_same_node g i j ni nj Hnd Hi Hj).
    unfold node_key. rewrite Hli, Hlj. f_equal.
    unfold unique_constraints in Hc.
    apply elem_of_cons in Hc as [[= -> ->]|Hc].
    { change (schema_keys "Passenger") with ["record_locator"].
      cbn [fmap list_fmap]. by rewrite Hp. }
    apply elem_of_cons in Hc as [[= -> ->]|Hc].
    { change (schema_keys "Journey") with ["feedback_ID"].
      cbn [fmap list_fmap]. by rewrite Hp. }
    apply elem_of_cons in Hc as [[= -> ->]|Hc].
    { change (schema_keys "Airport") with ["station_code"].
      cbn [fmap list_fmap]. by rewrite Hp. }
    by apply elem_of_nil in Hc.
  - intros i j ni nj Hi Hj Hli Hlj Hn Hf.
    apply (same_key_same_node g i j ni nj Hnd Hi Hj).
    unfold node_key. rewrite Hli, Hlj.
    change (schema_keys "Flight")
      with ["flight_number"; "fleet_type_description"].
    cbn [fmap list_fmap]. by rewrite Hn, Hf.
Qed.

Lemma import_respects_constraints_witness :
  ("Journey", "feedback_ID") ∈ unique_constraints
  ∧ ∀ i j ni nj,
      nodes (import_graph Samples.sample_runtime Graph.empty
               Samples.sample_batches) !! i = Some ni →
      nodes (import_graph Samples.sample_runtime Graph.empty
               Samples.sample_batches) !! j = Some nj →
      label ni = "Journey" → label nj = "Journey" →
      props ni !! "feedback_ID" = props nj !! "feedback_ID" → i = j.
Proof.
  destruct (import_respects_constraints Samples.sample_runtime
              Samples.sample_batches) as (Hdecl & Huniq & _).
  assert (Hc : ("Journey", "feedback_ID") ∈ unique_constraints).
  { apply (Hdecl ∅ "journey_id" "Journey" "feedback_ID");
      [apply lookup_empty|by vm_compute]. }
  split; [exact Hc|].
  intros i j ni nj. by apply Huniq.
Defined.

End GraphProps.

(** ** The build program, end to end *)

Module BuildProps.
Import Frame Graph Upsert Store Prog TraceSpec BuildSpec LoadSpec GraphSpec.
Import CreateKg ProgramFacts UpsertFacts GraphProps.




End BuildProps.
